(** * HgRepositoryClient: the client-side Mercurial status cache of Nuclide

    A shallow embedding of [HgRepositoryClient] (nuclide-hg-repository-client)
    and the properties of its status cache, diff cache, modified-directory
    index and revision caches.

    Conventions of the embedding.
    - JS objects used as dictionaries ([_hgStatusCache], [_hgDiffCache]) and
      the [Map] [_modifiedDirectoryCache] are finite maps ([gmap]) keyed by
      path; the sets of paths are [gset string].
    - A JS [Map] that the code iterates ([fetchStatuses]' answer) is an
      association list in iteration order; a [Map] has no duplicate key, which
      theorems that need it state as [NoDup] of the keys.
    - The backend ([HgService]) is an oracle held in the client's [_service]
      field: what it would answer to each request at this moment.
    - Every method runs in the monad [M]: it reads and updates the client
      and produces the ordered list of its effects: backend requests, events
      given to the emitter (each with the caches a subscriber sees when the
      event is delivered), and disposals.
    - An [await] on the backend is answered at once by the oracle.  The two
      methods that mutate the caches after their [await] are also given split
      at the [await]: the part after it is a function of the backend's answer
      that runs from an arbitrary client state. *)

From Stdlib Require Import Ascii String.
From stdpp Require Import gmap strings pretty list fin_maps.

Set Default Proof Using "Type".
Set Warnings "-clear-no-such-hyp".

(** ** Constants (hg-constants) *)

(** Modelled from the spec: the closed set of status codes of hg-constants
    (CLEAN, MODIFIED, ADDED, UNTRACKED, IGNORED, MISSING, REMOVED); the module
    is imported by the client and is not among the sources.  [StatusCodeId] are
    the identifiers the backend reports and the status cache stores. *)
Module StatusCodeId.
Inductive t := ADDED | CLEAN | IGNORED | MODIFIED | MISSING | REMOVED | UNTRACKED.
End StatusCodeId.

#[global] Instance StatusCodeId_eq_dec : EqDecision StatusCodeId.t.
Proof. solve_decision. Defined.

(** Modelled from the spec: the numeric status codes of hg-constants handed to
    the consumers of the client, one per identifier. *)
Module StatusCodeNumber.
Inductive t := ADDED | CLEAN | IGNORED | MODIFIED | MISSING | REMOVED | UNTRACKED.
End StatusCodeNumber.

#[global] Instance StatusCodeNumber_eq_dec : EqDecision StatusCodeNumber.t.
Proof. solve_decision. Defined.

(** Modelled from the spec: the three filter options of a status request. *)
Module HgStatusOption.
Inductive t := ONLY_NON_IGNORED | ONLY_IGNORED | ALL_STATUSES.
End HgStatusOption.

#[global] Instance HgStatusOption_eq_dec : EqDecision HgStatusOption.t.
Proof. solve_decision. Defined.

Abbreviation StatusCodeIdValue := StatusCodeId.t.
Abbreviation StatusCodeNumberValue := StatusCodeNumber.t.
Abbreviation HgStatusOptionValue := HgStatusOption.t.

(** Modelled from the spec: the table [StatusCodeIdToNumber] of hg-constants. *)
Definition StatusCodeIdToNumber (id : StatusCodeIdValue) : StatusCodeNumberValue :=
  match id with
  | StatusCodeId.ADDED => StatusCodeNumber.ADDED
  | StatusCodeId.CLEAN => StatusCodeNumber.CLEAN
  | StatusCodeId.IGNORED => StatusCodeNumber.IGNORED
  | StatusCodeId.MODIFIED => StatusCodeNumber.MODIFIED
  | StatusCodeId.MISSING => StatusCodeNumber.MISSING
  | StatusCodeId.REMOVED => StatusCodeNumber.REMOVED
  | StatusCodeId.UNTRACKED => StatusCodeNumber.UNTRACKED
  end.


Definition filterForOnlyNotIgnored (code : StatusCodeIdValue) : bool :=
  negb (bool_decide (code = StatusCodeId.IGNORED)).

Definition filterForOnlyIgnored (code : StatusCodeIdValue) : bool :=
  bool_decide (code = StatusCodeId.IGNORED).

Definition filterForAllStatues (code : StatusCodeIdValue) : bool := true.

(** ** Types of the service interface *)

Record HgStatusCommandOptions := { hgStatusOption : HgStatusOptionValue }.

Record LineDiff := {
  oldStart : Z; oldLines : Z; newStart : Z; newLines : Z
}.

Record DiffInfo := {
  added : Z; deleted : Z; lineDiffs : list LineDiff
}.

Record DiffStats := { stats_added : Z; stats_deleted : Z }.

(** The change list of a revision; the client only stores and returns it. *)
Record RevisionFileChanges := { changedFiles : list string }.

(** The backend.  [fetchDiffInfo] answers [None] when the underlying
    [hg diff] fails. *)
Module HgService.
Record t := {
  fetchStatuses :
    list string → option HgStatusCommandOptions → list (string * StatusCodeIdValue);
  fetchDiffInfo : list string → option (list (string * DiffInfo));
  fetchFileContentAtRevision : string → string → string;
  fetchFilesChangedAtRevision : string → RevisionFileChanges;
  commit : string → list string;
  amend : option string → string → list string
}.
End HgService.

(** ** The lru-cache package

    [entries] is ordered from the most to the least recently used key. *)
Module LRU.
Record t (V : Type) := mk { max : nat; entries : list (string * V) }.
Arguments mk {V} _ _.
Arguments max {V} _.
Arguments entries {V} _.

Definition new {V} (max : nat) : t V := mk max [].

Definition without {V} (key : string) (l : list (string * V)) : list (string * V) :=
  filter (λ kv, kv.1 ≠ key) l.

Fixpoint find {V} (key : string) (l : list (string * V)) : option V :=
  match l with
  | [] => None
  | (k, v) :: rest => if decide (k = key) then Some v else find key rest
  end.

(** [peek] reads without touching the recency order. *)
Definition peek {V} (key : string) (c : t V) : option V := find key (entries c).

(** [get] returns the value and makes the key the most recently used. *)
Definition get {V} (key : string) (c : t V) : option V * t V :=
  match find key (entries c) with
  | Some v => (Some v, mk (max c) ((key, v) :: without key (entries c)))
  | None => (None, c)
  end.

(** [set] makes the key the most recently used and drops the least recently
    used entries beyond [max]. *)
Definition set {V} (key : string) (v : V) (c : t V) : t V :=
  mk (max c) (take (max c) ((key, v) :: without key (entries c))).

Definition reset {V} (c : t V) : t V := mk (max c) [].

(** In-place mutation of the object stored under [key]: the value changes, the
    recency order does not. *)
Definition mutate {V} (key : string) (f : V → V) (c : t V) : t V :=
  mk (max c) (List.map (λ kv, if decide (kv.1 = key) then (kv.1, f kv.2) else kv) (entries c)).

Definition length {V} (c : t V) : nat := List.length (entries c).
End LRU.

(** ** Paths

    What the client asks of the editor's [Directory] object for the project
    root, of [nuclideUri] and of the path walk of its utils module. *)
Class PathLib := {
  (** [this._projectDirectory.getPath()] *)
  projectDirectory_getPath : string;
  (** [this._projectDirectory.contains(filePath)] *)
  projectDirectory_contains : string → bool;
  (** [this._projectDirectory.getParent().getPath()] *)
  projectDirectory_getParent_getPath : string;
  (** [nuclideUri.normalizeDir] *)
  normalizeDir : string → string;
  (** the normalized ancestor directories of a path, from its directory up to,
      and not including, the base directory *)
  getAllParentDirectories : string → string → list string
}.

(** ** Events, effects and the client *)

Inductive Event :=
| DidChangeStatus (path : string) (pathStatus : StatusCodeNumberValue)
| DidChangeStatuses
| DidDestroy.

(** The caches as a subscriber reads them through the synchronous getters. *)
Record Caches := {
  seen_status : gmap string StatusCodeIdValue;
  seen_directories : gmap string nat;
  seen_diff : gmap string DiffInfo
}.

Inductive BackendCall :=
| FetchStatuses (paths : list string) (options : option HgStatusCommandOptions)
| FetchDiffInfo (paths : list string)
| FetchFileContentAtRevision (filePath revision : string)
| FetchFilesChangedAtRevision (revision : string)
| Commit (message : string)
| Amend (message : option string) (amendMode : string).

Inductive Disposable :=
| EditorSubscription (filePath : string)
| Subscriptions.

Inductive Effect :=
| Backend (call : BackendCall)
| Emit (event : Event) (seen : Caches)
| Dispose (d : Disposable).

Record Client := {
  _service : HgService.t;
  _editorSubscriptions : list string;
  _subscriptions_disposed : bool;
  _hgStatusCache : gmap string StatusCodeIdValue;
  _modifiedDirectoryCache : gmap string nat;
  _hgDiffCache : gmap string DiffInfo;
  _hgDiffCacheFilesUpdating : gset string;
  _hgDiffCacheFilesToClear : gset string;
  _revisionIdToFileChanges : LRU.t RevisionFileChanges;
  _fileContentsAtRevisionIds : LRU.t (gmap string string);
  _isDestroyed : bool
}.

Definition set_service (v : HgService.t) (c : Client) : Client :=
  {| _service := v;
     _editorSubscriptions := _editorSubscriptions c;
     _subscriptions_disposed := _subscriptions_disposed c;
     _hgStatusCache := _hgStatusCache c;
     _modifiedDirectoryCache := _modifiedDirectoryCache c;
     _hgDiffCache := _hgDiffCache c;
     _hgDiffCacheFilesUpdating := _hgDiffCacheFilesUpdating c;
     _hgDiffCacheFilesToClear := _hgDiffCacheFilesToClear c;
     _revisionIdToFileChanges := _revisionIdToFileChanges c;
     _fileContentsAtRevisionIds := _fileContentsAtRevisionIds c;
     _isDestroyed := _isDestroyed c |}.

Definition set_editorSubscriptions (v : list string) (c : Client) : Client :=
  {| _service := _service c;
     _editorSubscriptions := v;
     _subscriptions_disposed := _subscriptions_disposed c;
     _hgStatusCache := _hgStatusCache c;
     _modifiedDirectoryCache := _modifiedDirectoryCache c;
     _hgDiffCache := _hgDiffCache c;
     _hgDiffCacheFilesUpdating := _hgDiffCacheFilesUpdating c;
     _hgDiffCacheFilesToClear := _hgDiffCacheFilesToClear c;
     _revisionIdToFileChanges := _revisionIdToFileChanges c;
     _fileContentsAtRevisionIds := _fileContentsAtRevisionIds c;
     _isDestroyed := _isDestroyed c |}.

Definition set_subscriptions_disposed (v : bool) (c : Client) : Client :=
  {| _service := _service c;
     _editorSubscriptions := _editorSubscriptions c;
     _subscriptions_disposed := v;
     _hgStatusCache := _hgStatusCache c;
     _modifiedDirectoryCache := _modifiedDirectoryCache c;
     _hgDiffCache := _hgDiffCache c;
     _hgDiffCacheFilesUpdating := _hgDiffCacheFilesUpdating c;
     _hgDiffCacheFilesToClear := _hgDiffCacheFilesToClear c;
     _revisionIdToFileChanges := _revisionIdToFileChanges c;
     _fileContentsAtRevisionIds := _fileContentsAtRevisionIds c;
     _isDestroyed := _isDestroyed c |}.

Definition set_hgStatusCache (v : gmap string StatusCodeIdValue) (c : Client) : Client :=
  {| _service := _service c;
     _editorSubscriptions := _editorSubscriptions c;
     _subscriptions_disposed := _subscriptions_disposed c;
     _hgStatusCache := v;
     _modifiedDirectoryCache := _modifiedDirectoryCache c;
     _hgDiffCache := _hgDiffCache c;
     _hgDiffCacheFilesUpdating := _hgDiffCacheFilesUpdating c;
     _hgDiffCacheFilesToClear := _hgDiffCacheFilesToClear c;
     _revisionIdToFileChanges := _revisionIdToFileChanges c;
     _fileContentsAtRevisionIds := _fileContentsAtRevisionIds c;
     _isDestroyed := _isDestroyed c |}.

Definition set_modifiedDirectoryCache (v : gmap string nat) (c : Client) : Client :=
  {| _service := _service c;
     _editorSubscriptions := _editorSubscriptions c;
     _subscriptions_disposed := _subscriptions_disposed c;
     _hgStatusCache := _hgStatusCache c;
     _modifiedDirectoryCache := v;
     _hgDiffCache := _hgDiffCache c;
     _hgDiffCacheFilesUpdating := _hgDiffCacheFilesUpdating c;
     _hgDiffCacheFilesToClear := _hgDiffCacheFilesToClear c;
     _revisionIdToFileChanges := _revisionIdToFileChanges c;
     _fileContentsAtRevisionIds := _fileContentsAtRevisionIds c;
     _isDestroyed := _isDestroyed c |}.

Definition set_hgDiffCache (v : gmap string DiffInfo) (c : Client) : Client :=
  {| _service := _service c;
     _editorSubscriptions := _editorSubscriptions c;
     _subscriptions_disposed := _subscriptions_disposed c;
     _hgStatusCache := _hgStatusCache c;
     _modifiedDirectoryCache := _modifiedDirectoryCache c;
     _hgDiffCache := v;
     _hgDiffCacheFilesUpdating := _hgDiffCacheFilesUpdating c;
     _hgDiffCacheFilesToClear := _hgDiffCacheFilesToClear c;
     _revisionIdToFileChanges := _revisionIdToFileChanges c;
     _fileContentsAtRevisionIds := _fileContentsAtRevisionIds c;
     _isDestroyed := _isDestroyed c |}.

Definition set_hgDiffCacheFilesUpdating (v : gset string) (c : Client) : Client :=
  {| _service := _service c;
     _editorSubscriptions := _editorSubscriptions c;
     _subscriptions_disposed := _subscriptions_disposed c;
     _hgStatusCache := _hgStatusCache c;
     _modifiedDirectoryCache := _modifiedDirectoryCache c;
     _hgDiffCache := _hgDiffCache c;
     _hgDiffCacheFilesUpdating := v;
     _hgDiffCacheFilesToClear := _hgDiffCacheFilesToClear c;
     _revisionIdToFileChanges := _revisionIdToFileChanges c;
     _fileContentsAtRevisionIds := _fileContentsAtRevisionIds c;
     _isDestroyed := _isDestroyed c |}.

Definition set_hgDiffCacheFilesToClear (v : gset string) (c : Client) : Client :=
  {| _service := _service c;
     _editorSubscriptions := _editorSubscriptions c;
     _subscriptions_disposed := _subscriptions_disposed c;
     _hgStatusCache := _hgStatusCache c;
     _modifiedDirectoryCache := _modifiedDirectoryCache c;
     _hgDiffCache := _hgDiffCache c;
     _hgDiffCacheFilesUpdating := _hgDiffCacheFilesUpdating c;
     _hgDiffCacheFilesToClear := v;
     _revisionIdToFileChanges := _revisionIdToFileChanges c;
     _fileContentsAtRevisionIds := _fileContentsAtRevisionIds c;
     _isDestroyed := _isDestroyed c |}.

Definition set_revisionIdToFileChanges (v : LRU.t RevisionFileChanges) (c : Client) : Client :=
  {| _service := _service c;
     _editorSubscriptions := _editorSubscriptions c;
     _subscriptions_disposed := _subscriptions_disposed c;
     _hgStatusCache := _hgStatusCache c;
     _modifiedDirectoryCache := _modifiedDirectoryCache c;
     _hgDiffCache := _hgDiffCache c;
     _hgDiffCacheFilesUpdating := _hgDiffCacheFilesUpdating c;
     _hgDiffCacheFilesToClear := _hgDiffCacheFilesToClear c;
     _revisionIdToFileChanges := v;
     _fileContentsAtRevisionIds := _fileContentsAtRevisionIds c;
     _isDestroyed := _isDestroyed c |}.

Definition set_fileContentsAtRevisionIds (v : LRU.t (gmap string string)) (c : Client) : Client :=
  {| _service := _service c;
     _editorSubscriptions := _editorSubscriptions c;
     _subscriptions_disposed := _subscriptions_disposed c;
     _hgStatusCache := _hgStatusCache c;
     _modifiedDirectoryCache := _modifiedDirectoryCache c;
     _hgDiffCache := _hgDiffCache c;
     _hgDiffCacheFilesUpdating := _hgDiffCacheFilesUpdating c;
     _hgDiffCacheFilesToClear := _hgDiffCacheFilesToClear c;
     _revisionIdToFileChanges := _revisionIdToFileChanges c;
     _fileContentsAtRevisionIds := v;
     _isDestroyed := _isDestroyed c |}.

Definition set_isDestroyed (v : bool) (c : Client) : Client :=
  {| _service := _service c;
     _editorSubscriptions := _editorSubscriptions c;
     _subscriptions_disposed := _subscriptions_disposed c;
     _hgStatusCache := _hgStatusCache c;
     _modifiedDirectoryCache := _modifiedDirectoryCache c;
     _hgDiffCache := _hgDiffCache c;
     _hgDiffCacheFilesUpdating := _hgDiffCacheFilesUpdating c;
     _hgDiffCacheFilesToClear := _hgDiffCacheFilesToClear c;
     _revisionIdToFileChanges := _revisionIdToFileChanges c;
     _fileContentsAtRevisionIds := _fileContentsAtRevisionIds c;
     _isDestroyed := v |}.

Definition caches (c : Client) : Caches :=
  {| seen_status := _hgStatusCache c;
     seen_directories := _modifiedDirectoryCache c;
     seen_diff := _hgDiffCache c |}.

(** The client as the constructor leaves it. *)
Definition constructor (hgService : HgService.t) : Client :=
  {| _service := hgService;
     _editorSubscriptions := [];
     _subscriptions_disposed := false;
     _hgStatusCache := ∅;
     _modifiedDirectoryCache := ∅;
     _hgDiffCache := ∅;
     _hgDiffCacheFilesUpdating := ∅;
     _hgDiffCacheFilesToClear := ∅;
     _revisionIdToFileChanges := LRU.new 100;
     _fileContentsAtRevisionIds := LRU.new 20;
     _isDestroyed := false |}.

(** ** The monad of the client's methods *)

Definition M (A : Type) : Type := Client → A * Client * list Effect.

#[export] Instance M_ret : MRet M := λ A a s, (a, s, []).

#[export] Instance M_bind : MBind M := λ A B f m s,
  let '(a, s1, l1) := m s in
  let '(b, s2, l2) := f a s1 in
  (b, s2, l1 ++ l2).

Definition gets {A} (f : Client → A) : M A := λ s, (f s, s, []).
Definition modify (f : Client → Client) : M unit := λ s, (tt, f s, []).
Definition perform (e : Effect) : M unit := λ s, (tt, s, [e]).

(** [this._emitter.emit]: the subscribers run at once and read the caches. *)
Definition emit (e : Event) : M unit := λ s, (tt, s, [Emit e (caches s)]).

(** A request to the backend and its answer. *)
Definition request {A} (call : BackendCall) (answer : HgService.t → A) : M A :=
  λ s, (answer (_service s), s, [Backend call]).

Fixpoint forEach {A} (f : A → M unit) (l : list A) : M unit :=
  match l with
  | [] => mret tt
  | x :: rest => f x;; forEach f rest
  end.

Definition result {A} (r : A * Client * list Effect) : A := r.1.1.
Definition after {A} (r : A * Client * list Effect) : Client := r.1.2.
Definition effects {A} (r : A * Client * list Effect) : list Effect := r.2.

Definition state {A} (f : Client → A * Client) : M A :=
  λ s, let '(a, s') := f s in (a, s', []).

(** ** JS values *)

(** How the promise returned by an [async] function or by a call to the
    backend settles. *)
Inductive Settled (A : Type) :=
| Fulfilled (value : A)
| Rejected.
Arguments Fulfilled {A} _.
Arguments Rejected {A}.

(** [!filePath] for a [?string]: null, undefined and the empty string. *)
Definition truthy (filePath : option string) : option string :=
  match filePath with
  | Some "" => None
  | other => other
  end.

(** A JS [Set] of strings, in insertion order. *)
Definition Set_add (s : list string) (x : string) : list string :=
  if bool_decide (x ∈ s) then s else s ++ [x].

Definition Set_new (l : list string) : list string := foldl Set_add [] l.

Definition Set_delete (s : list string) (x : string) : list string :=
  filter (λ y, y ≠ x) s.

(** ** utils: the modified-directory index *)

(** Modelled from the spec: the utils module of the client is not among the
    sources.  One more modified file below the directory. *)
Definition addItemToCache (cache : gmap string nat) (directoryPath : string) : gmap string nat :=
  <[directoryPath := S (default 0 (cache !! directoryPath))]> cache.

(** Modelled from the spec: the utils module of the client is not among the
    sources.  One modified file less below the directory; the entry is deleted
    when its count reaches zero. *)
Definition removeItemFromCache (cache : gmap string nat) (directoryPath : string) : gmap string nat :=
  match cache !! directoryPath with
  | Some n => if bool_decide (1 < n) then <[directoryPath := n - 1]> cache
              else delete directoryPath cache
  | None => cache
  end.

Section HgRepositoryClient.
Context `{PathLib}.

(** Modelled from the spec: [addAllParentDirectoriesToCache] of utils, not
    among the sources, increments the reference count of every ancestor
    directory between the path and the project boundary. *)
Definition addAllParentDirectoriesToCache
    (directoryCache : gmap string nat) (filePath baseDirectory : string) : gmap string nat :=
  foldl addItemToCache directoryCache (getAllParentDirectories filePath baseDirectory).

(** Modelled from the spec: [removeAllParentDirectoriesFromCache] of utils, not
    among the sources, decrements the same chain and deletes any ancestor
    entry whose count reaches zero. *)
Definition removeAllParentDirectoriesFromCache
    (directoryCache : gmap string nat) (filePath baseDirectory : string) : gmap string nat :=
  foldl removeItemFromCache directoryCache (getAllParentDirectories filePath baseDirectory).

(** ** HgRepositoryClient *)

Definition getProjectDirectory : string := projectDirectory_getPath.

Definition isDestroyed (c : Client) : bool := _isDestroyed c.

Definition destroy : M unit :=
  destroyed ← gets _isDestroyed;
  if destroyed : bool then mret tt
  else
    modify (set_isDestroyed true);;
    editorSubscriptions ← gets _editorSubscriptions;
    forEach (λ filePath, perform (Dispose (EditorSubscription filePath))) editorSubscriptions;;
    modify (set_editorSubscriptions []);;
    emit DidDestroy;;
    perform (Dispose Subscriptions);;
    modify (set_subscriptions_disposed true);;
    modify (λ c, set_revisionIdToFileChanges (LRU.reset (_revisionIdToFileChanges c)) c);;
    modify (λ c, set_fileContentsAtRevisionIds (LRU.reset (_fileContentsAtRevisionIds c)) c).

Definition _isPathRelevant (filePath : string) : bool :=
  projectDirectory_contains filePath || bool_decide (projectDirectory_getPath = filePath).

Definition getDirectoryStatus (c : Client) (directoryPath : option string) : StatusCodeNumberValue :=
  match truthy directoryPath with
  | None => StatusCodeNumber.CLEAN
  | Some directoryPath =>
      let directoryPathWithSeparator := normalizeDir directoryPath in
      if bool_decide (is_Some (_modifiedDirectoryCache c !! directoryPathWithSeparator))
      then StatusCodeNumber.MODIFIED
      else StatusCodeNumber.CLEAN
  end.

Definition getCachedPathStatus (c : Client) (filePath : option string) : StatusCodeNumberValue :=
  match truthy filePath with
  | None => StatusCodeNumber.CLEAN
  | Some filePath =>
      match _hgStatusCache c !! filePath with
      | Some cachedStatus => StatusCodeIdToNumber cachedStatus
      | None => StatusCodeNumber.CLEAN
      end
  end.

Definition getPathStatus (c : Client) (filePath : string) : StatusCodeNumberValue :=
  getCachedPathStatus c (Some filePath).

Definition getAllPathStatuses (c : Client) : gmap string StatusCodeNumberValue :=
  StatusCodeIdToNumber <$> _hgStatusCache c.

Definition _getStatusOption (options : option HgStatusCommandOptions) : option HgStatusOptionValue :=
  match options with
  | None => None
  | Some options => Some (hgStatusOption options)
  end.

Definition _getPredicateForRelevantStatuses
    (options : option HgStatusCommandOptions) : StatusCodeIdValue → bool :=
  match _getStatusOption options with
  | Some HgStatusOption.ONLY_IGNORED => filterForOnlyIgnored
  | Some HgStatusOption.ALL_STATUSES => filterForAllStatues
  | _ => filterForOnlyNotIgnored
  end.

Definition _addAllParentDirectoriesToCache (filePath : string) (c : Client) : Client :=
  set_modifiedDirectoryCache
    (addAllParentDirectoriesToCache (_modifiedDirectoryCache c) filePath
       projectDirectory_getParent_getPath) c.

Definition _removeAllParentDirectoriesFromCache (filePath : string) (c : Client) : Client :=
  set_modifiedDirectoryCache
    (removeAllParentDirectoriesFromCache (_modifiedDirectoryCache c) filePath
       projectDirectory_getParent_getPath) c.

(** The test of the first loop of [_updateStatuses]:
    [oldStatus && (oldStatus !== newStatusId) ||
     !oldStatus && (newStatusId !== StatusCodeId.CLEAN)]. *)
Definition statusChanged (oldStatus : option StatusCodeIdValue) (newStatusId : StatusCodeIdValue) : bool :=
  match oldStatus with
  | Some oldStatus => bool_decide (oldStatus ≠ newStatusId)
  | None => bool_decide (newStatusId ≠ StatusCodeId.CLEAN)
  end.

(** The cache update under that test. *)
Definition storeFetchedStatus (filePath : string) (newStatusId : StatusCodeIdValue) (c : Client) : Client :=
  if bool_decide (newStatusId = StatusCodeId.CLEAN) then
    _removeAllParentDirectoriesFromCache filePath
      (set_hgStatusCache (delete filePath (_hgStatusCache c)) c)
  else
    let c' := set_hgStatusCache (<[filePath := newStatusId]> (_hgStatusCache c)) c in
    if bool_decide (newStatusId = StatusCodeId.MODIFIED)
    then _addAllParentDirectoriesToCache filePath c'
    else c'.

(** One turn of [statusMapPathToStatusId.forEach]; the local variables
    [statusChangeEvents] and [queriedFiles] are carried along. *)
Definition onFetchedStatus
    (acc : Client * list Event * list string) (entry : string * StatusCodeIdValue)
    : Client * list Event * list string :=
  let '(c, statusChangeEvents, queriedFiles) := acc in
  let '(filePath, newStatusId) := entry in
  let oldStatus := _hgStatusCache c !! filePath in
  if statusChanged oldStatus newStatusId then
    (storeFetchedStatus filePath newStatusId c,
     statusChangeEvents ++ [DidChangeStatus filePath (StatusCodeIdToNumber newStatusId)],
     Set_delete queriedFiles filePath)
  else (c, statusChangeEvents, Set_delete queriedFiles filePath).

(** One turn of [queriedFiles.forEach], in the branch of the status option. *)
Definition evictQueriedFile
    (hgStatusOption : option HgStatusOptionValue) (c : Client) (filePath : string) : Client :=
  let cachedStatusId := _hgStatusCache c !! filePath in
  match hgStatusOption with
  | Some HgStatusOption.ONLY_IGNORED =>
      if bool_decide (cachedStatusId = Some StatusCodeId.IGNORED)
      then set_hgStatusCache (delete filePath (_hgStatusCache c)) c
      else c
  | Some HgStatusOption.ALL_STATUSES =>
      let c' := set_hgStatusCache (delete filePath (_hgStatusCache c)) c in
      if bool_decide (cachedStatusId = Some StatusCodeId.MODIFIED)
      then _removeAllParentDirectoriesFromCache filePath c'
      else c'
  | _ =>
      if bool_decide (cachedStatusId ≠ Some StatusCodeId.IGNORED) then
        let c' := set_hgStatusCache (delete filePath (_hgStatusCache c)) c in
        if bool_decide (cachedStatusId = Some StatusCodeId.MODIFIED)
        then _removeAllParentDirectoriesFromCache filePath c'
        else c'
      else c
  end.

(** The cache mutations of [_updateStatuses], from the backend's answer to the
    first [emit]; returns [statusChangeEvents]. *)
Definition updateStatusCaches
    (pathsInRepo : list string) (options : option HgStatusCommandOptions)
    (statusMapPathToStatusId : list (string * StatusCodeIdValue))
    (c : Client) : list Event * Client :=
  let queriedFiles := Set_new pathsInRepo in
  let '(c1, statusChangeEvents, queriedFiles) :=
    foldl onFetchedStatus (c, [], queriedFiles) statusMapPathToStatusId in
  let hgStatusOption := _getStatusOption options in
  (statusChangeEvents, foldl (evictQueriedFile hgStatusOption) c1 queriedFiles).

(** [_updateStatuses] from the answer of [fetchStatuses] on. *)
Definition _updateStatuses_resume
    (pathsInRepo : list string) (options : option HgStatusCommandOptions)
    (statusMapPathToStatusId : list (string * StatusCodeIdValue))
    : M (list (string * StatusCodeIdValue)) :=
  statusChangeEvents ← state (updateStatusCaches pathsInRepo options statusMapPathToStatusId);
  forEach emit statusChangeEvents;;
  emit DidChangeStatuses;;
  mret statusMapPathToStatusId.

Definition _updateStatuses
    (filePaths : list string) (options : option HgStatusCommandOptions)
    : M (list (string * StatusCodeIdValue)) :=
  let pathsInRepo := filter (λ filePath, _isPathRelevant filePath = true) filePaths in
  if bool_decide (length pathsInRepo = 0) then mret []
  else
    statusMapPathToStatusId ←
      request (FetchStatuses pathsInRepo options)
              (λ service, HgService.fetchStatuses service pathsInRepo options);
    _updateStatuses_resume pathsInRepo options statusMapPathToStatusId.

(** The first loop of [getStatuses]: the cached statuses that pass the filter,
    and the paths with a cache miss. *)
Definition checkTheCache
    (c : Client) (isRelavantStatus : StatusCodeIdValue → bool)
    (acc : gmap string StatusCodeNumberValue * list string) (filePath : string)
    : gmap string StatusCodeNumberValue * list string :=
  let '(statusMap, pathsWithCacheMiss) := acc in
  match _hgStatusCache c !! filePath with
  | Some statusId =>
      if isRelavantStatus statusId
      then (<[filePath := StatusCodeIdToNumber statusId]> statusMap, pathsWithCacheMiss)
      else (statusMap, pathsWithCacheMiss)
  | None => (statusMap, pathsWithCacheMiss ++ [filePath])
  end.

Definition getStatuses
    (paths : list string) (options : option HgStatusCommandOptions)
    : M (gmap string StatusCodeNumberValue) :=
  c ← gets id;
  let isRelavantStatus := _getPredicateForRelevantStatuses options in
  let '(statusMap, pathsWithCacheMiss) :=
    foldl (checkTheCache c isRelavantStatus) (∅, []) paths in
  if bool_decide (length pathsWithCacheMiss = 0) then mret statusMap
  else
    newStatusInfo ← _updateStatuses pathsWithCacheMiss options;
    mret (foldl (λ statusMap entry, <[entry.1 := StatusCodeIdToNumber entry.2]> statusMap)
            statusMap newStatusInfo).

Definition getDiffStats (c : Client) (filePath : option string) : DiffStats :=
  let cleanStats := {| stats_added := 0; stats_deleted := 0 |} in
  match truthy filePath with
  | None => cleanStats
  | Some filePath =>
      match _hgDiffCache c !! filePath with
      | Some cachedData =>
          {| stats_added := added cachedData; stats_deleted := deleted cachedData |}
      | None => cleanStats
      end
  end.

Definition getLineDiffs (c : Client) (filePath : option string) (text : option string) : list LineDiff :=
  match truthy filePath with
  | None => []
  | Some filePath =>
      match _hgDiffCache c !! filePath with
      | Some diffInfo => lineDiffs diffInfo
      | None => []
      end
  end.

(** The filter at the head of [_updateDiffInfo]: it keeps the relevant paths
    that are not being fetched and marks each one it keeps. *)
Fixpoint markPathsToFetch (filePaths : list string) (c : Client) : list string * Client :=
  match filePaths with
  | [] => ([], c)
  | aPath :: rest =>
      if negb (_isPathRelevant aPath) then markPathsToFetch rest c
      else if bool_decide (aPath ∈ _hgDiffCacheFilesUpdating c) then markPathsToFetch rest c
      else
        let '(pathsToFetch, c') :=
          markPathsToFetch rest
            (set_hgDiffCacheFilesUpdating ({[aPath]} ∪ _hgDiffCacheFilesUpdating c) c) in
        (aPath :: pathsToFetch, c')
  end.

(** [for (const [filePath, diffInfo] of pathsToDiffInfo)] *)
Definition mergeDiffInfo
    (pathsToDiffInfo : option (list (string * DiffInfo))) (c : Client) : Client :=
  match pathsToDiffInfo with
  | Some fetched =>
      set_hgDiffCache (foldl (λ cache entry, <[entry.1 := entry.2]> cache) (_hgDiffCache c) fetched) c
  | None => c
  end.

(** [this._hgDiffCacheFilesToClear.forEach] and [clear]. *)
Definition removeFilesMarkedForDeletion (c : Client) : Client :=
  set_hgDiffCacheFilesToClear ∅
    (set_hgDiffCache
       (foldl (λ cache fileToClear, delete fileToClear cache) (_hgDiffCache c)
          (elements (_hgDiffCacheFilesToClear c))) c).

(** [for (const pathToFetch of pathsToFetch)] *)
Definition allowUpdatingAgain (pathsToFetch : list string) (c : Client) : Client :=
  set_hgDiffCacheFilesUpdating
    (foldl (λ updating pathToFetch, updating ∖ {[pathToFetch]})
       (_hgDiffCacheFilesUpdating c) pathsToFetch) c.

(** [_updateDiffInfo] from the answer of [fetchDiffInfo] on. *)
Definition _updateDiffInfo_resume
    (pathsToFetch : list string) (pathsToDiffInfo : option (list (string * DiffInfo)))
    : M (option (list (string * DiffInfo))) :=
  modify (mergeDiffInfo pathsToDiffInfo);;
  modify removeFilesMarkedForDeletion;;
  modify (allowUpdatingAgain pathsToFetch);;
  emit DidChangeStatuses;;
  mret pathsToDiffInfo.

Definition _updateDiffInfo (filePaths : list string) : M (option (list (string * DiffInfo))) :=
  pathsToFetch ← state (markPathsToFetch filePaths);
  if bool_decide (length pathsToFetch = 0) then mret (Some [])
  else
    pathsToDiffInfo ←
      request (FetchDiffInfo pathsToFetch) (λ service, HgService.fetchDiffInfo service pathsToFetch);
    _updateDiffInfo_resume pathsToFetch pathsToDiffInfo.

(** [_updateDiffInfo] over a backend whose call may reject: [rejects] tells
    for which batches the promise of [fetchDiffInfo] rejects.  The rejection
    is thrown by the [await]; no [try] surrounds it, so the rest of the body
    does not run and the promise of [_updateDiffInfo] rejects in turn. *)
Definition _updateDiffInfo_await (rejects : list string → bool) (filePaths : list string)
    : M (Settled (option (list (string * DiffInfo)))) :=
  pathsToFetch ← state (markPathsToFetch filePaths);
  if bool_decide (length pathsToFetch = 0) then mret (Fulfilled (Some []))
  else if rejects pathsToFetch then
    perform (Backend (FetchDiffInfo pathsToFetch));;
    mret Rejected
  else
    pathsToDiffInfo ←
      request (FetchDiffInfo pathsToFetch) (λ service, HgService.fetchDiffInfo service pathsToFetch);
    returned ← _updateDiffInfo_resume pathsToFetch pathsToDiffInfo;
    mret (Fulfilled returned).

(** Calls of [_updateDiffInfo] one after the other, each awaited by a caller
    that goes on whether it is fulfilled or rejected. *)
Definition diffFetches (rejects : list string → bool) (batches : list (list string)) : M unit :=
  forEach (λ filePaths, _updateDiffInfo_await rejects filePaths;; mret tt) batches.

Definition _refreshStatusesOfAllFilesInCache : M unit :=
  modify (set_hgStatusCache ∅);;
  modify (set_modifiedDirectoryCache ∅);;
  pathsInDiffCache ← gets (λ c, (map_to_list (_hgDiffCache c)).*1);
  modify (set_hgDiffCache ∅);;
  _updateStatuses [getProjectDirectory]
    (Some {| hgStatusOption := HgStatusOption.ONLY_NON_IGNORED |});;
  if bool_decide (0 < length pathsInDiffCache)
  then _updateDiffInfo pathsInDiffCache;; mret tt
  else mret tt.



(** The observable returned on a miss is subscribed to at once: the fetch and
    the [do] callback that stores its value run within the call. *)
Definition fetchFileContentAtRevision (filePath revision : string) : M string :=
  cached ← state (λ c,
    let '(found, lru) := LRU.get revision (_fileContentsAtRevisionIds c) in
    (found, set_fileContentsAtRevisionIds lru c));
  fileContentsAtRevision ←
    match cached with
    | Some fileContentsAtRevision => mret fileContentsAtRevision
    | None =>
        modify (λ c, set_fileContentsAtRevisionIds
                       (LRU.set revision ∅ (_fileContentsAtRevisionIds c)) c);;
        mret (∅ : gmap string string)
    end;
  match fileContentsAtRevision !! filePath with
  | Some committedContents => mret committedContents
  | None =>
      contents ←
        request (FetchFileContentAtRevision filePath revision)
                (λ service, HgService.fetchFileContentAtRevision service filePath revision);
      modify (λ c, set_fileContentsAtRevisionIds
                     (LRU.mutate revision (λ contentsOfRevision, <[filePath := contents]> contentsOfRevision)
                        (_fileContentsAtRevisionIds c)) c);;
      mret contents
  end.

Definition fetchFilesChangedAtRevision (revision : string) : M RevisionFileChanges :=
  changes ← state (λ c,
    let '(found, lru) := LRU.get revision (_revisionIdToFileChanges c) in
    (found, set_revisionIdToFileChanges lru c));
  match changes with
  | Some changes => mret changes
  | None =>
      fetchedChanges ←
        request (FetchFilesChangedAtRevision revision)
                (λ service, HgService.fetchFilesChangedAtRevision service revision);
      modify (λ c, set_revisionIdToFileChanges
                     (LRU.set revision fetchedChanges (_revisionIdToFileChanges c)) c);;
      mret fetchedChanges
  end.

Definition _clearClientCache : M unit :=
  modify (set_hgDiffCache ∅);;
  modify (set_hgStatusCache ∅);;
  emit DidChangeStatuses.

(** [commit] and [amend]: the backend operation, then ([finally])
    [_clearClientCache]. *)
Definition commit (message : string) : M (list string) :=
  processMessages ← request (Commit message) (λ service, HgService.commit service message);
  _clearClientCache;;
  mret processMessages.

Definition amend (message : option string) (amendMode : string) : M (list string) :=
  processMessages ←
    request (Amend message amendMode) (λ service, HgService.amend service message amendMode);
  _clearClientCache;;
  mret processMessages.

End HgRepositoryClient.

(** ** Observations on a run *)

(** The requests sent to the backend, in order. *)
Definition requests (log : list Effect) : list BackendCall :=
  omap (λ e, match e with Backend call => Some call | _ => None end) log.

(** The events given to the emitter, in order. *)
Definition emitted (log : list Effect) : list Event :=
  omap (λ e, match e with Emit event _ => Some event | _ => None end) log.

(** The disposals, in order. *)
Definition disposed (log : list Effect) : list Disposable :=
  omap (λ e, match e with Dispose d => Some d | _ => None end) log.

(** What [_updateStatuses] leaves alone: every field of the client but the
    status cache and the modified-directory index. *)
Definition outsideStatus (c : Client) :=
  (_service c, _editorSubscriptions c, _subscriptions_disposed c, _hgDiffCache c,
   _hgDiffCacheFilesUpdating c, _hgDiffCacheFilesToClear c,
   _revisionIdToFileChanges c, _fileContentsAtRevisionIds c, _isDestroyed c).

(** The status a path is cached with after the first loop of
    [_updateStatuses] has met its fetched status once. *)
Definition statusAfter (oldStatus : option StatusCodeIdValue) (newStatusId : StatusCodeIdValue)
    : option StatusCodeIdValue :=
  match oldStatus with
  | Some oldStatus =>
      if bool_decide (oldStatus ≠ newStatusId)
      then (if bool_decide (newStatusId = StatusCodeId.CLEAN) then None else Some newStatusId)
      else Some oldStatus
  | None =>
      if bool_decide (newStatusId ≠ StatusCodeId.CLEAN) then Some newStatusId else None
  end.

(** The event a fetched entry gives rise to, from the cache before the loop. *)
Definition changeEventOf (cache : gmap string StatusCodeIdValue)
    (entry : string * StatusCodeIdValue) : option Event :=
  if statusChanged (cache !! entry.1) entry.2
  then Some (DidChangeStatus entry.1 (StatusCodeIdToNumber entry.2))
  else None.

(** The clients that sequences of [_updateStatuses] runs lead to from the
    constructor, the backend answering each run as it then would. *)
Inductive afterStatusUpdates `{PathLib} : Client → Prop :=
| afterConstructor (hgService : HgService.t) :
    afterStatusUpdates (constructor hgService)
| afterBackendChange (c : Client) (hgService : HgService.t) :
    afterStatusUpdates c → afterStatusUpdates (set_service hgService c)
| afterUpdateStatuses (c : Client) (filePaths : list string)
    (options : option HgStatusCommandOptions) :
    afterStatusUpdates c →
    afterStatusUpdates (after (_updateStatuses filePaths options c)).


(** The content cached for a path at a revision, read without touching the
    recency order. *)
Definition cachedContents (c : Client) (filePath revision : string) : option string :=
  LRU.peek revision (_fileContentsAtRevisionIds c) ≫= λ contentsOfRevision,
  contentsOfRevision !! filePath.

(** The clients that sequences of revision lookups (and teardowns) lead to
    from the constructor. *)
Inductive afterRevisionFetches : Client → Prop :=
| revisionsAfterConstructor (hgService : HgService.t) :
    afterRevisionFetches (constructor hgService)
| revisionsAfterBackendChange (c : Client) (hgService : HgService.t) :
    afterRevisionFetches c → afterRevisionFetches (set_service hgService c)
| revisionsAfterContent (c : Client) (filePath revision : string) :
    afterRevisionFetches c →
    afterRevisionFetches (after (fetchFileContentAtRevision filePath revision c))
| revisionsAfterChanges (c : Client) (revision : string) :
    afterRevisionFetches c →
    afterRevisionFetches (after (fetchFilesChangedAtRevision revision c))
| revisionsAfterDestroy (c : Client) :
    afterRevisionFetches c → afterRevisionFetches (after (destroy c)).

(** The revision caches keep their capacities and never exceed them. *)
Definition revisionCachesBounded (c : Client) : Prop :=
  LRU.max (_revisionIdToFileChanges c) = 100
  ∧ LRU.length (_revisionIdToFileChanges c) ≤ 100
  ∧ LRU.max (_fileContentsAtRevisionIds c) = 20
  ∧ LRU.length (_fileContentsAtRevisionIds c) ≤ 20.

(** ** HgRepositoryClient, continued: the status predicates and the editors *)

Section StatusPredicates.
Context `{PathLib}.

Definition isStatusModified (status : option StatusCodeNumberValue) : bool :=
  bool_decide (status = Some StatusCodeNumber.MODIFIED).

Definition isStatusDeleted (status : option StatusCodeNumberValue) : bool :=
  bool_decide (status = Some StatusCodeNumber.MISSING)
  || bool_decide (status = Some StatusCodeNumber.REMOVED).

Definition isStatusNew (status : option StatusCodeNumberValue) : bool :=
  bool_decide (status = Some StatusCodeNumber.ADDED)
  || bool_decide (status = Some StatusCodeNumber.UNTRACKED).

Definition isStatusAdded (status : option StatusCodeNumberValue) : bool :=
  bool_decide (status = Some StatusCodeNumber.ADDED).

Definition isStatusUntracked (status : option StatusCodeNumberValue) : bool :=
  bool_decide (status = Some StatusCodeNumber.UNTRACKED).

Definition isStatusIgnored (status : option StatusCodeNumberValue) : bool :=
  bool_decide (status = Some StatusCodeNumber.IGNORED).

Definition isPathModified (c : Client) (filePath : option string) : bool :=
  match truthy filePath with
  | None => false
  | Some filePath =>
      match _hgStatusCache c !! filePath with
      | None => false
      | Some cachedPathStatus =>
          isStatusModified (Some (StatusCodeIdToNumber cachedPathStatus))
      end
  end.

Definition isPathNew (c : Client) (filePath : option string) : bool :=
  match truthy filePath with
  | None => false
  | Some filePath =>
      match _hgStatusCache c !! filePath with
      | None => false
      | Some cachedPathStatus => isStatusNew (Some (StatusCodeIdToNumber cachedPathStatus))
      end
  end.

Definition isPathAdded (c : Client) (filePath : option string) : bool :=
  match truthy filePath with
  | None => false
  | Some filePath =>
      match _hgStatusCache c !! filePath with
      | None => false
      | Some cachedPathStatus => isStatusAdded (Some (StatusCodeIdToNumber cachedPathStatus))
      end
  end.

Definition isPathUntracked (c : Client) (filePath : option string) : bool :=
  match truthy filePath with
  | None => false
  | Some filePath =>
      match _hgStatusCache c !! filePath with
      | None => false
      | Some cachedPathStatus =>
          isStatusUntracked (Some (StatusCodeIdToNumber cachedPathStatus))
      end
  end.

(** [this.getPath()] is the field [_path], the path of the [.hg] directory
    given to the constructor and never assigned again: it is passed along. *)
Definition _isPathWithinHgRepo (getPath : string) (filePath : string) : bool :=
  bool_decide (filePath = getPath) || String.prefix (String.append getPath "/") filePath.

Definition isPathIgnored (getPath : string) (c : Client) (filePath : option string) : bool :=
  match truthy filePath with
  | None => false
  | Some filePath =>
      match _hgStatusCache c !! filePath with
      | None => _isPathWithinHgRepo getPath filePath
      | Some cachedPathStatus =>
          isStatusIgnored (Some (StatusCodeIdToNumber cachedPathStatus))
      end
  end.

(** The callback given to [atom.workspace.observeTextEditors], for an editor
    whose [getPath()] is [filePath]: the editor is subscribed to, once per
    path, when its path is relevant. *)
Definition observeTextEditor (filePath : option string) : M unit :=
  match truthy filePath with
  | None => mret tt
  | Some filePath =>
      if negb (_isPathRelevant filePath) then mret tt
      else
        editorSubscriptions ← gets _editorSubscriptions;
        if bool_decide (filePath ∈ editorSubscriptions) then mret tt
        else modify (set_editorSubscriptions (editorSubscriptions ++ [filePath]))
  end.

(** The [onDidSave] callback of a subscribed editor. *)
Definition editorDidSave (path : string) : M (option (list (string * DiffInfo))) :=
  _updateDiffInfo [path].

(** The [onDidDestroy] callback of the editor subscribed for [filePath]. *)
Definition editorDidDestroy (filePath : string) : M unit :=
  modify (λ c, set_hgDiffCacheFilesToClear ({[filePath]} ∪ _hgDiffCacheFilesToClear c) c);;
  editorSubscriptions ← gets _editorSubscriptions;
  if bool_decide (filePath ∈ editorSubscriptions) then
    perform (Dispose (EditorSubscription filePath));;
    modify (set_editorSubscriptions (filter (λ other, other ≠ filePath) editorSubscriptions))
  else mret tt.

End StatusPredicates.

(** What the eviction of a queried path that the answer does not list leaves
    of its cached status, by status option. *)
Definition statusAfterEviction
    (hgStatusOption : option HgStatusOptionValue) (cachedStatusId : option StatusCodeIdValue)
    : option StatusCodeIdValue :=
  match hgStatusOption with
  | Some HgStatusOption.ONLY_IGNORED =>
      if bool_decide (cachedStatusId = Some StatusCodeId.IGNORED) then None else cachedStatusId
  | Some HgStatusOption.ALL_STATUSES => None
  | _ =>
      if bool_decide (cachedStatusId = Some StatusCodeId.IGNORED) then cachedStatusId else None
  end.

(** The revisions that a sequence of change-list lookups touches. *)
Definition lookupsOfChanges (revisions : list string) : M unit :=
  forEach (λ revision, fetchFilesChangedAtRevision revision;; mret tt) revisions.

(** A sequence of content lookups, each of a file path at a revision. *)
Definition lookupsOfContents (lookups : list (string * string)) : M unit :=
  forEach (λ lookup, fetchFileContentAtRevision lookup.1 lookup.2;; mret tt) lookups.

(** ** Recency in the revision caches

    Two predicates on the entries of an LRU cache, most recently used first. *)

(** [key] is cached with [v], behind entries whose keys are all in [T]. *)
Definition heldBehind {V : Type} (key : string) (v : V) (T : gset string)
    (l : list (string * V)) : Prop :=
  ∃ front back,
    l = front ++ (key, v) :: back
    ∧ (key ∉ front.*1) ∧ NoDup front.*1 ∧ list_to_set front.*1 ⊆ T.

(** [key] is not cached, or is cached behind entries whose keys are exactly
    those of [T]. *)
Definition goneOrBehind {V : Type} (key : string) (T : gset string)
    (l : list (string * V)) : Prop :=
  key ∉ l.*1
  ∨ ∃ front back (v : V),
      l = front ++ (key, v) :: back
      ∧ (key ∉ front.*1) ∧ NoDup front.*1 ∧ list_to_set front.*1 = T.

(** ** The active bookmark *)

(** [_getShortHeadAsync], from the answer of [fetchActiveBookmark] on ([None]
    when the fetch fails): the value returned, the field [_activeBookmark]
    after the call and the names of the events emitted. *)
Definition _getShortHeadAsync (answer : option string) (_activeBookmark : option string)
    : string * option string * list string :=
  let newlyFetchedBookmark := default "" answer in
  if bool_decide (Some newlyFetchedBookmark ≠ _activeBookmark) then
    (default "" (truthy (Some newlyFetchedBookmark)), Some newlyFetchedBookmark,
     ["did-change-statuses"; "did-change-short-head"])
  else (default "" (truthy _activeBookmark), _activeBookmark, []).

(** [getShortHead]: the value returned, and whether a fetch is kicked off. *)
Definition getShortHead (_activeBookmark : option string) : string * bool :=
  match truthy _activeBookmark with
  | None => ("", true)
  | Some activeBookmark => (activeBookmark, false)
  end.

(** ** A concrete project

    The project directory [/p] below the root [/], with paths as
    slash-separated strings, and a backend that answers like [hg status] and
    [hg diff] over a fixed working copy.  The examples are evaluated here. *)
Module Fixture.

Definition endsWithSeparator (path : string) : bool :=
  match String.get (String.length path - 1) path with
  | Some c => Ascii.eqb c "/"%char
  | None => false
  end.

Definition ensureTrailingSeparator (path : string) : string :=
  if endsWithSeparator path then path else String.append path "/".

(** The proper prefixes of [rest] that end with a separator, each behind
    [seen], shortest first. *)
Fixpoint directoryPrefixes (seen rest : string) : list string :=
  match rest with
  | EmptyString => []
  | String c rest' =>
      let seen' := String.append seen (String c EmptyString) in
      if Ascii.eqb c "/"%char && negb (bool_decide (rest' = EmptyString))
      then seen' :: directoryPrefixes seen' rest'
      else directoryPrefixes seen' rest'
  end.

Definition parentDirectories (filePath baseDirectory : string) : list string :=
  let base := ensureTrailingSeparator baseDirectory in
  filter (λ d, String.prefix base d = true ∧ d ≠ base)
    (reverse (directoryPrefixes EmptyString filePath)).

#[export] Instance paths : PathLib := {|
  projectDirectory_getPath := "/p";
  projectDirectory_contains := λ filePath, String.prefix "/p/" filePath;
  projectDirectory_getParent_getPath := "/";
  normalizeDir := ensureTrailingSeparator;
  getAllParentDirectories := parentDirectories
|}.

(** [hg status] on a working copy: the files at or below a queried path whose
    status the option selects; without [--all], clean files are not listed. *)
Definition selects (options : option HgStatusCommandOptions) (code : StatusCodeIdValue) : bool :=
  match options with
  | Some {| hgStatusOption := HgStatusOption.ALL_STATUSES |} => true
  | Some {| hgStatusOption := HgStatusOption.ONLY_IGNORED |} =>
      bool_decide (code = StatusCodeId.IGNORED)
  | _ => negb (bool_decide (code = StatusCodeId.IGNORED))
         && negb (bool_decide (code = StatusCodeId.CLEAN))
  end.

Definition below (queried filePath : string) : bool :=
  bool_decide (queried = filePath) || String.prefix (ensureTrailingSeparator queried) filePath.

Definition hgStatus
    (workingCopy : list (string * StatusCodeIdValue))
    (paths : list string) (options : option HgStatusCommandOptions)
    : list (string * StatusCodeIdValue) :=
  filter (λ entry, selects options entry.2 = true
                   ∧ existsb (λ queried, below queried entry.1) paths = true) workingCopy.

Definition service
    (workingCopy : list (string * StatusCodeIdValue))
    (diff : list string → option (list (string * DiffInfo))) : HgService.t :=
  {| HgService.fetchStatuses := hgStatus workingCopy;
     HgService.fetchDiffInfo := diff;
     HgService.fetchFileContentAtRevision := λ filePath revision,
       String.append (String.append filePath "@") revision;
     HgService.fetchFilesChangedAtRevision := λ revision,
       {| changedFiles := [String.append "/p/changed-in-" revision] |};
     HgService.commit := λ message, [];
     HgService.amend := λ message amendMode, [] |}.

Definition hgDiffFails : list string → option (list (string * DiffInfo)) := λ _, None.

Definition oneLineAdded : DiffInfo :=
  {| added := 1; deleted := 0;
     lineDiffs := [ {| oldStart := 1; oldLines := 0; newStart := 1; newLines := 1 |} ] |}.

Definition hgDiff : list string → option (list (string * DiffInfo)) :=
  λ paths, Some (List.map (λ filePath, (filePath, oneLineAdded)) paths).

Definition ALL_STATUSES : option HgStatusCommandOptions :=
  Some {| hgStatusOption := HgStatusOption.ALL_STATUSES |}.

Definition ONLY_NON_IGNORED : option HgStatusCommandOptions :=
  Some {| hgStatusOption := HgStatusOption.ONLY_NON_IGNORED |}.

(** A fresh client over a working copy. *)
Definition client (workingCopy : list (string * StatusCodeIdValue)) : Client :=
  constructor (service workingCopy hgDiff).

(** A client that has fetched the status of [paths] in a working copy. *)
Definition clientAfter
    (workingCopy : list (string * StatusCodeIdValue)) (paths : list string) : Client :=
  after (_updateStatuses paths ALL_STATUSES (client workingCopy)).

(** The working copy changes under the client. *)
Definition workingCopyBecomes
    (workingCopy : list (string * StatusCodeIdValue)) (c : Client) : Client :=
  set_service (service workingCopy hgDiff) c.

(** [/p/b] is cached as modified; then [/p/b] is reverted and [/p/a] modified. *)
Definition staleClient : Client :=
  workingCopyBecomes [("/p/a", StatusCodeId.MODIFIED)]
    (clientAfter [("/p/b", StatusCodeId.MODIFIED)] ["/p/b"]).

(** [/p/a] is cached as modified; then the file disappears from the working
    copy. *)
Definition vanishedFile : Client :=
  workingCopyBecomes [] (clientAfter [("/p/a", StatusCodeId.MODIFIED)] ["/p/a"]).

(** [/p/d/a] is cached as added and [/p/d/b] as modified; then [/p/d/a]
    becomes clean. *)
Definition addedBecomesClean : Client :=
  workingCopyBecomes [("/p/d/a", StatusCodeId.CLEAN); ("/p/d/b", StatusCodeId.MODIFIED)]
    (clientAfter [("/p/d/a", StatusCodeId.ADDED); ("/p/d/b", StatusCodeId.MODIFIED)]
       ["/p/d/a"; "/p/d/b"]).

(** [/p/d/b] is cached as modified; then it is removed ([hg rm]). *)
Definition modifiedBecomesRemoved : Client :=
  workingCopyBecomes [("/p/d/b", StatusCodeId.REMOVED)]
    (clientAfter [("/p/d/b", StatusCodeId.MODIFIED)] ["/p/d/b"]).

(** [/p/d/b] is cached as modified. *)
Definition modifiedInDirectory : Client :=
  clientAfter [("/p/d/b", StatusCodeId.MODIFIED)] ["/p/d/b"].

(** Revision identifiers [r0], [r1], ... *)
Fixpoint revisions (n : nat) : list string :=
  match n with
  | 0 => []
  | S n => revisions n ++ [String.append "r" (pretty n)]
  end.

End Fixture.

(** * Properties *)

(** ** Running the monad *)

Lemma run_bind {A B} (m : M A) (f : A → M B) (c : Client) :
  (m ≫= f) c =
  (result (f (result (m c)) (after (m c))),
   after (f (result (m c)) (after (m c))),
   effects (m c) ++ effects (f (result (m c)) (after (m c)))).
Proof.
  unfold mbind, M_bind, result, after, effects.
  destruct (m c) as [[a c1] l1]; simpl.
  by destruct (f a c1) as [[b c2] l2].
Qed.

Lemma result_run {A} (a : A) (c : Client) (l : list Effect) : result (a, c, l) = a.
Proof. done. Qed.

Lemma after_run {A} (a : A) (c : Client) (l : list Effect) : after (a, c, l) = c.
Proof. done. Qed.

Lemma effects_run {A} (a : A) (c : Client) (l : list Effect) : effects (a, c, l) = l.
Proof. done. Qed.

Lemma run_ret {A} (a : A) (c : Client) : (mret a : M A) c = (a, c, []).
Proof. done. Qed.

Lemma run_gets {A} (f : Client → A) (c : Client) : gets f c = (f c, c, []).
Proof. done. Qed.

Lemma run_modify (f : Client → Client) (c : Client) : modify f c = (tt, f c, []).
Proof. done. Qed.

Lemma run_perform (e : Effect) (c : Client) : perform e c = (tt, c, [e]).
Proof. done. Qed.

Lemma run_emit (e : Event) (c : Client) : emit e c = (tt, c, [Emit e (caches c)]).
Proof. done. Qed.

Lemma run_request {A} (call : BackendCall) (answer : HgService.t → A) (c : Client) :
  request call answer c = (answer (_service c), c, [Backend call]).
Proof. done. Qed.

Lemma run_state {A} (f : Client → A * Client) (c : Client) :
  state f c = ((f c).1, (f c).2, []).
Proof. unfold state. by destruct (f c). Qed.

Lemma run_forEach_perform (f : string → Effect) (l : list string) (c : Client) :
  forEach (λ x, perform (f x)) l c = (tt, c, f <$> l).
Proof.
  induction l as [|x l IH] in c |- *; [done|].
  cbn [forEach]. rewrite run_bind, IH. done.
Qed.

Lemma run_forEach_emit (events : list Event) (c : Client) :
  forEach emit events c = (tt, c, (λ e, Emit e (caches c)) <$> events).
Proof.
  induction events as [|e events IH] in c |- *; [done|].
  cbn [forEach]. rewrite run_bind, IH. done.
Qed.

Create Rewrite HintDb run.
#[global] Hint Rewrite @run_bind @result_run @after_run @effects_run @run_ret @run_gets
  @run_modify @run_perform @run_emit @run_request @run_state
  run_forEach_perform run_forEach_emit app_nil_r : run.

Lemma emitted_app (l1 l2 : list Effect) : emitted (l1 ++ l2) = emitted l1 ++ emitted l2.
Proof. apply omap_app. Qed.

Lemma requests_app (l1 l2 : list Effect) : requests (l1 ++ l2) = requests l1 ++ requests l2.
Proof. apply omap_app. Qed.

Lemma emitted_emits (events : list Event) (seen : Caches) :
  emitted ((λ e, Emit e seen) <$> events) = events.
Proof. induction events as [|e events IH]; [done|]. simpl. f_equal. exact IH. Qed.

Lemma requests_emits (events : list Event) (seen : Caches) :
  requests ((λ e, Emit e seen) <$> events) = [].
Proof. induction events as [|e events IH]; [done|]. simpl. exact IH. Qed.

(** ** Teardown *)

Section Teardown.
Context `{PathLib}.

(** [destroy], run. *)
Lemma run_destroy (c : Client) :
  destroy c =
  if _isDestroyed c then (tt, c, [])
  else
    let torn :=
      set_fileContentsAtRevisionIds (LRU.reset (_fileContentsAtRevisionIds c))
        (set_revisionIdToFileChanges (LRU.reset (_revisionIdToFileChanges c))
           (set_subscriptions_disposed true
              (set_editorSubscriptions [] (set_isDestroyed true c)))) in
    (tt, torn,
     ((λ filePath, Dispose (EditorSubscription filePath)) <$> _editorSubscriptions c)
     ++ [Emit DidDestroy (caches c); Dispose Subscriptions]).
Proof.
  unfold destroy.
  rewrite run_bind, run_gets, result_run, after_run, effects_run.
  destruct (_isDestroyed c); [done|].
  unfold mbind, M_bind. cbn [modify gets].
  rewrite run_forEach_perform. cbn. reflexivity.
Qed.

Lemma destroy_once (c : Client) : isDestroyed (after (destroy c)) = true.
Proof. rewrite run_destroy. by destruct (_isDestroyed c) eqn:E. Qed.

Lemma destroy_again (c : Client) : isDestroyed c = true → destroy c = (tt, c, []).
Proof. unfold isDestroyed. intros E. by rewrite run_destroy, E. Qed.

(** C8. [destroy] is idempotent: once a first call has run, [isDestroyed] is
    true, a further call changes nothing and has no effect (no event, no
    disposal), and so does any number of further calls. *)
Theorem destroy_idempotent (c : Client) (n : nat) :
  let c1 := after (destroy c) in
  isDestroyed c1 = true
  ∧ destroy c1 = (tt, c1, [])
  ∧ Nat.iter n (λ s, after (destroy s)) c1 = c1
  ∧ isDestroyed (Nat.iter n (λ s, after (destroy s)) c1) = true.
Proof.
  intros c1.
  assert (Hd : isDestroyed c1 = true) by apply destroy_once.
  assert (Hit : Nat.iter n (λ s, after (destroy s)) c1 = c1).
  { induction n as [|n IH]; [done|]. simpl. rewrite IH. by rewrite destroy_again. }
  split_and!; [done| by apply destroy_again | done | by rewrite Hit].
Qed.

End Teardown.

(** ** The synchronous getters *)

Section Getters.
Context `{PathLib}.

(** C10. For a null or undefined path every synchronous cache-only getter
    returns its zero value: [getCachedPathStatus] and [getDirectoryStatus]
    return CLEAN, [getDiffStats] returns no added and no deleted line, and
    [getLineDiffs] returns the empty array.  The getters are functions of the
    client that return no client: they mutate nothing. *)
Theorem getters_of_no_path (c : Client) (text : option string) :
  getCachedPathStatus c None = StatusCodeNumber.CLEAN
  ∧ getDirectoryStatus c None = StatusCodeNumber.CLEAN
  ∧ getDiffStats c None = {| stats_added := 0; stats_deleted := 0 |}
  ∧ getLineDiffs c None text = [].
Proof. by split_and!. Qed.

End Getters.

(** ** The diff cache *)

Section DiffCache.
Context `{PathLib}.

Lemma set_hgDiffCacheFilesUpdating_same (c : Client) :
  set_hgDiffCacheFilesUpdating (_hgDiffCacheFilesUpdating c) c = c.
Proof. by destruct c. Qed.

(** The filter only marks: the client changes in [_hgDiffCacheFilesUpdating]
    alone, which gains exactly the paths kept. *)
Lemma markPathsToFetch_client (filePaths : list string) (c : Client) :
  (markPathsToFetch filePaths c).2 =
  set_hgDiffCacheFilesUpdating
    (list_to_set (markPathsToFetch filePaths c).1 ∪ _hgDiffCacheFilesUpdating c) c.
Proof.
  induction filePaths as [|aPath rest IH] in c |- *; simpl.
  - rewrite (left_id_L ∅ (∪)). by rewrite set_hgDiffCacheFilesUpdating_same.
  - destruct (_isPathRelevant aPath); simpl; [|apply IH].
    case_bool_decide as Hin; [apply IH|].
    destruct (markPathsToFetch rest _) as [pathsToFetch c'] eqn:E.
    specialize (IH (set_hgDiffCacheFilesUpdating ({[aPath]} ∪ _hgDiffCacheFilesUpdating c) c)).
    rewrite E in IH. simpl in *. rewrite IH.
    unfold set_hgDiffCacheFilesUpdating; simpl. f_equal. set_solver.
Qed.

(** A path that is kept was not being fetched. *)
Lemma markPathsToFetch_fresh (filePaths : list string) (c : Client) (p : string) :
  p ∈ (markPathsToFetch filePaths c).1 → p ∉ _hgDiffCacheFilesUpdating c.
Proof.
  induction filePaths as [|aPath rest IH] in c |- *; simpl; [by intros ?%elem_of_nil|].
  destruct (_isPathRelevant aPath); simpl; [|apply IH].
  case_bool_decide as Hin; [apply IH|].
  destruct (markPathsToFetch rest _) as [pathsToFetch c'] eqn:E.
  specialize (IH (set_hgDiffCacheFilesUpdating ({[aPath]} ∪ _hgDiffCacheFilesUpdating c) c)).
  rewrite E in IH. simpl in *.
  intros [->|Hp]%elem_of_cons; [done|]. apply IH in Hp. set_solver.
Qed.

(** The paths kept depend on the client through its in-flight set only. *)
Lemma markPathsToFetch_paths (filePaths : list string) (c1 c2 : Client) :
  _hgDiffCacheFilesUpdating c1 = _hgDiffCacheFilesUpdating c2 →
  (markPathsToFetch filePaths c1).1 = (markPathsToFetch filePaths c2).1.
Proof.
  induction filePaths as [|aPath rest IH] in c1, c2 |- *; simpl; [done|].
  intros E. destruct (_isPathRelevant aPath); simpl; [|by apply IH].
  rewrite E. case_bool_decide as Hin; [by apply IH|].
  specialize (IH (set_hgDiffCacheFilesUpdating ({[aPath]} ∪ _hgDiffCacheFilesUpdating c2) c1)
                 (set_hgDiffCacheFilesUpdating ({[aPath]} ∪ _hgDiffCacheFilesUpdating c2) c2)
                 eq_refl).
  destruct (markPathsToFetch rest _) as [l1 c1'].
  destruct (markPathsToFetch rest _) as [l2 c2'].
  simpl in *. by rewrite IH.
Qed.

Lemma lookup_foldl_delete (cache : gmap string DiffInfo) (l : list string) (p : string) :
  foldl (λ cache fileToClear, delete fileToClear cache) cache l !! p =
  if bool_decide (p ∈ l) then None else cache !! p.
Proof.
  induction l as [|x l IH] in cache |- *; simpl; [done|].
  rewrite IH. destruct (decide (p = x)) as [->|Hne].
  - rewrite lookup_delete_eq. rewrite (bool_decide_eq_true_2 (x ∈ x :: l)); [|set_solver].
    by case_bool_decide.
  - rewrite lookup_delete_ne by done.
    case_bool_decide as H1; case_bool_decide as H2; set_solver.
Qed.

Lemma foldl_difference (updating : gset string) (l : list string) :
  foldl (λ updating pathToFetch, updating ∖ {[pathToFetch]}) updating l =
  updating ∖ list_to_set l.
Proof.
  induction l as [|x l IH] in updating |- *; simpl; [set_solver|].
  rewrite IH. set_solver.
Qed.

(** After the answer of the backend, whatever it is and whatever ran while it
    was awaited, no path of the batch is left marked as in flight. *)
Lemma updateDiffInfo_resume_unmarks
    (pathsToFetch : list string) (answer : option (list (string * DiffInfo)))
    (c : Client) (p : string) :
  p ∈ pathsToFetch →
  p ∉ _hgDiffCacheFilesUpdating (after (_updateDiffInfo_resume pathsToFetch answer c)).
Proof.
  intros Hp. unfold _updateDiffInfo_resume. autorewrite with run.
  unfold allowUpdatingAgain; simpl. rewrite foldl_difference. set_solver.
Qed.

(** The failure that [_updateDiffInfo] documents, a call to [hg diff] that
    answers none.  When [fetchDiffInfo] answers none for the batch it is asked,
    [_updateDiffInfo] returns none and merges nothing into the diff cache (which only loses the
    files queued for removal), and the in-flight marker of every path of the
    batch is cleared: the in-flight set is what it was before the call, so a
    later request for the same paths fetches the same batch again. *)
Theorem updateDiffInfo_failure (c : Client) (filePaths : list string) :
  let pathsToFetch := (markPathsToFetch filePaths c).1 in
  pathsToFetch ≠ [] →
  HgService.fetchDiffInfo (_service c) pathsToFetch = None →
  let r := _updateDiffInfo filePaths c in
  result r = None
  ∧ requests (effects r) = [FetchDiffInfo pathsToFetch]
  ∧ (∀ p, _hgDiffCache (after r) !! p =
          if bool_decide (p ∈ _hgDiffCacheFilesToClear c) then None else _hgDiffCache c !! p)
  ∧ (∀ p, p ∈ pathsToFetch → p ∉ _hgDiffCacheFilesUpdating (after r))
  ∧ _hgDiffCacheFilesUpdating (after r) = _hgDiffCacheFilesUpdating c
  ∧ (markPathsToFetch filePaths (after r)).1 = pathsToFetch.
Proof.
  intros pathsToFetch Hne Hfail r.
  assert (Hfresh := markPathsToFetch_fresh filePaths c).
  assert (Hclient := markPathsToFetch_client filePaths c).
  fold pathsToFetch in Hfresh, Hclient.
  assert (Hr : r = (None,
                    allowUpdatingAgain pathsToFetch
                      (removeFilesMarkedForDeletion (markPathsToFetch filePaths c).2),
                    [Backend (FetchDiffInfo pathsToFetch);
                     Emit DidChangeStatuses
                       (caches (allowUpdatingAgain pathsToFetch
                          (removeFilesMarkedForDeletion (markPathsToFetch filePaths c).2)))])).
  { unfold r, _updateDiffInfo. rewrite run_bind, run_state, result_run, after_run, effects_run.
    fold pathsToFetch. rewrite bool_decide_eq_false_2 by (by destruct pathsToFetch).
    rewrite run_bind, run_request, result_run, after_run, effects_run.
    rewrite Hclient. cbn [_service set_hgDiffCacheFilesUpdating]. rewrite Hfail.
    unfold _updateDiffInfo_resume. autorewrite with run. done. }
  assert (Hupd : _hgDiffCacheFilesUpdating (after r) = _hgDiffCacheFilesUpdating c).
  { rewrite Hr, after_run, Hclient. unfold allowUpdatingAgain; simpl.
    rewrite foldl_difference. apply set_eq. intros x.
    specialize (Hfresh x). set_solver. }
  split_and!.
  - by rewrite Hr.
  - by rewrite Hr.
  - intros p. rewrite Hr, after_run, Hclient. simpl. rewrite lookup_foldl_delete.
    case_bool_decide as H1; case_bool_decide as H2; set_solver.
  - intros p Hp. rewrite Hupd. by apply Hfresh.
  - done.
  - by apply markPathsToFetch_paths.
Qed.

End DiffCache.

(** ** The status cache *)

Section StatusCache.
Context `{PathLib}.

Lemma omap_ext_in {A B} (f g : A → option B) (l : list A) :
  (∀ x, x ∈ l → f x = g x) → omap f l = omap g l.
Proof.
  induction l as [|x l IH]; [done|]. intros Hfg. csimpl.
  rewrite (Hfg x) by set_solver. rewrite IH; [done|]. intros y Hy. apply Hfg. set_solver.
Qed.

Lemma omap_cons_app {A B} (f : A → option B) (x : A) (l : list A) :
  omap f (x :: l) = from_option (λ y, [y]) [] (f x) ++ omap f l.
Proof. csimpl. by destruct (f x). Qed.

Lemma elem_of_Set_new (l : list string) (x : string) : x ∈ Set_new l ↔ x ∈ l.
Proof.
  unfold Set_new.
  assert (Hgen : ∀ acc, x ∈ foldl Set_add acc l ↔ x ∈ acc ∨ x ∈ l).
  { induction l as [|y l IH]; intros acc; simpl; [set_solver|].
    rewrite IH. unfold Set_add. case_bool_decide; set_solver. }
  rewrite Hgen. set_solver.
Qed.

Lemma elem_of_Set_delete (s : list string) (x y : string) :
  y ∈ Set_delete s x ↔ y ∈ s ∧ y ≠ x.
Proof. unfold Set_delete. rewrite list_elem_of_filter. tauto. Qed.

Lemma elem_of_foldl_Set_delete (s l : list string) (y : string) :
  y ∈ foldl Set_delete s l ↔ y ∈ s ∧ y ∉ l.
Proof.
  induction l as [|x l IH] in s |- *; simpl; [set_solver|].
  rewrite IH, elem_of_Set_delete. set_solver.
Qed.

(** *** One fetched status *)

Lemma storeFetchedStatus_cache (p : string) (new : StatusCodeIdValue) (c : Client) :
  _hgStatusCache (storeFetchedStatus p new c) =
  if bool_decide (new = StatusCodeId.CLEAN) then delete p (_hgStatusCache c)
  else <[p := new]> (_hgStatusCache c).
Proof.
  unfold storeFetchedStatus. repeat case_bool_decide; done.
Qed.

Lemma storeFetchedStatus_outside (p : string) (new : StatusCodeIdValue) (c : Client) :
  outsideStatus (storeFetchedStatus p new c) = outsideStatus c.
Proof.
  unfold storeFetchedStatus. repeat case_bool_decide; done.
Qed.

Lemma statusAfter_changed (old : option StatusCodeIdValue) (new : StatusCodeIdValue) :
  statusAfter old new ≠ old ↔ statusChanged old new = true.
Proof.
  unfold statusAfter, statusChanged. destruct old as [old|];
    repeat case_bool_decide; naive_solver.
Qed.

Lemma statusAfter_not_clean (old : option StatusCodeIdValue) (new : StatusCodeIdValue) :
  old ≠ Some StatusCodeId.CLEAN → statusAfter old new ≠ Some StatusCodeId.CLEAN.
Proof.
  unfold statusAfter. destruct old as [old|]; repeat case_bool_decide; naive_solver.
Qed.

(** One turn of the first loop, on the status cache. *)
Lemma onFetchedStatus_lookup
    (c : Client) (evs : list Event) (q : list string)
    (p : string) (new : StatusCodeIdValue) (p' : string) :
  _hgStatusCache (onFetchedStatus (c, evs, q) (p, new)).1.1 !! p' =
  if bool_decide (p' = p) then statusAfter (_hgStatusCache c !! p) new
  else _hgStatusCache c !! p'.
Proof.
  destruct (decide (p' = p)) as [->|Hp].
  - rewrite bool_decide_eq_true_2 by done.
    unfold onFetchedStatus. destruct (statusChanged _ _) eqn:Hch; simpl.
    + rewrite storeFetchedStatus_cache. unfold statusAfter, statusChanged in *.
      destruct (_hgStatusCache c !! p) as [old|] eqn:Hold; rewrite Hch;
        apply bool_decide_eq_true in Hch; case_bool_decide; by simplify_map_eq.

    + symmetry.
      destruct (decide (statusAfter (_hgStatusCache c !! p) new = _hgStatusCache c !! p))
        as [->|Hne]; [done|].
      apply statusAfter_changed in Hne. congruence.
  - rewrite bool_decide_eq_false_2 by done.
    unfold onFetchedStatus. destruct (statusChanged _ _) eqn:Hch; simpl; [|done].
    rewrite storeFetchedStatus_cache. case_bool_decide; by simplify_map_eq.
Qed.

Lemma onFetchedStatus_events
    (c : Client) (evs : list Event) (q : list string) (p : string) (new : StatusCodeIdValue) :
  (onFetchedStatus (c, evs, q) (p, new)).1.2 =
  evs ++ (if statusChanged (_hgStatusCache c !! p) new
          then [DidChangeStatus p (StatusCodeIdToNumber new)] else []).
Proof.
  unfold onFetchedStatus. destruct (statusChanged _ _); simpl; [done|by rewrite app_nil_r].
Qed.

Lemma onFetchedStatus_queried
    (c : Client) (evs : list Event) (q : list string) (entry : string * StatusCodeIdValue) :
  (onFetchedStatus (c, evs, q) entry).2 = Set_delete q entry.1.
Proof.
  destruct entry as [p new]. unfold onFetchedStatus. by destruct (statusChanged _ _).
Qed.

Lemma onFetchedStatus_outside
    (c : Client) (evs : list Event) (q : list string) (entry : string * StatusCodeIdValue) :
  outsideStatus (onFetchedStatus (c, evs, q) entry).1.1 = outsideStatus c.
Proof.
  destruct entry as [p new]. unfold onFetchedStatus.
  destruct (statusChanged _ _); simpl; [apply storeFetchedStatus_outside|done].
Qed.

(** *** The first loop: [statusMapPathToStatusId.forEach] *)

Lemma loop_queried
    (c : Client) (evs : list Event) (q : list string)
    (statusMap : list (string * StatusCodeIdValue)) :
  (foldl onFetchedStatus (c, evs, q) statusMap).2 = foldl Set_delete q statusMap.*1.
Proof.
  induction statusMap as [|entry rest IH] in c, evs, q |- *; [done|].
  cbn [foldl]. destruct (onFetchedStatus (c, evs, q) entry) as [[c' evs'] q'] eqn:E.
  rewrite IH, fmap_cons. cbn [foldl]. f_equal.
  by rewrite <- (onFetchedStatus_queried c evs q entry), E.
Qed.

Lemma loop_outside
    (c : Client) (evs : list Event) (q : list string)
    (statusMap : list (string * StatusCodeIdValue)) :
  outsideStatus (foldl onFetchedStatus (c, evs, q) statusMap).1.1 = outsideStatus c.
Proof.
  induction statusMap as [|entry rest IH] in c, evs, q |- *; [done|].
  cbn [foldl]. destruct (onFetchedStatus (c, evs, q) entry) as [[c' evs'] q'] eqn:E.
  rewrite IH. by rewrite <- (onFetchedStatus_outside c evs q entry), E.
Qed.

(** A path the answer does not list keeps its cached status. *)
Lemma loop_lookup_other
    (c : Client) (evs : list Event) (q : list string)
    (statusMap : list (string * StatusCodeIdValue)) (p : string) :
  p ∉ statusMap.*1 →
  _hgStatusCache (foldl onFetchedStatus (c, evs, q) statusMap).1.1 !! p = _hgStatusCache c !! p.
Proof.
  induction statusMap as [|[p0 new] rest IH] in c, evs, q |- *; [done|].
  intros Hp. rewrite fmap_cons in Hp. cbn [foldl fst] in *. destruct (onFetchedStatus (c, evs, q) (p0, new)) as [[c' evs'] q'] eqn:E.
  rewrite IH by set_solver.
  assert (Hc' : c' = (onFetchedStatus (c, evs, q) (p0, new)).1.1) by by rewrite E.
  rewrite Hc', onFetchedStatus_lookup. rewrite bool_decide_eq_false_2; set_solver.
Qed.

(** A path the answer lists, once, is cached according to its old and its
    fetched status. *)
Lemma loop_lookup_listed
    (c : Client) (evs : list Event) (q : list string)
    (statusMap : list (string * StatusCodeIdValue)) (p : string) (new : StatusCodeIdValue) :
  NoDup statusMap.*1 → (p, new) ∈ statusMap →
  _hgStatusCache (foldl onFetchedStatus (c, evs, q) statusMap).1.1 !! p =
  statusAfter (_hgStatusCache c !! p) new.
Proof.
  induction statusMap as [|[p0 new0] rest IH] in c, evs, q |- *;
    [by intros _ ?%elem_of_nil|].
  rewrite fmap_cons. intros [Hp0 Hnd]%NoDup_cons Hin. cbn [foldl fst] in *.
  destruct (onFetchedStatus (c, evs, q) (p0, new0)) as [[c' evs'] q'] eqn:E.
  assert (Hc' : c' = (onFetchedStatus (c, evs, q) (p0, new0)).1.1) by by rewrite E.
  apply elem_of_cons in Hin as [[= -> ->]|Hin].
  - rewrite loop_lookup_other by done.
    rewrite Hc', onFetchedStatus_lookup. by rewrite bool_decide_eq_true_2.
  - rewrite IH by done.
    assert (p ≠ p0).
    { intros ->. apply Hp0. apply list_elem_of_fmap. by exists (p0, new). }
    rewrite Hc', onFetchedStatus_lookup. by rewrite bool_decide_eq_false_2.
Qed.

Lemma loop_events
    (c : Client) (evs : list Event) (q : list string)
    (statusMap : list (string * StatusCodeIdValue)) :
  NoDup statusMap.*1 →
  (foldl onFetchedStatus (c, evs, q) statusMap).1.2 =
  evs ++ omap (changeEventOf (_hgStatusCache c)) statusMap.
Proof.
  induction statusMap as [|[p0 new0] rest IH] in c, evs, q |- *;
    [by rewrite app_nil_r|].
  rewrite fmap_cons. intros [Hp0 Hnd]%NoDup_cons. cbn [foldl fst] in *.
  rewrite omap_cons_app.
  destruct (onFetchedStatus (c, evs, q) (p0, new0)) as [[c' evs'] q'] eqn:E.
  assert (Hc' : c' = (onFetchedStatus (c, evs, q) (p0, new0)).1.1) by by rewrite E.
  assert (Hevs' : evs' = (onFetchedStatus (c, evs, q) (p0, new0)).1.2) by by rewrite E.
  rewrite IH by done. rewrite Hevs', onFetchedStatus_events, <- app_assoc. f_equal.
  rewrite (omap_ext_in (changeEventOf (_hgStatusCache c')) (changeEventOf (_hgStatusCache c))).
  - unfold changeEventOf at 2. cbn [fst snd]. by destruct (statusChanged _ _).
  - intros [p new] Hin. unfold changeEventOf. simpl.
    assert (p ≠ p0).
    { intros ->. apply Hp0. apply list_elem_of_fmap. by exists (p0, new). }
    rewrite Hc', onFetchedStatus_lookup. by rewrite bool_decide_eq_false_2.
Qed.

(** *** The evictions: [queriedFiles.forEach] *)

Lemma evictQueriedFile_outside (o : option HgStatusOptionValue) (c : Client) (p : string) :
  outsideStatus (evictQueriedFile o c p) = outsideStatus c.
Proof.
  unfold evictQueriedFile. destruct o as [[]|]; repeat case_bool_decide; done.
Qed.

(** An eviction deletes the path from the status cache, or does nothing. *)
Lemma evictQueriedFile_cache (o : option HgStatusOptionValue) (c : Client) (p : string) :
  _hgStatusCache (evictQueriedFile o c p) = _hgStatusCache c
  ∨ _hgStatusCache (evictQueriedFile o c p) = delete p (_hgStatusCache c).
Proof.
  unfold evictQueriedFile. destruct o as [[]|]; repeat case_bool_decide; auto.
Qed.

Lemma evictions_outside (o : option HgStatusOptionValue) (c : Client) (q : list string) :
  outsideStatus (foldl (evictQueriedFile o) c q) = outsideStatus c.
Proof.
  induction q as [|p q IH] in c |- *; [done|]. cbn [foldl].
  by rewrite IH, evictQueriedFile_outside.
Qed.

Lemma evictions_lookup_other
    (o : option HgStatusOptionValue) (c : Client) (q : list string) (p : string) :
  p ∉ q → _hgStatusCache (foldl (evictQueriedFile o) c q) !! p = _hgStatusCache c !! p.
Proof.
  induction q as [|p0 q IH] in c |- *; [done|]. intros Hp. cbn [foldl].
  rewrite IH by set_solver.
  destruct (evictQueriedFile_cache o c p0) as [->| ->]; [done|].
  apply lookup_delete_ne. set_solver.
Qed.

Lemma evictions_lookup_Some
    (o : option HgStatusOptionValue) (c : Client) (q : list string)
    (p : string) (st : StatusCodeIdValue) :
  _hgStatusCache (foldl (evictQueriedFile o) c q) !! p = Some st →
  _hgStatusCache c !! p = Some st.
Proof.
  induction q as [|p0 q IH] in c |- *; [done|]. cbn [foldl]. intros Hst%IH.
  destruct (evictQueriedFile_cache o c p0) as [E|E]; rewrite E in Hst; [done|].
  by apply lookup_delete_Some in Hst as [_ ?].
Qed.

Lemma statusAfter_Some (old : option StatusCodeIdValue) (new st : StatusCodeIdValue) :
  statusAfter old new = Some st →
  old = Some st ∨ (st = new ∧ new ≠ StatusCodeId.CLEAN).
Proof.
  unfold statusAfter. destruct old as [old|]; repeat case_bool_decide; naive_solver.
Qed.

(** A status found in the cache after the loop was there before, or was
    fetched, and then it is not CLEAN. *)
Lemma loop_lookup_Some
    (c : Client) (evs : list Event) (q : list string)
    (statusMap : list (string * StatusCodeIdValue)) (p : string) (st : StatusCodeIdValue) :
  _hgStatusCache (foldl onFetchedStatus (c, evs, q) statusMap).1.1 !! p = Some st →
  _hgStatusCache c !! p = Some st ∨ ((p, st) ∈ statusMap ∧ st ≠ StatusCodeId.CLEAN).
Proof.
  induction statusMap as [|[p0 new0] rest IH] in c, evs, q |- *; [by left|].
  cbn [foldl]. destruct (onFetchedStatus (c, evs, q) (p0, new0)) as [[c' evs'] q'] eqn:E.
  assert (Hc' : c' = (onFetchedStatus (c, evs, q) (p0, new0)).1.1) by by rewrite E.
  intros [Hst|[Hin Hne]]%IH; [|right; set_solver].
  rewrite Hc', onFetchedStatus_lookup in Hst.
  case_bool_decide as Hp; [subst p0|by left].
  apply statusAfter_Some in Hst as [?|[-> ?]]; [by left|right; set_solver].
Qed.

(** *** The cache mutations of one update *)

Section OneUpdate.
Variables (pathsInRepo : list string) (options : option HgStatusCommandOptions).
Variables (statusMap : list (string * StatusCodeIdValue)) (c : Client).

Let updated : Client := (updateStatusCaches pathsInRepo options statusMap c).2.
Let statusChangeEvents : list Event := (updateStatusCaches pathsInRepo options statusMap c).1.

Lemma updateStatusCaches_unfold :
  updateStatusCaches pathsInRepo options statusMap c =
  ((foldl onFetchedStatus (c, [], Set_new pathsInRepo) statusMap).1.2,
   foldl (evictQueriedFile (_getStatusOption options))
     (foldl onFetchedStatus (c, [], Set_new pathsInRepo) statusMap).1.1
     (foldl Set_delete (Set_new pathsInRepo) statusMap.*1)).
Proof.
  unfold updateStatusCaches. rewrite <- loop_queried with (c := c) (evs := []).
  by destruct (foldl onFetchedStatus _ _) as [[c1 evs] q].
Qed.

Lemma updateStatusCaches_outside : outsideStatus updated = outsideStatus c.
Proof.
  unfold updated. rewrite updateStatusCaches_unfold. cbn [snd].
  by rewrite evictions_outside, loop_outside.
Qed.

Lemma updateStatusCaches_events :
  NoDup statusMap.*1 →
  statusChangeEvents = omap (changeEventOf (_hgStatusCache c)) statusMap.
Proof.
  intros Hnd. unfold statusChangeEvents. rewrite updateStatusCaches_unfold. cbn [fst].
  by rewrite loop_events.
Qed.

Lemma updateStatusCaches_lookup_listed (p : string) (new : StatusCodeIdValue) :
  NoDup statusMap.*1 → (p, new) ∈ statusMap →
  _hgStatusCache updated !! p = statusAfter (_hgStatusCache c !! p) new.
Proof.
  intros Hnd Hin. unfold updated. rewrite updateStatusCaches_unfold. cbn [snd].
  rewrite evictions_lookup_other.
  - by apply loop_lookup_listed.
  - rewrite elem_of_foldl_Set_delete. intros [_ Hp]. apply Hp.
    apply list_elem_of_fmap. by exists (p, new).
Qed.

Lemma updateStatusCaches_lookup_unqueried (p : string) :
  p ∉ statusMap.*1 → p ∉ pathsInRepo →
  _hgStatusCache updated !! p = _hgStatusCache c !! p.
Proof.
  intros Hp Hq. unfold updated. rewrite updateStatusCaches_unfold. cbn [snd].
  rewrite evictions_lookup_other.
  - by apply loop_lookup_other.
  - rewrite elem_of_foldl_Set_delete, elem_of_Set_new. tauto.
Qed.

Lemma updateStatusCaches_lookup_Some (p : string) (st : StatusCodeIdValue) :
  _hgStatusCache updated !! p = Some st →
  _hgStatusCache c !! p = Some st ∨ ((p, st) ∈ statusMap ∧ st ≠ StatusCodeId.CLEAN).
Proof.
  unfold updated. rewrite updateStatusCaches_unfold. cbn [snd].
  intros Hst%evictions_lookup_Some. by apply loop_lookup_Some in Hst.
Qed.

End OneUpdate.

(** [_updateStatuses], run. *)
Lemma run_updateStatuses (filePaths : list string) (options : option HgStatusCommandOptions)
    (c : Client) :
  let pathsInRepo := filter (λ filePath, _isPathRelevant filePath = true) filePaths in
  let statusMap := HgService.fetchStatuses (_service c) pathsInRepo options in
  let updated := (updateStatusCaches pathsInRepo options statusMap c).2 in
  let statusChangeEvents := (updateStatusCaches pathsInRepo options statusMap c).1 in
  _updateStatuses filePaths options c =
  if bool_decide (length pathsInRepo = 0) then ([], c, [])
  else (statusMap, updated,
        Backend (FetchStatuses pathsInRepo options)
        :: ((λ e, Emit e (caches updated)) <$> statusChangeEvents)
        ++ [Emit DidChangeStatuses (caches updated)]).
Proof.
  intros pathsInRepo statusMap updated statusChangeEvents.
  unfold _updateStatuses. fold pathsInRepo.
  case_bool_decide; [done|].
  unfold _updateStatuses_resume. autorewrite with run. done.
Qed.

Lemma updateStatuses_outside (filePaths : list string) (options : option HgStatusCommandOptions)
    (c : Client) :
  outsideStatus (after (_updateStatuses filePaths options c)) = outsideStatus c.
Proof.
  rewrite run_updateStatuses. case_bool_decide; [done|].
  rewrite after_run. apply updateStatusCaches_outside.
Qed.

Lemma elem_of_emitted_run (events : list Event) (seen seen' : Caches) (call : BackendCall)
    (e : Event) :
  emitted (Backend call :: ((λ e, Emit e seen) <$> events) ++ [Emit DidChangeStatuses seen'])
  = events ++ [DidChangeStatuses].
Proof.
  change (Backend call :: ?l) with ([Backend call] ++ l).
  rewrite !emitted_app, emitted_emits. done.
Qed.

Lemma elem_of_changeEvents
    (cache : gmap string StatusCodeIdValue) (statusMap : list (string * StatusCodeIdValue))
    (p : string) (st : StatusCodeNumberValue) :
  DidChangeStatus p st ∈ omap (changeEventOf cache) statusMap ↔
  ∃ new, (p, new) ∈ statusMap ∧ statusChanged (cache !! p) new = true
         ∧ st = StatusCodeIdToNumber new.
Proof.
  rewrite list_elem_of_omap. unfold changeEventOf. split.
  - intros [[p' new] [Hin Hev]]. simpl in Hev.
    destruct (statusChanged _ _) eqn:Hch; [|done].
    injection Hev as Hp Hst. subst. by exists new.
  - intros (new & Hin & Hch & ->). exists (p, new). simpl. by rewrite Hch.
Qed.

(** C2, amended.  In a run of [_updateStatuses] that reaches the backend, a
    'did-change-status' event is emitted for a path if and only if the answer
    lists the path and its cached status differs before and after the update;
    the event carries the fetched status.  A path the update drops from the
    cache because the answer does not list it gets no such event.  Exactly one
    'did-change-statuses' event follows the path events, and every event is
    delivered with the caches as the update leaves them.  A run with no
    relevant path returns at once: no event at all. *)
Theorem updateStatuses_change_events
    (c : Client) (filePaths : list string) (options : option HgStatusCommandOptions) :
  let pathsInRepo := filter (λ filePath, _isPathRelevant filePath = true) filePaths in
  let statusMap := HgService.fetchStatuses (_service c) pathsInRepo options in
  let r := _updateStatuses filePaths options c in
  NoDup statusMap.*1 →
  (pathsInRepo = [] → r = ([], c, []))
  ∧ (pathsInRepo ≠ [] →
     (∀ p, (∃ st, DidChangeStatus p st ∈ emitted (effects r)) ↔
           p ∈ statusMap.*1 ∧ _hgStatusCache c !! p ≠ _hgStatusCache (after r) !! p)
     ∧ (∀ p st, DidChangeStatus p st ∈ emitted (effects r) →
                ∃ new, (p, new) ∈ statusMap ∧ st = StatusCodeIdToNumber new)
     ∧ (∃ pathEvents, emitted (effects r) = pathEvents ++ [DidChangeStatuses]
                      ∧ DidChangeStatuses ∉ pathEvents)
     ∧ (∀ e seen, Emit e seen ∈ effects r → seen = caches (after r))).
Proof.
  intros pathsInRepo statusMap r Hnd.
  unfold r. rewrite run_updateStatuses. fold pathsInRepo statusMap.
  split.
  { intros ->. done. }
  intros Hne. rewrite bool_decide_eq_false_2 by (by destruct pathsInRepo).
  rewrite effects_run, after_run, elem_of_emitted_run by exact DidChangeStatuses.
  rewrite updateStatusCaches_events by done.
  assert (Hpath : ∀ p st,
    DidChangeStatus p st ∈ omap (changeEventOf (_hgStatusCache c)) statusMap ++ [DidChangeStatuses]
    ↔ DidChangeStatus p st ∈ omap (changeEventOf (_hgStatusCache c)) statusMap).
  { intros p st. rewrite elem_of_app, list_elem_of_singleton. naive_solver. }
  split_and!.
  - intros p. split.
    + intros [st (new & Hin & Hch & ->)%Hpath%elem_of_changeEvents]. split.
      * apply list_elem_of_fmap. by exists (p, new).
      * rewrite (updateStatusCaches_lookup_listed _ _ _ _ p new) by done.
        intros Heq. symmetry in Heq. by apply statusAfter_changed in Heq.
    + intros [((p' & new) & -> & Hin)%list_elem_of_fmap Hdiff]. simpl in *.
      rewrite (updateStatusCaches_lookup_listed _ _ _ _ p' new) in Hdiff by done.
      exists (StatusCodeIdToNumber new). apply Hpath, elem_of_changeEvents.
      exists new. split_and!; [done| |done].
      apply statusAfter_changed. congruence.
  - intros p st (new & Hin & Hch & ->)%Hpath%elem_of_changeEvents. by exists new.
  - eexists. split; [done|].
    intros (entry & _ & Hev)%list_elem_of_omap. unfold changeEventOf in Hev.
    by destruct (statusChanged _ _).
  - intros e seen [Hin|Hin]%elem_of_cons; [done|].
    apply elem_of_app in Hin as [Hin|Hin].
    + by apply list_elem_of_fmap in Hin as (e' & [= -> ->] & _).
    + by apply list_elem_of_singleton in Hin as [= -> ->].
Qed.

Lemma statusAfter_clean (old : option StatusCodeIdValue) :
  old ≠ Some StatusCodeId.CLEAN → statusAfter old StatusCodeId.CLEAN = None.
Proof.
  unfold statusAfter. destruct old as [old|]; repeat case_bool_decide; naive_solver.
Qed.

(** No run of [_updateStatuses] stores CLEAN. *)
Lemma updateStatuses_stores_no_clean
    (c : Client) (filePaths : list string) (options : option HgStatusCommandOptions) :
  (∀ p, _hgStatusCache c !! p ≠ Some StatusCodeId.CLEAN) →
  ∀ p, _hgStatusCache (after (_updateStatuses filePaths options c)) !! p
       ≠ Some StatusCodeId.CLEAN.
Proof.
  intros Hinv p. rewrite run_updateStatuses.
  case_bool_decide; [apply Hinv|]. rewrite after_run.
  intros [?|[_ ?]]%updateStatusCaches_lookup_Some; [by eapply Hinv|done].
Qed.

Lemma afterStatusUpdates_no_clean (c : Client) :
  afterStatusUpdates c → ∀ p, _hgStatusCache c !! p ≠ Some StatusCodeId.CLEAN.
Proof.
  induction 1 as [hgService|c hgService _ IH|c filePaths options _ IH]; intros p.
  - done.
  - apply IH.
  - by apply updateStatuses_stores_no_clean.
Qed.

(** C4. After every sequence of [_updateStatuses] runs the status cache holds
    no CLEAN status, and a path that a run fetches as CLEAN is not a key of
    the cache when the run ends: an entry it had is deleted, none is created.
    The getter reads the absent path as CLEAN. *)
Theorem clean_never_cached (c : Client) :
  afterStatusUpdates c →
  (∀ p, _hgStatusCache c !! p ≠ Some StatusCodeId.CLEAN)
  ∧ ∀ (filePaths : list string) (options : option HgStatusCommandOptions) (p : string),
      let pathsInRepo := filter (λ filePath, _isPathRelevant filePath = true) filePaths in
      let statusMap := HgService.fetchStatuses (_service c) pathsInRepo options in
      let r := _updateStatuses filePaths options c in
      pathsInRepo ≠ [] → NoDup statusMap.*1 → (p, StatusCodeId.CLEAN) ∈ statusMap →
      _hgStatusCache (after r) !! p = None
      ∧ getCachedPathStatus (after r) (Some p) = StatusCodeNumber.CLEAN.
Proof.
  intros Hc. assert (Hinv := afterStatusUpdates_no_clean c Hc). split; [done|].
  intros filePaths options p pathsInRepo statusMap r Hne Hnd Hin.
  assert (Hnone : _hgStatusCache (after r) !! p = None).
  { unfold r. rewrite run_updateStatuses. fold pathsInRepo statusMap.
    rewrite bool_decide_eq_false_2 by (by destruct pathsInRepo).
    rewrite after_run.
    rewrite (updateStatusCaches_lookup_listed _ _ _ _ p StatusCodeId.CLEAN) by done.
    by apply statusAfter_clean. }
  split; [done|].
  unfold getCachedPathStatus. destruct (truthy (Some p)) as [p'|] eqn:Ht; [|done].
  assert (p' = p) as -> by (destruct p; simpl in Ht; congruence).
  by rewrite Hnone.
Qed.

(** *** [getStatuses] *)

Lemma checkTheCache_misses
    (c : Client) (isRelavantStatus : StatusCodeIdValue → bool)
    (statusMap : gmap string StatusCodeNumberValue) (misses paths : list string) :
  (foldl (checkTheCache c isRelavantStatus) (statusMap, misses) paths).2 =
  misses ++ filter (λ p, _hgStatusCache c !! p = None) paths.
Proof.
  induction paths as [|p paths IH] in statusMap, misses |- *; [by rewrite app_nil_r|].
  cbn [foldl]. unfold checkTheCache at 2.
  destruct (_hgStatusCache c !! p) as [st|] eqn:Hp.
  - rewrite filter_cons_False by (by rewrite Hp). destruct (isRelavantStatus st); apply IH.
  - rewrite filter_cons_True by done. rewrite IH. by rewrite <- app_assoc.
Qed.

Lemma checkTheCache_lookup
    (c : Client) (isRelavantStatus : StatusCodeIdValue → bool)
    (statusMap : gmap string StatusCodeNumberValue) (misses paths : list string) (k : string) :
  (foldl (checkTheCache c isRelavantStatus) (statusMap, misses) paths).1 !! k =
  match _hgStatusCache c !! k with
  | Some st =>
      if isRelavantStatus st && bool_decide (k ∈ paths)
      then Some (StatusCodeIdToNumber st) else statusMap !! k
  | None => statusMap !! k
  end.
Proof.
  induction paths as [|p paths IH] in statusMap, misses |- *.
  { cbn [foldl fst]. destruct (_hgStatusCache c !! k) as [st|]; [|done].
    rewrite bool_decide_eq_false_2 by set_solver. by rewrite andb_false_r. }
  cbn [foldl]. unfold checkTheCache at 2.
  destruct (_hgStatusCache c !! p) as [st|] eqn:Hp.
  - destruct (isRelavantStatus st) eqn:Hrel; rewrite IH.
    + destruct (decide (k = p)) as [->|Hne].
      * rewrite Hp, Hrel, lookup_insert_eq.
        rewrite (bool_decide_eq_true_2 (p ∈ p :: paths)) by set_solver.
        by destruct (bool_decide _).
      * rewrite lookup_insert_ne by done.
        destruct (_hgStatusCache c !! k) as [st'|]; [|done].
        by rewrite (bool_decide_ext (k ∈ paths) (k ∈ p :: paths)) by set_solver.
    + destruct (_hgStatusCache c !! k) as [st'|] eqn:Hk; [|done].
      destruct (decide (k = p)) as [->|Hne].
      * assert (st' = st) as -> by congruence. by rewrite Hrel.
      * by rewrite (bool_decide_ext (k ∈ paths) (k ∈ p :: paths)) by set_solver.
  - rewrite IH. destruct (_hgStatusCache c !! k) as [st'|] eqn:Hk; [|done].
    assert (k ≠ p) by congruence.
    by rewrite (bool_decide_ext (k ∈ paths) (k ∈ p :: paths)) by set_solver.
Qed.

Lemma lookup_foldl_insert_listed
    (statusMap : gmap string StatusCodeNumberValue)
    (newStatusInfo : list (string * StatusCodeIdValue)) (k : string) (st : StatusCodeIdValue) :
  NoDup newStatusInfo.*1 → (k, st) ∈ newStatusInfo →
  foldl (λ statusMap entry, <[entry.1 := StatusCodeIdToNumber entry.2]> statusMap)
    statusMap newStatusInfo !! k = Some (StatusCodeIdToNumber st).
Proof.
  induction newStatusInfo as [|[p new] rest IH] in statusMap |- *;
    [by intros _ ?%elem_of_nil|].
  rewrite fmap_cons. intros [Hp Hnd]%NoDup_cons Hin. cbn [foldl fst snd] in *.
  apply elem_of_cons in Hin as [[= -> ->]|Hin]; [|by apply IH].
  clear IH. induction rest as [|[p' new'] rest IH] in statusMap, Hp, Hnd |- *.
  - apply lookup_insert_eq.
  - cbn [foldl fst snd]. rewrite fmap_cons in Hp, Hnd. apply NoDup_cons in Hnd as [_ Hnd].
    cbn [fst] in Hp. rewrite insert_insert_ne by set_solver. apply IH; set_solver.
Qed.

Lemma lookup_foldl_insert_other
    (statusMap : gmap string StatusCodeNumberValue)
    (newStatusInfo : list (string * StatusCodeIdValue)) (k : string) :
  k ∉ newStatusInfo.*1 →
  foldl (λ statusMap entry, <[entry.1 := StatusCodeIdToNumber entry.2]> statusMap)
    statusMap newStatusInfo !! k = statusMap !! k.
Proof.
  induction newStatusInfo as [|[p new] rest IH] in statusMap |- *; [done|].
  rewrite fmap_cons. intros Hk. cbn [foldl fst snd] in *.
  rewrite IH by set_solver. apply lookup_insert_ne. set_solver.
Qed.

(** [getStatuses], run: the cached statuses that pass the filter, then the
    answer for the cache misses. *)
Lemma run_getStatuses (paths : list string) (options : option HgStatusCommandOptions)
    (c : Client) :
  let misses := filter (λ p, _hgStatusCache c !! p = None) paths in
  let cached :=
    (foldl (checkTheCache c (_getPredicateForRelevantStatuses options)) (∅, []) paths).1 in
  let fetch := _updateStatuses misses options c in
  getStatuses paths options c =
  (foldl (λ statusMap entry, <[entry.1 := StatusCodeIdToNumber entry.2]> statusMap)
     cached (result fetch),
   after fetch, effects fetch).
Proof.
  intros misses cached fetch. subst cached. unfold getStatuses.
  rewrite run_bind, run_gets, result_run, after_run, effects_run. unfold id.
  assert (Hm := checkTheCache_misses c (_getPredicateForRelevantStatuses options) ∅ [] paths).
  destruct (foldl _ _ paths) as [statusMap pathsWithCacheMiss] eqn:E.
  cbn [fst snd app] in *. fold misses in Hm. subst pathsWithCacheMiss.
  case_bool_decide as Hlen.
  - assert (misses = []) as Hnil by (by destruct misses).
    unfold fetch. rewrite Hnil. rewrite run_updateStatuses. simpl. done.
  - rewrite run_bind. autorewrite with run. done.
Qed.

(** The status cache after [_updateStatuses], path by path. *)
Lemma updateStatuses_lookup_listed
    (filePaths : list string) (options : option HgStatusCommandOptions) (c : Client)
    (k : string) (st : StatusCodeIdValue) :
  let r := _updateStatuses filePaths options c in
  NoDup (result r).*1 → (k, st) ∈ result r →
  _hgStatusCache (after r) !! k = statusAfter (_hgStatusCache c !! k) st.
Proof.
  intros r. unfold r. rewrite run_updateStatuses.
  case_bool_decide; [by intros _ ?%elem_of_nil|].
  rewrite result_run, after_run. intros Hnd Hin.
  by apply updateStatusCaches_lookup_listed.
Qed.

Lemma updateStatuses_lookup_unlisted
    (filePaths : list string) (options : option HgStatusCommandOptions) (c : Client)
    (k : string) :
  let r := _updateStatuses filePaths options c in
  k ∉ (result r).*1 →
  (k ∈ filter (λ filePath, _isPathRelevant filePath = true) filePaths →
   _hgStatusCache c !! k = None) →
  _hgStatusCache (after r) !! k = _hgStatusCache c !! k.
Proof.
  intros r. unfold r. rewrite run_updateStatuses.
  case_bool_decide; [done|].
  rewrite result_run, after_run. intros Hk Hq.
  destruct (decide (k ∈ filter (λ filePath, _isPathRelevant filePath = true) filePaths))
    as [Hin|Hnin].
  - rewrite (Hq Hin). apply eq_None_not_Some. intros [st Hst].
    apply updateStatusCaches_lookup_Some in Hst as [Hst|[Hst _]].
    + rewrite (Hq Hin) in Hst. done.
    + apply Hk. apply list_elem_of_fmap. by exists (k, st).
  - by apply updateStatusCaches_lookup_unqueried.
Qed.

Lemma requests_updateStatuses
    (filePaths : list string) (options : option HgStatusCommandOptions) (c : Client) :
  let pathsInRepo := filter (λ filePath, _isPathRelevant filePath = true) filePaths in
  requests (effects (_updateStatuses filePaths options c)) =
  if bool_decide (length pathsInRepo = 0) then []
  else [FetchStatuses pathsInRepo options].
Proof.
  intros pathsInRepo. rewrite run_updateStatuses. fold pathsInRepo.
  case_bool_decide; [done|]. rewrite effects_run.
  change (Backend ?call :: ?l) with ([Backend call] ++ l).
  rewrite !requests_app, requests_emits. done.
Qed.

(** C3, amended.  A second [getStatuses] call with the same arguments, run
    right after the first, sends no request to the backend exactly when the
    first call left every requested path of the project in the status cache.
    In that case, if the backend answered the first call only for paths it
    was asked and with statuses that pass the filter, the second call has no
    effect at all and returns the result of the first.  (A requested path
    that the backend reports CLEAN, or does not report, is not cached, and the
    second call fetches it again.) *)
Theorem getStatuses_again
    (c : Client) (paths : list string) (options : option HgStatusCommandOptions) :
  let r1 := getStatuses paths options c in
  let r2 := getStatuses paths options (after r1) in
  let misses := filter (λ p, _hgStatusCache c !! p = None) paths in
  let queried := filter (λ filePath, _isPathRelevant filePath = true) misses in
  let answered := result (_updateStatuses misses options c) in
  let allCached :=
    ∀ p, p ∈ paths → _isPathRelevant p = true → is_Some (_hgStatusCache (after r1) !! p) in
  (requests (effects r2) = [] ↔ allCached)
  ∧ (allCached →
     NoDup answered.*1 →
     (∀ p st, (p, st) ∈ answered →
        p ∈ queried ∧ _getPredicateForRelevantStatuses options st = true) →
     effects r2 = [] ∧ after r2 = after r1 ∧ result r2 = result r1).
Proof.
  intros r1 r2 misses queried answered allCached.
  set (c1 := after r1).
  assert (Hr1 : r1 = (foldl (λ statusMap entry,
                               <[entry.1 := StatusCodeIdToNumber entry.2]> statusMap)
                        (foldl (checkTheCache c (_getPredicateForRelevantStatuses options))
                           (∅, []) paths).1 answered,
                      after (_updateStatuses misses options c),
                      effects (_updateStatuses misses options c)))
    by apply run_getStatuses.
  assert (Hc1 : c1 = after (_updateStatuses misses options c)) by (unfold c1; by rewrite Hr1).
  set (misses2 := filter (λ p, _hgStatusCache c1 !! p = None) paths).
  set (queried2 := filter (λ filePath, _isPathRelevant filePath = true) misses2).
  assert (Hr2 : r2 = (foldl (λ statusMap entry,
                               <[entry.1 := StatusCodeIdToNumber entry.2]> statusMap)
                        (foldl (checkTheCache c1 (_getPredicateForRelevantStatuses options))
                           (∅, []) paths).1 (result (_updateStatuses misses2 options c1)),
                      after (_updateStatuses misses2 options c1),
                      effects (_updateStatuses misses2 options c1)))
    by apply run_getStatuses.
  assert (Hq2 : queried2 = [] ↔ allCached).
  { unfold allCached. fold c1. split.
    - intros Hnil p Hp Hrel.
      destruct (_hgStatusCache c1 !! p) as [st|] eqn:Hst; [by eexists|].
      assert (p ∈ queried2) as Hin; [|rewrite Hnil in Hin; by apply elem_of_nil in Hin].
      unfold queried2, misses2. rewrite !list_elem_of_filter. done.
    - intros Hall. apply elem_of_nil_inv. intros p.
      unfold queried2, misses2. rewrite !list_elem_of_filter.
      intros (Hrel & Hnone & Hp). destruct (Hall p Hp Hrel) as [st Hst]. congruence. }
  split.
  { rewrite <- Hq2, Hr2, effects_run, requests_updateStatuses. fold queried2.
    case_bool_decide as Hlen; destruct queried2; naive_solver. }
  intros Hall Hnd Hanswered.
  assert (Hnil : queried2 = []) by by apply Hq2.
  assert (Hfetch2 : _updateStatuses misses2 options c1 = ([], c1, [])).
  { rewrite run_updateStatuses. fold queried2. by rewrite Hnil. }
  rewrite Hr2, Hfetch2, result_run, after_run, effects_run. cbn [foldl].
  split_and!; [done|done|].
  rewrite Hr1. apply map_eq. intros k. rewrite !result_run.
  rewrite checkTheCache_lookup, lookup_empty.
  destruct (decide (k ∈ answered.*1)) as [Hin|Hnin].
  - apply list_elem_of_fmap in Hin as ([k' st] & -> & Hin). cbn [fst].
    destruct (Hanswered _ _ Hin) as [Hq Hrel].
    unfold queried, misses in Hq. rewrite !list_elem_of_filter in Hq.
    destruct Hq as (Hrelevant & Hnone & Hpaths).
    rewrite (lookup_foldl_insert_listed _ _ k' st) by done.
    rewrite Hc1, (updateStatuses_lookup_listed _ _ _ k' st) by done.
    destruct (Hall k' Hpaths Hrelevant) as [st' Hst'].
    fold c1 in Hst'. rewrite Hc1 in Hst'.
    rewrite (updateStatuses_lookup_listed _ _ _ k' st) in Hst' by done.
    rewrite Hnone in *. unfold statusAfter in *.
    case_bool_decide; [|done]. by rewrite Hrel, bool_decide_eq_true_2.
  - rewrite lookup_foldl_insert_other by done.
    rewrite checkTheCache_lookup, lookup_empty.
    rewrite Hc1, updateStatuses_lookup_unlisted; [done|done|].
    unfold misses. rewrite !list_elem_of_filter. tauto.
Qed.

End StatusCache.

(** ** Refreshing after file changes *)

Section Refresh.
Context `{PathLib}.

Lemma elem_of_markPathsToFetch (filePaths : list string) (c : Client) (p : string) :
  p ∈ (markPathsToFetch filePaths c).1 ↔
  p ∈ filePaths ∧ _isPathRelevant p = true ∧ p ∉ _hgDiffCacheFilesUpdating c.
Proof.
  induction filePaths as [|aPath rest IH] in c |- *; simpl; [set_solver|].
  destruct (_isPathRelevant aPath) eqn:Hrel; simpl.
  - case_bool_decide as Hin.
    + rewrite IH. set_solver.
    + specialize (IH (set_hgDiffCacheFilesUpdating ({[aPath]} ∪ _hgDiffCacheFilesUpdating c) c)).
      destruct (markPathsToFetch rest _) as [pathsToFetch c'] eqn:E. simpl in *.
      rewrite elem_of_cons, IH. split.
      * intros [->|(? & ? & ?)]; set_solver.
      * intros ([->|?]%elem_of_cons & ? & ?); [by left|].
        destruct (decide (p = aPath)) as [->|?]; [by left|right; set_solver].
  - rewrite IH. split; [set_solver|].
    intros ([->|?]%elem_of_cons & ? & ?); [congruence|done].
Qed.

(** [_updateDiffInfo], run. *)
Lemma run_updateDiffInfo (filePaths : list string) (c : Client) :
  let pathsToFetch := (markPathsToFetch filePaths c).1 in
  let answer := HgService.fetchDiffInfo (_service c) pathsToFetch in
  let settled :=
    allowUpdatingAgain pathsToFetch
      (removeFilesMarkedForDeletion
         (mergeDiffInfo answer
            (set_hgDiffCacheFilesUpdating
               (list_to_set pathsToFetch ∪ _hgDiffCacheFilesUpdating c) c))) in
  _updateDiffInfo filePaths c =
  if bool_decide (length pathsToFetch = 0) then (Some [], c, [])
  else (answer, settled,
        [Backend (FetchDiffInfo pathsToFetch); Emit DidChangeStatuses (caches settled)]).
Proof.
  intros pathsToFetch answer settled.
  unfold _updateDiffInfo. rewrite run_bind, run_state, result_run, after_run, effects_run.
  rewrite markPathsToFetch_client. fold pathsToFetch.
  case_bool_decide as Hlen.
  - assert (pathsToFetch = []) as -> by (by destruct pathsToFetch).
    rewrite run_ret, result_run, after_run, effects_run. simpl.
    rewrite (left_id_L ∅ (∪)). by rewrite set_hgDiffCacheFilesUpdating_same.
  - unfold _updateDiffInfo_resume. autorewrite with run. done.
Qed.


Lemma lookup_mergeDiffInfo_other (fetched : list (string * DiffInfo))
    (cache : gmap string DiffInfo) (p : string) :
  p ∉ fetched.*1 →
  foldl (λ cache entry, <[entry.1 := entry.2]> cache) cache fetched !! p = cache !! p.
Proof.
  induction fetched as [|[p0 d0] rest IH] in cache |- *; [done|].
  rewrite fmap_cons. cbn [foldl fst snd]. intros Hp.
  rewrite IH by set_solver. apply lookup_insert_ne. set_solver.
Qed.

(** *** The modified-directory index of an update that starts from none *)









Lemma projectDirectory_relevant : _isPathRelevant getProjectDirectory = true.
Proof.
  unfold _isPathRelevant, getProjectDirectory.
  rewrite (bool_decide_eq_true_2 (projectDirectory_getPath = projectDirectory_getPath)) by done.
  apply orb_true_r.
Qed.

Lemma outsideStatus_fields (c1 c2 : Client) :
  outsideStatus c1 = outsideStatus c2 →
  _service c1 = _service c2
  ∧ _hgDiffCache c1 = _hgDiffCache c2
  ∧ _hgDiffCacheFilesUpdating c1 = _hgDiffCacheFilesUpdating c2
  ∧ _hgDiffCacheFilesToClear c1 = _hgDiffCacheFilesToClear c2.
Proof. unfold outsideStatus. intros Heq. by simplify_eq. Qed.


Lemma updateDiffInfo_lookup_other (filePaths : list string) (c : Client) (p : string) :
  let pathsToFetch := (markPathsToFetch filePaths c).1 in
  p ∉ _hgDiffCacheFilesToClear c →
  (∀ fetched, HgService.fetchDiffInfo (_service c) pathsToFetch = Some fetched →
              p ∉ fetched.*1) →
  _hgDiffCache (after (_updateDiffInfo filePaths c)) !! p = _hgDiffCache c !! p.
Proof.
  intros pathsToFetch Hclear Hfetched. rewrite run_updateDiffInfo. fold pathsToFetch.
  case_bool_decide; [done|]. rewrite after_run. unfold mergeDiffInfo.
  destruct (HgService.fetchDiffInfo _ _) as [fetched|]; cbn;
    rewrite lookup_foldl_delete; (case_bool_decide as Hin; [set_solver|]); [|done].
  apply lookup_mergeDiffInfo_other. by apply Hfetched.
Qed.

Lemma requests_updateDiffInfo (filePaths : list string) (c : Client) :
  let pathsToFetch := (markPathsToFetch filePaths c).1 in
  requests (effects (_updateDiffInfo filePaths c)) =
  if bool_decide (pathsToFetch = []) then [] else [FetchDiffInfo pathsToFetch].
Proof.
  intros pathsToFetch. rewrite run_updateDiffInfo. fold pathsToFetch.
  destruct pathsToFetch; done.
Qed.

Lemma updateDiffInfo_status (filePaths : list string) (c : Client) :
  _hgStatusCache (after (_updateDiffInfo filePaths c)) = _hgStatusCache c
  ∧ _modifiedDirectoryCache (after (_updateDiffInfo filePaths c)) = _modifiedDirectoryCache c.
Proof.
  rewrite run_updateDiffInfo. case_bool_decide; [done|]. rewrite after_run.
  unfold mergeDiffInfo. by destruct (HgService.fetchDiffInfo _ _).
Qed.





End Refresh.

(** ** A diff fetch that rejects *)

Section DiffFetchRejected.
Context `{PathLib}.

Lemma run_updateDiffInfo_resume
    (pathsToFetch : list string) (answer : option (list (string * DiffInfo))) (c : Client) :
  let settled :=
    allowUpdatingAgain pathsToFetch (removeFilesMarkedForDeletion (mergeDiffInfo answer c)) in
  _updateDiffInfo_resume pathsToFetch answer c =
  (answer, settled, [Emit DidChangeStatuses (caches settled)]).
Proof. unfold _updateDiffInfo_resume. autorewrite with run. done. Qed.

(** [_updateDiffInfo_await], run. *)
Lemma run_updateDiffInfo_await (rejects : list string → bool) (filePaths : list string)
    (c : Client) :
  let pathsToFetch := (markPathsToFetch filePaths c).1 in
  let r := _updateDiffInfo filePaths c in
  _updateDiffInfo_await rejects filePaths c =
  if bool_decide (length pathsToFetch = 0) then (Fulfilled (Some []), c, [])
  else if rejects pathsToFetch then
    (Rejected,
     set_hgDiffCacheFilesUpdating (list_to_set pathsToFetch ∪ _hgDiffCacheFilesUpdating c) c,
     [Backend (FetchDiffInfo pathsToFetch)])
  else (Fulfilled (result r), after r, effects r).
Proof.
  intros pathsToFetch r.
  unfold r. rewrite run_updateDiffInfo. fold pathsToFetch.
  unfold _updateDiffInfo_await.
  rewrite run_bind, run_state, result_run, after_run, effects_run.
  rewrite markPathsToFetch_client. fold pathsToFetch.
  case_bool_decide as Hlen.
  - assert (pathsToFetch = []) as -> by (by destruct pathsToFetch).
    rewrite run_ret, result_run, after_run, effects_run. simpl.
    rewrite (left_id_L ∅ (∪)). by rewrite set_hgDiffCacheFilesUpdating_same.
  - destruct (rejects pathsToFetch).
    + by autorewrite with run.
    + rewrite run_bind, run_request, !result_run, !after_run, !effects_run.
      rewrite run_bind, run_updateDiffInfo_resume, !result_run, !after_run, !effects_run.
      rewrite run_ret, result_run, after_run, effects_run. by rewrite app_nil_r.
Qed.

(** With a backend that never rejects, [_updateDiffInfo_await] is
    [_updateDiffInfo]. *)
Lemma updateDiffInfo_await_fulfilled (filePaths : list string) (c : Client) :
  _updateDiffInfo_await (λ _, false) filePaths c =
  (Fulfilled (result (_updateDiffInfo filePaths c)), after (_updateDiffInfo filePaths c),
   effects (_updateDiffInfo filePaths c)).
Proof.
  rewrite run_updateDiffInfo_await. cbv zeta.
  case_bool_decide as Hlen; [|done].
  rewrite run_updateDiffInfo. cbv zeta. by rewrite bool_decide_eq_true_2.
Qed.

(** A marked path stays marked through a call, and is not in its batch. *)
Lemma updateDiffInfo_await_marked (rejects : list string → bool) (filePaths : list string)
    (c : Client) (p : string) :
  p ∈ _hgDiffCacheFilesUpdating c →
  let r := _updateDiffInfo_await rejects filePaths c in
  p ∈ _hgDiffCacheFilesUpdating (after r)
  ∧ ∀ paths, FetchDiffInfo paths ∈ requests (effects r) → p ∉ paths.
Proof.
  intros Hp r. unfold r. rewrite run_updateDiffInfo_await. cbv zeta.
  assert (Hout : p ∉ (markPathsToFetch filePaths c).1).
  { intros Hin. by apply markPathsToFetch_fresh in Hin. }
  case_bool_decide as Hlen.
  { rewrite after_run, effects_run. split; [done|]. intros paths Hin. by apply elem_of_nil in Hin. }
  destruct (rejects _).
  - rewrite after_run, effects_run.
    split; [cbn [_hgDiffCacheFilesUpdating set_hgDiffCacheFilesUpdating]; by apply elem_of_union_r|].
    intros paths Hin. cbn in Hin. apply list_elem_of_singleton in Hin.
    injection Hin as ->. exact Hout.
  - rewrite after_run, effects_run. split.
    + rewrite run_updateDiffInfo. cbv zeta.
      rewrite bool_decide_eq_false_2 by done. rewrite after_run.
      unfold allowUpdatingAgain, removeFilesMarkedForDeletion, mergeDiffInfo.
      destruct (HgService.fetchDiffInfo _ _);
        cbn [_hgDiffCacheFilesUpdating set_hgDiffCacheFilesUpdating
             set_hgDiffCacheFilesToClear set_hgDiffCache];
        rewrite foldl_difference; set_solver.
    + intros paths. rewrite requests_updateDiffInfo. cbv zeta.
      case_bool_decide; [by intros ?%elem_of_nil|].
      intros Hin. apply list_elem_of_singleton in Hin. injection Hin as ->. exact Hout.
Qed.

Lemma run_diffFetches_cons (rejects : list string → bool) (filePaths : list string)
    (batches : list (list string)) (c : Client) :
  let r := _updateDiffInfo_await rejects filePaths c in
  after (diffFetches rejects (filePaths :: batches) c) = after (diffFetches rejects batches (after r))
  ∧ effects (diffFetches rejects (filePaths :: batches) c)
    = effects r ++ effects (diffFetches rejects batches (after r)).
Proof.
  intros r. unfold diffFetches. cbn [forEach]. rewrite !run_bind. rewrite !after_run, !effects_run.
  rewrite run_ret, after_run, effects_run. by rewrite app_nil_r.
Qed.

Lemma diffFetches_marked (rejects : list string → bool) (batches : list (list string))
    (c : Client) (p : string) :
  p ∈ _hgDiffCacheFilesUpdating c →
  let later := diffFetches rejects batches c in
  p ∈ _hgDiffCacheFilesUpdating (after later)
  ∧ ∀ paths, FetchDiffInfo paths ∈ requests (effects later) → p ∉ paths.
Proof.
  induction batches as [|filePaths batches IH] in c |- *; intros Hp later.
  - split; [done|]. intros paths Hin. by apply elem_of_nil in Hin.
  - unfold later. destruct (run_diffFetches_cons rejects filePaths batches c) as [-> ->].
    destruct (updateDiffInfo_await_marked rejects filePaths c p Hp) as [Hp' Hreq].
    destruct (IH _ Hp') as [Hp'' Hreq'].
    split; [done|]. intros paths. rewrite requests_app, elem_of_app.
    intros [Hin|Hin]; [by apply Hreq|by apply Hreq'].
Qed.

(** C6 fails when the promise of [fetchDiffInfo] rejects.  The rejection
    leaves [_updateDiffInfo] at its [await]: nothing is merged, no event is
    emitted, nothing queued for removal is removed, and the in-flight marker
    of every path of the batch stays set.  No later [_updateDiffInfo] clears
    it or asks for the path again, whatever paths it is given and however the
    backend then settles: a request for the same path returns an empty map
    without reaching the backend, from then on.  (When the backend answers
    none instead, the markers are cleared: [updateDiffInfo_failure].) *)
Theorem updateDiffInfo_rejection_blocks
    (c : Client) (filePaths : list string) (rejects : list string → bool) (p : string) :
  let pathsToFetch := (markPathsToFetch filePaths c).1 in
  let r := _updateDiffInfo_await rejects filePaths c in
  p ∈ pathsToFetch → rejects pathsToFetch = true →
  result r = Rejected
  ∧ effects r = [Backend (FetchDiffInfo pathsToFetch)]
  ∧ _hgDiffCache (after r) = _hgDiffCache c
  ∧ _hgDiffCacheFilesToClear (after r) = _hgDiffCacheFilesToClear c
  ∧ (p ∉ _hgDiffCacheFilesUpdating c) ∧ p ∈ _hgDiffCacheFilesUpdating (after r)
  ∧ _updateDiffInfo [p] (after r) = (Some [], after r, [])
  ∧ ∀ (rejects' : list string → bool) (batches : list (list string)),
      let later := diffFetches rejects' batches (after r) in
      p ∈ _hgDiffCacheFilesUpdating (after later)
      ∧ ∀ paths, FetchDiffInfo paths ∈ requests (effects later) → p ∉ paths.
Proof.
  intros pathsToFetch r Hp Hrejects.
  assert (Hr : r = (Rejected,
                    set_hgDiffCacheFilesUpdating
                      (list_to_set pathsToFetch ∪ _hgDiffCacheFilesUpdating c) c,
                    [Backend (FetchDiffInfo pathsToFetch)])).
  { unfold r. rewrite run_updateDiffInfo_await. fold pathsToFetch.
    rewrite bool_decide_eq_false_2 by (destruct pathsToFetch; [by apply elem_of_nil in Hp|done]).
    by rewrite Hrejects. }
  assert (Hmarked : p ∈ _hgDiffCacheFilesUpdating (after r)).
  { rewrite Hr, after_run. cbn [_hgDiffCacheFilesUpdating set_hgDiffCacheFilesUpdating].
    by apply elem_of_union_l, elem_of_list_to_set. }
  split_and!; try (by rewrite Hr).
  - by apply markPathsToFetch_fresh in Hp.
  - done.
  - rewrite run_updateDiffInfo. cbv zeta.
    assert ((markPathsToFetch [p] (after r)).1 = []) as ->; [|done].
    apply elem_of_nil_inv. intros q (Hin & _ & Hq)%elem_of_markPathsToFetch.
    apply list_elem_of_singleton in Hin as ->. done.
  - intros rejects' batches. by apply diffFetches_marked.
Qed.

End DiffFetchRejected.

(** ** The revision caches *)

Section LRUFacts.
Context {V : Type}.
Implicit Types (l : list (string * V)) (cache : LRU.t V).

Lemma length_without key l : length (LRU.without key l) ≤ length l.
Proof. apply length_filter. Qed.

Lemma length_without_found key l v :
  LRU.find key l = Some v → S (length (LRU.without key l)) ≤ length l.
Proof.
  unfold LRU.without.
  induction l as [|[k v'] l IH]; simpl; [done|].
  case_decide as Hk.
  - intros _. subst k. rewrite filter_cons_False by (simpl; auto).
    pose proof (length_filter (λ kv : string * V, kv.1 ≠ key) l). lia.
  - intros Hf%IH. rewrite filter_cons_True by done. simpl. lia.
Qed.

Lemma get_length key cache :
  LRU.length (LRU.get key cache).2 ≤ LRU.length cache.
Proof.
  unfold LRU.get, LRU.length. destruct (LRU.find key _) as [v|] eqn:Hf; simpl; [|done].
  by apply length_without_found in Hf.
Qed.

Lemma get_max key cache : LRU.max (LRU.get key cache).2 = LRU.max cache.
Proof. unfold LRU.get. by destruct (LRU.find key _). Qed.

Lemma set_max key v cache : LRU.max (LRU.set key v cache) = LRU.max cache.
Proof. done. Qed.

Lemma mutate_max key (f : V → V) cache : LRU.max (LRU.mutate key f cache) = LRU.max cache.
Proof. done. Qed.

Lemma set_length key v cache : LRU.length (LRU.set key v cache) ≤ LRU.max cache.
Proof. unfold LRU.set, LRU.length. simpl. rewrite length_take. lia. Qed.

Lemma mutate_length key (f : V → V) cache :
  LRU.length (LRU.mutate key f cache) = LRU.length cache.
Proof. unfold LRU.mutate, LRU.length. simpl. by rewrite length_map. Qed.

Lemma get_result key cache : (LRU.get key cache).1 = LRU.peek key cache.
Proof. unfold LRU.get, LRU.peek. by destruct (LRU.find key _). Qed.

(** After a hit the key is the most recently used, with the same value. *)
Lemma peek_get key cache v :
  LRU.peek key cache = Some v → LRU.peek key (LRU.get key cache).2 = Some v.
Proof.
  unfold LRU.peek, LRU.get. intros ->. simpl. by rewrite decide_True.
Qed.

(** A cache that holds at least one entry holds what was set last. *)
Lemma peek_set key v cache :
  0 < LRU.max cache → LRU.peek key (LRU.set key v cache) = Some v.
Proof.
  unfold LRU.peek, LRU.set. simpl. destruct (LRU.max cache) as [|n]; [lia|].
  intros _. simpl. by rewrite decide_True.
Qed.

Lemma find_mutate key (f : V → V) l :
  LRU.find key (List.map (λ kv : string * V, if decide (kv.1 = key) then (kv.1, f kv.2) else kv) l)
  = f <$> LRU.find key l.
Proof.
  induction l as [|[k v] l IH]; simpl; [done|].
  destruct (decide (k = key)) as [->|Hne]; simpl.
  - by rewrite decide_True.
  - by rewrite decide_False.
Qed.

Lemma peek_mutate key (f : V → V) cache :
  LRU.peek key (LRU.mutate key f cache) = f <$> LRU.peek key cache.
Proof. unfold LRU.peek, LRU.mutate. simpl. apply find_mutate. Qed.

End LRUFacts.

Section RevisionCaches.

(** [fetchFilesChangedAtRevision], run. *)
Lemma run_fetchFilesChangedAtRevision (revision : string) (c : Client) :
  fetchFilesChangedAtRevision revision c =
  match LRU.peek revision (_revisionIdToFileChanges c) with
  | Some changes =>
      (changes,
       set_revisionIdToFileChanges (LRU.get revision (_revisionIdToFileChanges c)).2 c, [])
  | None =>
      let fetchedChanges := HgService.fetchFilesChangedAtRevision (_service c) revision in
      (fetchedChanges,
       set_revisionIdToFileChanges
         (LRU.set revision fetchedChanges (_revisionIdToFileChanges c)) c,
       [Backend (FetchFilesChangedAtRevision revision)])
  end.
Proof.
  unfold fetchFilesChangedAtRevision.
  rewrite run_bind, run_state, result_run, after_run, effects_run.
  pose proof (get_result revision (_revisionIdToFileChanges c)) as Hres.
  unfold LRU.peek in *. unfold LRU.get in *.
  destruct (LRU.find revision _) as [changes|] eqn:Hf; simpl in *.
  - done.
  - autorewrite with run. done.
Qed.

(** [fetchFileContentAtRevision], run. *)
Lemma run_fetchFileContentAtRevision (filePath revision : string) (c : Client) :
  let fetched := HgService.fetchFileContentAtRevision (_service c) filePath revision in
  let store := λ contentsOfRevision : gmap string string, <[filePath := fetched]> contentsOfRevision in
  fetchFileContentAtRevision filePath revision c =
  match LRU.peek revision (_fileContentsAtRevisionIds c) with
  | Some fileContentsAtRevision =>
      let touched := (LRU.get revision (_fileContentsAtRevisionIds c)).2 in
      match fileContentsAtRevision !! filePath with
      | Some committedContents =>
          (committedContents, set_fileContentsAtRevisionIds touched c, [])
      | None =>
          (fetched, set_fileContentsAtRevisionIds (LRU.mutate revision store touched) c,
           [Backend (FetchFileContentAtRevision filePath revision)])
      end
  | None =>
      (fetched,
       set_fileContentsAtRevisionIds
         (LRU.mutate revision store (LRU.set revision ∅ (_fileContentsAtRevisionIds c))) c,
       [Backend (FetchFileContentAtRevision filePath revision)])
  end.
Proof.
  intros fetched store. unfold fetchFileContentAtRevision.
  rewrite run_bind, run_state. rewrite !result_run, !after_run, !effects_run.
  unfold LRU.peek. unfold LRU.get.
  destruct (LRU.find revision _) as [fileContentsAtRevision|] eqn:Hf; cbn [fst snd].
  - rewrite run_bind, run_ret. rewrite !result_run, !after_run, !effects_run.
    destruct (fileContentsAtRevision !! filePath) as [committedContents|] eqn:Hc.
    + by autorewrite with run.
    + by autorewrite with run.
  - rewrite !run_bind, run_modify, run_ret. rewrite !result_run, !after_run, !effects_run.
    rewrite lookup_empty. by autorewrite with run.
Qed.

Lemma revisionCachesBounded_changes (revision : string) (c : Client) :
  revisionCachesBounded c →
  revisionCachesBounded (after (fetchFilesChangedAtRevision revision c)).
Proof.
  intros (Hm1 & Hl1 & Hm2 & Hl2). rewrite run_fetchFilesChangedAtRevision.
  unfold revisionCachesBounded.
  destruct (LRU.peek revision _) as [changes|]; cbn.
  - rewrite get_max. pose proof (get_length revision (_revisionIdToFileChanges c)). split_and!; [done|lia|done|done].
  - pose proof (set_length revision
      (HgService.fetchFilesChangedAtRevision (_service c) revision) (_revisionIdToFileChanges c)).
    unfold LRU.length, LRU.set in *. cbn in *. split_and!; [done|lia|done|done].
Qed.

Lemma revisionCachesBounded_content (filePath revision : string) (c : Client) :
  revisionCachesBounded c →
  revisionCachesBounded (after (fetchFileContentAtRevision filePath revision c)).
Proof.
  intros (Hm1 & Hl1 & Hm2 & Hl2). rewrite run_fetchFileContentAtRevision.
  unfold revisionCachesBounded.
  pose proof (get_length revision (_fileContentsAtRevisionIds c)).
  pose proof (set_length revision (∅ : gmap string string) (_fileContentsAtRevisionIds c)).
  destruct (LRU.peek revision _) as [contentsOfRevision|];
    [destruct (contentsOfRevision !! filePath)|];
    rewrite after_run; cbn [_revisionIdToFileChanges _fileContentsAtRevisionIds
                            set_fileContentsAtRevisionIds];
    rewrite ?mutate_length, ?mutate_max, ?set_max, ?get_max; split_and!; try done; lia.
Qed.

Lemma revisionCachesBounded_destroy (c : Client) :
  revisionCachesBounded c → revisionCachesBounded (after (destroy c)).
Proof.
  intros Hb. rewrite run_destroy.
  destruct (_isDestroyed c); [done|].
  destruct Hb as (Hm1 & Hl1 & Hm2 & Hl2).
  unfold revisionCachesBounded, LRU.length. cbn. split_and!; [done|lia|done|lia].
Qed.

Lemma afterRevisionFetches_bounded (c : Client) :
  afterRevisionFetches c → revisionCachesBounded c.
Proof.
  induction 1 as [hgService|c hgService _ IH|c filePath revision _ IH|c revision _ IH|c _ IH].
  - unfold revisionCachesBounded, LRU.length. cbn. lia.
  - exact IH.
  - by apply revisionCachesBounded_content.
  - by apply revisionCachesBounded_changes.
  - by apply revisionCachesBounded_destroy.
Qed.

(** A hit on the change list of a revision. *)
Lemma fetchFilesChangedAtRevision_hit (revision : string) (c : Client)
    (changes : RevisionFileChanges) :
  LRU.peek revision (_revisionIdToFileChanges c) = Some changes →
  let r := fetchFilesChangedAtRevision revision c in
  result r = changes ∧ effects r = []
  ∧ LRU.peek revision (_revisionIdToFileChanges (after r)) = Some changes.
Proof.
  intros Hpeek r. unfold r. rewrite run_fetchFilesChangedAtRevision, Hpeek.
  split_and!; [done|done|]. rewrite after_run. cbn. by apply peek_get.
Qed.

(** A miss on the change list of a revision. *)
Lemma fetchFilesChangedAtRevision_miss (revision : string) (c : Client) :
  LRU.peek revision (_revisionIdToFileChanges c) = None →
  0 < LRU.max (_revisionIdToFileChanges c) →
  let r := fetchFilesChangedAtRevision revision c in
  result r = HgService.fetchFilesChangedAtRevision (_service c) revision
  ∧ effects r = [Backend (FetchFilesChangedAtRevision revision)]
  ∧ LRU.peek revision (_revisionIdToFileChanges (after r)) = Some (result r).
Proof.
  intros Hpeek Hmax r. unfold r. rewrite run_fetchFilesChangedAtRevision, Hpeek.
  split_and!; [done|done|]. rewrite after_run, result_run. cbn. by apply peek_set.
Qed.

(** A hit on the content of a file at a revision. *)
Lemma fetchFileContentAtRevision_hit (filePath revision : string) (c : Client)
    (contents : string) :
  cachedContents c filePath revision = Some contents →
  let r := fetchFileContentAtRevision filePath revision c in
  result r = contents ∧ effects r = []
  ∧ cachedContents (after r) filePath revision = Some contents.
Proof.
  intros Hcached r. unfold cachedContents in *. unfold r.
  rewrite run_fetchFileContentAtRevision.
  destruct (LRU.peek revision _) as [contentsOfRevision|] eqn:Hpeek; [|done].
  simpl in Hcached. rewrite Hcached.
  split_and!; [done|done|]. rewrite after_run. cbn.
  rewrite (peek_get _ _ _ Hpeek). done.
Qed.

(** A miss on the content of a file at a revision. *)
Lemma fetchFileContentAtRevision_miss (filePath revision : string) (c : Client) :
  cachedContents c filePath revision = None →
  0 < LRU.max (_fileContentsAtRevisionIds c) →
  let r := fetchFileContentAtRevision filePath revision c in
  result r = HgService.fetchFileContentAtRevision (_service c) filePath revision
  ∧ effects r = [Backend (FetchFileContentAtRevision filePath revision)]
  ∧ cachedContents (after r) filePath revision = Some (result r).
Proof.
  intros Hcached Hmax r. unfold cachedContents in *. unfold r.
  rewrite run_fetchFileContentAtRevision.
  destruct (LRU.peek revision _) as [contentsOfRevision|] eqn:Hpeek.
  - simpl in Hcached. rewrite Hcached.
    split_and!; [done|done|]. rewrite after_run, result_run.
    cbn [_fileContentsAtRevisionIds set_fileContentsAtRevisionIds].
    rewrite peek_mutate, (peek_get _ _ _ Hpeek). simpl. apply lookup_insert_eq.
  - split_and!; [done|done|]. rewrite after_run, result_run.
    cbn [_fileContentsAtRevisionIds set_fileContentsAtRevisionIds].
    rewrite peek_mutate, peek_set by done. simpl. apply lookup_insert_eq.
Qed.

End RevisionCaches.

(** * Further properties *)

(** ** More on the diff cache *)

Section DiffCacheMore.
Context `{PathLib}.

Lemma markPathsToFetch_NoDup (filePaths : list string) (c : Client) :
  NoDup (markPathsToFetch filePaths c).1.
Proof.
  induction filePaths as [|aPath rest IH] in c |- *; simpl; [constructor|].
  destruct (_isPathRelevant aPath); simpl; [|apply IH].
  case_bool_decide as Hin; [apply IH|].
  pose proof (markPathsToFetch_fresh rest
    (set_hgDiffCacheFilesUpdating ({[aPath]} ∪ _hgDiffCacheFilesUpdating c) c) aPath) as Hfresh.
  specialize (IH (set_hgDiffCacheFilesUpdating ({[aPath]} ∪ _hgDiffCacheFilesUpdating c) c)).
  destruct (markPathsToFetch rest _) as [pathsToFetch c'] eqn:E. simpl in *.
  constructor; [|done]. intros Hp. apply Hfresh in Hp. set_solver.
Qed.

(** X1. The batch sent to [fetchDiffInfo] lists each requested path that is in
    the project and not already being fetched, once; when there is no such
    path the call sends nothing, changes nothing, emits nothing and returns
    the empty map. *)
Theorem updateDiffInfo_batch (c : Client) (filePaths : list string) :
  let pathsToFetch := (markPathsToFetch filePaths c).1 in
  let r := _updateDiffInfo filePaths c in
  NoDup pathsToFetch
  ∧ (∀ p, p ∈ pathsToFetch ↔
          p ∈ filePaths ∧ _isPathRelevant p = true ∧ p ∉ _hgDiffCacheFilesUpdating c)
  ∧ requests (effects r) =
      (if bool_decide (pathsToFetch = []) then [] else [FetchDiffInfo pathsToFetch])
  ∧ ((∀ p, p ∈ filePaths → _isPathRelevant p = true → p ∈ _hgDiffCacheFilesUpdating c) →
     r = (Some [], c, [])).
Proof.
  intros pathsToFetch r. split_and!.
  - apply markPathsToFetch_NoDup.
  - apply elem_of_markPathsToFetch.
  - apply requests_updateDiffInfo.
  - intros Hall.
    assert (pathsToFetch = []) as Hnil.
    { apply elem_of_nil_inv. intros p (Hp & Hrel & Hfresh)%elem_of_markPathsToFetch.
      by apply Hfresh, Hall. }
    unfold r. rewrite run_updateDiffInfo. fold pathsToFetch. by rewrite Hnil.
Qed.

Lemma lookup_mergeDiffInfo_listed (fetched : list (string * DiffInfo))
    (cache : gmap string DiffInfo) (p : string) (d : DiffInfo) :
  NoDup fetched.*1 → (p, d) ∈ fetched →
  foldl (λ cache entry, <[entry.1 := entry.2]> cache) cache fetched !! p = Some d.
Proof.
  induction fetched as [|[p0 d0] rest IH] in cache |- *; [by intros _ ?%elem_of_nil|].
  rewrite fmap_cons. intros [Hp0 Hnd]%NoDup_cons Hin. cbn [foldl fst snd] in *.
  apply elem_of_cons in Hin as [[= -> ->]|Hin]; [|by apply IH].
  rewrite lookup_mergeDiffInfo_other by done. apply lookup_insert_eq.
Qed.

(** X2. Whatever the backend answers, a call that reaches it returns the answer,
    emits one 'did-change-statuses' event, leaves the in-flight set as it
    found it, empties the queue of files to clear and leaves none of the
    queued files in the diff cache, fetched in this batch or not. *)
Theorem updateDiffInfo_settles (c : Client) (filePaths : list string) :
  let pathsToFetch := (markPathsToFetch filePaths c).1 in
  let r := _updateDiffInfo filePaths c in
  pathsToFetch ≠ [] →
  result r = HgService.fetchDiffInfo (_service c) pathsToFetch
  ∧ emitted (effects r) = [DidChangeStatuses]
  ∧ _hgDiffCacheFilesUpdating (after r) = _hgDiffCacheFilesUpdating c
  ∧ _hgDiffCacheFilesToClear (after r) = ∅
  ∧ (∀ p, p ∈ _hgDiffCacheFilesToClear c → _hgDiffCache (after r) !! p = None)
  ∧ (∀ e seen, Emit e seen ∈ effects r → seen = caches (after r)).
Proof.
  intros pathsToFetch r Hne.
  assert (Hfresh := markPathsToFetch_fresh filePaths c). fold pathsToFetch in Hfresh.
  unfold r. rewrite run_updateDiffInfo. fold pathsToFetch.
  rewrite bool_decide_eq_false_2 by (by destruct pathsToFetch).
  rewrite result_run, after_run, effects_run.
  unfold mergeDiffInfo.
  destruct (HgService.fetchDiffInfo (_service c) pathsToFetch) as [fetched|];
    (split_and!; [done|done| | done | |]).
  all: try (cbn; rewrite foldl_difference; apply set_eq; intros x;
            specialize (Hfresh x); set_solver).
  all: try (intros p Hp; cbn; rewrite lookup_foldl_delete;
            rewrite bool_decide_eq_true_2; [done|set_solver]).
  all: intros e seen Hin; apply elem_of_cons in Hin as [Hin|Hin]; [done|];
       by apply list_elem_of_singleton in Hin as [= -> ->].
Qed.

(** X3. A successful fetch can be read back: the diff info fetched for a path
    that is not queued for removal is what [getDiffStats] and [getLineDiffs]
    then return for it. *)
Theorem updateDiffInfo_read_back (c : Client) (filePaths : list string)
    (fetched : list (string * DiffInfo)) (p : string) (d : DiffInfo) (text : option string) :
  let pathsToFetch := (markPathsToFetch filePaths c).1 in
  let r := _updateDiffInfo filePaths c in
  pathsToFetch ≠ [] →
  HgService.fetchDiffInfo (_service c) pathsToFetch = Some fetched →
  NoDup fetched.*1 → (p, d) ∈ fetched →
  p ∉ _hgDiffCacheFilesToClear c → p ≠ "" →
  _hgDiffCache (after r) !! p = Some d
  ∧ getDiffStats (after r) (Some p) = {| stats_added := added d; stats_deleted := deleted d |}
  ∧ getLineDiffs (after r) (Some p) text = lineDiffs d.
Proof.
  intros pathsToFetch r Hne Hfetched Hnd Hin Hclear Hp.
  assert (Hcache : _hgDiffCache (after r) !! p = Some d).
  { unfold r. rewrite run_updateDiffInfo. fold pathsToFetch.
    rewrite bool_decide_eq_false_2 by (by destruct pathsToFetch).
    rewrite after_run, Hfetched. cbn. rewrite lookup_foldl_delete.
    rewrite bool_decide_eq_false_2 by set_solver.
    by apply lookup_mergeDiffInfo_listed. }
  split; [done|].
  unfold getDiffStats, getLineDiffs.
  assert (truthy (Some p) = Some p) as -> by (destruct p; [done|done]).
  by rewrite Hcache.
Qed.

End DiffCacheMore.

(** ** More on the status cache *)

Section StatusCacheMore.
Context `{PathLib}.

Lemma set_hgStatusCache_same (c : Client) : set_hgStatusCache (_hgStatusCache c) c = c.
Proof. by destruct c. Qed.

Lemma statusAfterEviction_idemp (o : option HgStatusOptionValue) (old : option StatusCodeIdValue) :
  statusAfterEviction o (statusAfterEviction o old) = statusAfterEviction o old.
Proof. unfold statusAfterEviction. destruct o as [[]|]; repeat case_bool_decide; done. Qed.

Lemma evictQueriedFile_lookup (o : option HgStatusOptionValue) (c : Client) (p p' : string) :
  _hgStatusCache (evictQueriedFile o c p) !! p' =
  if bool_decide (p' = p) then statusAfterEviction o (_hgStatusCache c !! p)
  else _hgStatusCache c !! p'.
Proof.
  destruct (decide (p' = p)) as [->|Hne].
  - rewrite bool_decide_eq_true_2 by done. unfold evictQueriedFile, statusAfterEviction.
    destruct o as [[]|]; repeat case_bool_decide; cbn; by simplify_map_eq.
  - rewrite bool_decide_eq_false_2 by done. unfold evictQueriedFile, statusAfterEviction.
    destruct o as [[]|]; repeat case_bool_decide; cbn; by simplify_map_eq.
Qed.

Lemma evictions_lookup_queried
    (o : option HgStatusOptionValue) (c : Client) (q : list string) (p : string) :
  p ∈ q →
  _hgStatusCache (foldl (evictQueriedFile o) c q) !! p =
  statusAfterEviction o (_hgStatusCache c !! p).
Proof.
  induction q as [|p0 q IH] in c |- *; [by intros ?%elem_of_nil|].
  intros Hin. cbn [foldl].
  destruct (decide (p ∈ q)) as [Hq|Hq].
  - rewrite IH by done. rewrite evictQueriedFile_lookup. case_bool_decide; [|done].
    subst. apply statusAfterEviction_idemp.
  - rewrite evictions_lookup_other by done.
    assert (p = p0) as -> by set_solver.
    rewrite evictQueriedFile_lookup. by rewrite bool_decide_eq_true_2.
Qed.

Lemma evictQueriedFile_settled (o : option HgStatusOptionValue) (c : Client) (p : string) :
  statusAfterEviction o (_hgStatusCache c !! p) = _hgStatusCache c !! p →
  evictQueriedFile o c p = c.
Proof.
  unfold evictQueriedFile, statusAfterEviction.
  destruct o as [[]|]; repeat case_bool_decide; intros Hs; try done;
    try (rewrite delete_id by done; apply set_hgStatusCache_same);
    try congruence.
Qed.

Lemma evictions_settled (o : option HgStatusOptionValue) (c : Client) (q : list string) :
  (∀ p, p ∈ q → statusAfterEviction o (_hgStatusCache c !! p) = _hgStatusCache c !! p) →
  foldl (evictQueriedFile o) c q = c.
Proof.
  induction q as [|p q IH]; [done|]. intros Hs. cbn [foldl].
  rewrite evictQueriedFile_settled by (apply Hs; set_solver).
  apply IH. intros p' Hp'. apply Hs. set_solver.
Qed.

Lemma loop_settled
    (c : Client) (evs : list Event) (q : list string)
    (statusMap : list (string * StatusCodeIdValue)) :
  (∀ p new, (p, new) ∈ statusMap → statusChanged (_hgStatusCache c !! p) new = false) →
  foldl onFetchedStatus (c, evs, q) statusMap = (c, evs, foldl Set_delete q statusMap.*1).
Proof.
  induction statusMap as [|[p new] rest IH] in q |- *; [done|].
  intros Hs. rewrite fmap_cons. cbn [foldl fst].
  unfold onFetchedStatus at 2. rewrite (Hs p new) by set_solver.
  apply IH. intros p' new' Hin. apply Hs. set_solver.
Qed.

Lemma statusChanged_statusAfter (old : option StatusCodeIdValue) (new : StatusCodeIdValue) :
  statusChanged (statusAfter old new) new = false.
Proof.
  unfold statusChanged, statusAfter. destruct old as [old|];
    repeat (case_bool_decide; simpl); try done; naive_solver.
Qed.

(** X4. A queried path that the answer does not list is dropped from the status
    cache according to the status option: always with all-statuses, only when
    cached as IGNORED with only-ignored, unless cached as IGNORED otherwise. *)
Theorem updateStatuses_eviction
    (c : Client) (filePaths : list string) (options : option HgStatusCommandOptions)
    (p : string) :
  let pathsInRepo := filter (λ filePath, _isPathRelevant filePath = true) filePaths in
  let statusMap := HgService.fetchStatuses (_service c) pathsInRepo options in
  let r := _updateStatuses filePaths options c in
  p ∈ pathsInRepo → p ∉ statusMap.*1 →
  _hgStatusCache (after r) !! p =
  match _getStatusOption options with
  | Some HgStatusOption.ALL_STATUSES => None
  | Some HgStatusOption.ONLY_IGNORED =>
      if bool_decide (_hgStatusCache c !! p = Some StatusCodeId.IGNORED) then None
      else _hgStatusCache c !! p
  | _ =>
      if bool_decide (_hgStatusCache c !! p = Some StatusCodeId.IGNORED)
      then Some StatusCodeId.IGNORED else None
  end.
Proof.
  intros pathsInRepo statusMap r Hq Hp.
  assert (Hev : _hgStatusCache (after r) !! p
                = statusAfterEviction (_getStatusOption options) (_hgStatusCache c !! p)).
  { unfold r. rewrite run_updateStatuses. fold pathsInRepo statusMap.
    rewrite bool_decide_eq_false_2
      by (destruct pathsInRepo; [by apply elem_of_nil in Hq|done]).
    rewrite after_run, updateStatusCaches_unfold. cbn [snd].
    rewrite evictions_lookup_queried.
    - by rewrite loop_lookup_other.
    - rewrite elem_of_foldl_Set_delete, elem_of_Set_new. done. }
  rewrite Hev. unfold statusAfterEviction.
  destruct (_getStatusOption options) as [[]|]; repeat case_bool_decide; congruence.
Qed.

(** X5. The path-level events of an update are those of the answer's entries
    whose status differs from the cached one, in the order of the answer: at
    most one per path. *)
Theorem updateStatuses_event_order
    (c : Client) (filePaths : list string) (options : option HgStatusCommandOptions) :
  let pathsInRepo := filter (λ filePath, _isPathRelevant filePath = true) filePaths in
  let statusMap := HgService.fetchStatuses (_service c) pathsInRepo options in
  let r := _updateStatuses filePaths options c in
  pathsInRepo ≠ [] → NoDup statusMap.*1 →
  emitted (effects r) =
    ((λ entry, DidChangeStatus entry.1 (StatusCodeIdToNumber entry.2))
       <$> filter (λ entry, _hgStatusCache c !! entry.1 ≠ _hgStatusCache (after r) !! entry.1)
             statusMap)
    ++ [DidChangeStatuses].
Proof.
  intros pathsInRepo statusMap r Hne Hnd.
  assert (Hafter : ∀ p new, (p, new) ∈ statusMap →
            _hgStatusCache (after r) !! p = statusAfter (_hgStatusCache c !! p) new).
  { intros p new Hin. unfold r. apply updateStatuses_lookup_listed.
    - rewrite run_updateStatuses. fold pathsInRepo statusMap.
      rewrite bool_decide_eq_false_2 by (by destruct pathsInRepo). done.
    - rewrite run_updateStatuses. fold pathsInRepo statusMap.
      rewrite bool_decide_eq_false_2 by (by destruct pathsInRepo). done. }
  unfold r at 1. rewrite run_updateStatuses. fold pathsInRepo statusMap.
  rewrite bool_decide_eq_false_2 by (by destruct pathsInRepo).
  rewrite effects_run, elem_of_emitted_run by exact DidChangeStatuses.
  rewrite updateStatusCaches_events by done. f_equal.
  clear Hnd. revert Hafter. generalize (_hgStatusCache (after r)). intros cacheAfter Hafter.
  induction statusMap as [|[p new] rest IH]; [done|].
  rewrite omap_cons_app. unfold changeEventOf at 1. cbn [fst snd].
  assert (Hthis := Hafter p new ltac:(set_solver)).
  assert (Hrest : omap (changeEventOf (_hgStatusCache c)) rest =
            (λ entry, DidChangeStatus entry.1 (StatusCodeIdToNumber entry.2))
              <$> filter (λ entry, _hgStatusCache c !! entry.1 ≠ cacheAfter !! entry.1) rest).
  { apply IH. intros p' new' Hin. apply Hafter. set_solver. }
  destruct (statusChanged (_hgStatusCache c !! p) new) eqn:Hch.
  - rewrite filter_cons_True.
    + rewrite fmap_cons. cbn [fst snd from_option app]. by rewrite Hrest.
    + cbn [fst]. rewrite Hthis. intros Heq. symmetry in Heq.
      apply statusAfter_changed in Hch. done.
  - rewrite filter_cons_False.
    + cbn [from_option app]. exact Hrest.
    + cbn [fst]. rewrite Hthis. intros Hneq. apply Hneq. symmetry.
      destruct (decide (statusAfter (_hgStatusCache c !! p) new = _hgStatusCache c !! p))
        as [?|Hd]; [done|].
      apply statusAfter_changed in Hd. congruence.
Qed.

(** X6. Updating twice is updating once: a second [_updateStatuses] with the same
    arguments, the backend answering as before, changes nothing in the client
    and emits no 'did-change-status' event, only the coarse event. *)
Theorem updateStatuses_idempotent
    (c : Client) (filePaths : list string) (options : option HgStatusCommandOptions) :
  let pathsInRepo := filter (λ filePath, _isPathRelevant filePath = true) filePaths in
  let statusMap := HgService.fetchStatuses (_service c) pathsInRepo options in
  let r1 := _updateStatuses filePaths options c in
  let r2 := _updateStatuses filePaths options (after r1) in
  NoDup statusMap.*1 →
  after r2 = after r1
  ∧ result r2 = result r1
  ∧ emitted (effects r2) = (if bool_decide (pathsInRepo = []) then [] else [DidChangeStatuses]).
Proof.
  intros pathsInRepo statusMap r1 r2 Hnd.
  destruct (outsideStatus_fields (after r1) c (updateStatuses_outside _ _ _)) as (Hsvc & _).
  assert (Hr1 := run_updateStatuses filePaths options c).
  assert (Hr2 := run_updateStatuses filePaths options (after r1)).
  cbv zeta in Hr1, Hr2. fold pathsInRepo in Hr1, Hr2. fold r1 in Hr1. fold r2 in Hr2.
  fold r1 in Hsvc. rewrite Hsvc in Hr2. fold statusMap in Hr1, Hr2.
  destruct (decide (pathsInRepo = [])) as [Hnil|Hne].
  { rewrite Hnil in Hr1, Hr2. simpl in Hr1, Hr2.
    rewrite bool_decide_eq_true_2 by done. rewrite Hr2, Hr1. done. }
  rewrite bool_decide_eq_false_2 in Hr1, Hr2 by (by destruct pathsInRepo).
  rewrite (bool_decide_eq_false_2 (pathsInRepo = [])) by done.
  set (c1 := after r1) in *.
  assert (Hc1 : c1 = (updateStatusCaches pathsInRepo options statusMap c).2)
    by (unfold c1; by rewrite Hr1).
  assert (Hlisted : ∀ p new, (p, new) ∈ statusMap →
            statusChanged (_hgStatusCache c1 !! p) new = false).
  { intros p new Hin. rewrite Hc1.
    rewrite (updateStatusCaches_lookup_listed _ _ _ _ p new) by done.
    apply statusChanged_statusAfter. }
  assert (Hburied : ∀ p, p ∈ foldl Set_delete (Set_new pathsInRepo) statusMap.*1 →
            statusAfterEviction (_getStatusOption options) (_hgStatusCache c1 !! p)
            = _hgStatusCache c1 !! p).
  { intros p Hp. rewrite Hc1, updateStatusCaches_unfold. cbn [snd].
    rewrite evictions_lookup_queried by done. apply statusAfterEviction_idemp. }
  assert (Hsame : updateStatusCaches pathsInRepo options statusMap c1 = ([], c1)).
  { rewrite updateStatusCaches_unfold. rewrite loop_settled by done. cbn [fst snd].
    by rewrite evictions_settled. }
  rewrite Hsame in Hr2. cbn [fst snd] in Hr2.
  rewrite Hr2, Hr1. rewrite !after_run, !result_run, effects_run.
  split_and!; [done|done|]. done.
Qed.

End StatusCacheMore.

Section GetStatusesMore.
Context `{PathLib}.

(** X7. [getStatuses] asks the backend, in one batch, for exactly the requested
    paths that are in the project and not in the status cache.  When there is
    none (in particular for the empty list) it asks nothing, changes nothing
    and returns the cached statuses of the requested paths that pass the
    filter. *)
Theorem getStatuses_batch
    (c : Client) (paths : list string) (options : option HgStatusCommandOptions) :
  let queried :=
    filter (λ filePath, _isPathRelevant filePath = true)
      (filter (λ p, _hgStatusCache c !! p = None) paths) in
  let r := getStatuses paths options c in
  requests (effects r) =
    (if bool_decide (queried = []) then [] else [FetchStatuses queried options])
  ∧ (queried = [] →
     effects r = [] ∧ after r = c
     ∧ ∀ k, result r !! k =
            match _hgStatusCache c !! k with
            | Some st =>
                if _getPredicateForRelevantStatuses options st && bool_decide (k ∈ paths)
                then Some (StatusCodeIdToNumber st) else None
            | None => None
            end).
Proof.
  intros queried r. unfold r. rewrite run_getStatuses.
  rewrite effects_run, after_run, result_run. split.
  - rewrite requests_updateStatuses. fold queried. by destruct queried.
  - intros Hnil. rewrite run_updateStatuses. fold queried. rewrite Hnil. simpl.
    split_and!; [done|done|]. intros k. rewrite checkTheCache_lookup, lookup_empty. done.
Qed.

End GetStatusesMore.

Section Readers.
Context `{PathLib}.

Lemma StatusCodeIdToNumber_inj (a b : StatusCodeIdValue) :
  StatusCodeIdToNumber a = StatusCodeIdToNumber b → a = b.
Proof. by destruct a, b. Qed.

(** X8. The synchronous predicates agree with [getCachedPathStatus]: a path is
    modified, new, added or untracked exactly when its cached status says so;
    it is ignored when its cached status says so or when it is not cached and
    lies within the [.hg] directory. *)
Theorem path_predicates_read_the_cache (getPath : string) (c : Client) (filePath : option string) :
  isPathModified c filePath = isStatusModified (Some (getCachedPathStatus c filePath))
  ∧ isPathNew c filePath = isStatusNew (Some (getCachedPathStatus c filePath))
  ∧ isPathNew c filePath = isPathAdded c filePath || isPathUntracked c filePath
  ∧ isPathAdded c filePath = isStatusAdded (Some (getCachedPathStatus c filePath))
  ∧ isPathUntracked c filePath = isStatusUntracked (Some (getCachedPathStatus c filePath))
  ∧ isPathIgnored getPath c filePath =
      isStatusIgnored (Some (getCachedPathStatus c filePath))
      || match truthy filePath with
         | Some p => bool_decide (_hgStatusCache c !! p = None) && _isPathWithinHgRepo getPath p
         | None => false
         end.
Proof.
  unfold isPathModified, isPathNew, isPathAdded, isPathUntracked, isPathIgnored,
    getCachedPathStatus.
  destruct (truthy filePath) as [p|]; [|done].
  destruct (_hgStatusCache c !! p) as [st|].
  - split_and!; try done.
    all: rewrite bool_decide_eq_false_2 by done; by rewrite orb_false_r.
  - split_and!; try done.
    all: by rewrite bool_decide_eq_true_2.
Qed.

(** X9. [getAllPathStatuses] lists what [getCachedPathStatus] reads, and after any
    sequence of status updates it lists no path as CLEAN. *)
Theorem getAllPathStatuses_agrees (c : Client) (p : string) :
  p ≠ "" →
  getCachedPathStatus c (Some p) = default StatusCodeNumber.CLEAN (getAllPathStatuses c !! p)
  ∧ (afterStatusUpdates c → getAllPathStatuses c !! p ≠ Some StatusCodeNumber.CLEAN).
Proof.
  intros Hp. unfold getCachedPathStatus, getAllPathStatuses.
  assert (truthy (Some p) = Some p) as -> by (by destruct p).
  rewrite lookup_fmap. split.
  - by destruct (_hgStatusCache c !! p).
  - intros Hc. pose proof (afterStatusUpdates_no_clean c Hc p) as Hno.
    destruct (_hgStatusCache c !! p) as [st|]; [|done]. simpl.
    intros [= Hst]. apply Hno. f_equal.
    by apply (StatusCodeIdToNumber_inj st StatusCodeId.CLEAN).
Qed.

(** X10. When a commit completes, the status and diff caches read as empty
    through every getter; the backend was asked once and its messages are
    returned; the sets of files being fetched and of files to clear are left
    as they were. *)
Theorem commit_clears_the_readers (c : Client) (message : string) (filePath : option string)
    (text : option string) :
  let r := commit message c in
  result r = HgService.commit (_service c) message
  ∧ requests (effects r) = [Commit message]
  ∧ emitted (effects r) = [DidChangeStatuses]
  ∧ getCachedPathStatus (after r) filePath = StatusCodeNumber.CLEAN
  ∧ getAllPathStatuses (after r) = ∅
  ∧ isPathModified (after r) filePath = false
  ∧ getDiffStats (after r) filePath = {| stats_added := 0; stats_deleted := 0 |}
  ∧ getLineDiffs (after r) filePath text = []
  ∧ _hgDiffCacheFilesUpdating (after r) = _hgDiffCacheFilesUpdating c
  ∧ _hgDiffCacheFilesToClear (after r) = _hgDiffCacheFilesToClear c.
Proof.
  intros r. unfold r, commit, _clearClientCache. autorewrite with run.
  unfold getCachedPathStatus, getAllPathStatuses, isPathModified, getDiffStats, getLineDiffs.
  cbn. rewrite fmap_empty. destruct (truthy filePath); split_and!; done.
Qed.

(** X11. When an amend completes, the status and diff caches read as empty
    through every getter; the backend was asked once, with the message and
    the amend mode, and its messages are returned. *)
Theorem amend_clears_the_readers (c : Client) (message : option string) (amendMode : string)
    (filePath : option string) (text : option string) :
  let r := amend message amendMode c in
  result r = HgService.amend (_service c) message amendMode
  ∧ requests (effects r) = [Amend message amendMode]
  ∧ emitted (effects r) = [DidChangeStatuses]
  ∧ getCachedPathStatus (after r) filePath = StatusCodeNumber.CLEAN
  ∧ getAllPathStatuses (after r) = ∅
  ∧ isPathModified (after r) filePath = false
  ∧ getDiffStats (after r) filePath = {| stats_added := 0; stats_deleted := 0 |}
  ∧ getLineDiffs (after r) filePath text = [].
Proof.
  intros r. unfold r, amend, _clearClientCache. autorewrite with run.
  unfold getCachedPathStatus, getAllPathStatuses, isPathModified, getDiffStats, getLineDiffs.
  cbn. rewrite fmap_empty. destruct (truthy filePath); split_and!; done.
Qed.

End Readers.

(** ** The modified-directory index after a full refresh *)

Section FullRefresh.
Context `{PathLib}.

Lemma addItemToCache_is_Some (cache : gmap string nat) (d d' : string) :
  is_Some (addItemToCache cache d !! d') ↔ d' = d ∨ is_Some (cache !! d').
Proof.
  unfold addItemToCache. destruct (decide (d' = d)) as [->|Hne].
  - rewrite lookup_insert_eq. split; [by left|by eexists].
  - rewrite lookup_insert_ne by done. naive_solver.
Qed.

Lemma addAllParentDirectoriesToCache_is_Some_iff
    (cache : gmap string nat) (filePath base d : string) :
  is_Some (addAllParentDirectoriesToCache cache filePath base !! d) ↔
  is_Some (cache !! d) ∨ d ∈ getAllParentDirectories filePath base.
Proof.
  unfold addAllParentDirectoriesToCache.
  induction (getAllParentDirectories filePath base) as [|d0 l IH] in cache |- *;
    [set_solver|].
  cbn [foldl]. rewrite IH, addItemToCache_is_Some. set_solver.
Qed.

(** The first loop over an answer none of whose paths is cached: the index
    gains the ancestors of the paths reported MODIFIED and loses nothing. *)
Lemma loop_index_uncached
    (c : Client) (evs : list Event) (q : list string)
    (statusMap : list (string * StatusCodeIdValue)) (d : string) :
  NoDup statusMap.*1 →
  (∀ p, p ∈ statusMap.*1 → _hgStatusCache c !! p = None) →
  is_Some (_modifiedDirectoryCache (foldl onFetchedStatus (c, evs, q) statusMap).1.1 !! d) ↔
  is_Some (_modifiedDirectoryCache c !! d)
  ∨ ∃ p, (p, StatusCodeId.MODIFIED) ∈ statusMap
         ∧ d ∈ getAllParentDirectories p projectDirectory_getParent_getPath.
Proof.
  induction statusMap as [|[p new] rest IH] in c, evs, q |- *.
  { intros _ _. cbn. split; [by left|]. intros [?|(p & Hp & _)]; [done|].
    by apply elem_of_nil in Hp. }
  rewrite fmap_cons. intros [Hp Hnd]%NoDup_cons Hnone. cbn [foldl fst] in *.
  destruct (onFetchedStatus (c, evs, q) (p, new)) as [[c' evs'] q'] eqn:E.
  assert (Hc' : c' = (onFetchedStatus (c, evs, q) (p, new)).1.1) by by rewrite E.
  rewrite IH; [|done|].
  2:{ intros p' Hp'. rewrite Hc', onFetchedStatus_lookup.
      rewrite bool_decide_eq_false_2 by set_solver. apply Hnone. set_solver. }
  assert (Hidx : is_Some (_modifiedDirectoryCache c' !! d) ↔
                 is_Some (_modifiedDirectoryCache c !! d)
                 ∨ (new = StatusCodeId.MODIFIED
                    ∧ d ∈ getAllParentDirectories p projectDirectory_getParent_getPath)).
  { rewrite Hc'. unfold onFetchedStatus. rewrite (Hnone p) by set_solver.
    unfold statusChanged, storeFetchedStatus.
    destruct (decide (new = StatusCodeId.CLEAN)) as [->|Hclean].
    { rewrite bool_decide_eq_false_2 by (intros ?; done). cbn [fst].
      split; [by left|]. by intros [?|[? _]]. }
    rewrite (bool_decide_eq_true_2 (new ≠ StatusCodeId.CLEAN)) by done.
    rewrite (bool_decide_eq_false_2 (new = StatusCodeId.CLEAN)) by done. cbn [fst].
    destruct (decide (new = StatusCodeId.MODIFIED)) as [->|Hmod].
    - rewrite bool_decide_eq_true_2 by done.
      cbn [_addAllParentDirectoriesToCache _modifiedDirectoryCache set_modifiedDirectoryCache
           set_hgStatusCache].
      rewrite addAllParentDirectoriesToCache_is_Some_iff. tauto.
    - rewrite bool_decide_eq_false_2 by done.
      cbn [_modifiedDirectoryCache set_hgStatusCache].
      split; [by left|]. by intros [?|[? _]]. }
  rewrite Hidx. split.
  - intros [[?|[-> ?]]|(p' & Hin & ?)]; [by left| |].
    + right. exists p. split; [set_solver|done].
    + right. exists p'. split; [set_solver|done].
  - intros [?|(p' & Hin & Hd)]; [by left; left|].
    apply elem_of_cons in Hin as [[= -> ->]|Hin]; [left; by right|].
    right. by exists p'.
Qed.

Lemma evictQueriedFile_index_eq (o : option HgStatusOptionValue) (c : Client) (p : string) :
  _hgStatusCache c !! p ≠ Some StatusCodeId.MODIFIED →
  _modifiedDirectoryCache (evictQueriedFile o c p) = _modifiedDirectoryCache c.
Proof.
  intros Hp. unfold evictQueriedFile. destruct o as [[]|]; repeat case_bool_decide; done.
Qed.

Lemma evictions_index_eq (o : option HgStatusOptionValue) (c : Client) (q : list string) :
  (∀ p, p ∈ q → _hgStatusCache c !! p ≠ Some StatusCodeId.MODIFIED) →
  _modifiedDirectoryCache (foldl (evictQueriedFile o) c q) = _modifiedDirectoryCache c.
Proof.
  induction q as [|p q IH] in c |- *; [done|]. intros Hq. cbn [foldl].
  rewrite IH.
  - apply evictQueriedFile_index_eq, Hq. set_solver.
  - intros p' Hp'. rewrite evictQueriedFile_lookup. case_bool_decide.
    + subst p'. unfold statusAfterEviction.
      destruct o as [[]|]; repeat case_bool_decide; try done; try congruence;
        apply Hq; set_solver.
    + apply Hq. set_solver.
Qed.

(** [_refreshStatusesOfAllFilesInCache], run. *)
Lemma run_refreshStatusesOfAllFilesInCache (c : Client) :
  let emptied := set_hgDiffCache ∅ (set_modifiedDirectoryCache ∅ (set_hgStatusCache ∅ c)) in
  let r1 := _updateStatuses [getProjectDirectory]
              (Some {| hgStatusOption := HgStatusOption.ONLY_NON_IGNORED |}) emptied in
  let r2 := _updateDiffInfo (map_to_list (_hgDiffCache c)).*1 (after r1) in
  _refreshStatusesOfAllFilesInCache c = (tt, after r2, effects r1 ++ effects r2).
Proof.
  intros emptied r1 r2. unfold _refreshStatusesOfAllFilesInCache.
  autorewrite with run. cbn [_hgDiffCache set_modifiedDirectoryCache set_hgStatusCache].
  fold emptied r1.
  case_bool_decide as Hlen.
  - autorewrite with run. done.
  - assert ((map_to_list (_hgDiffCache c)).*1 = []) as Hnil
      by (destruct ((map_to_list (_hgDiffCache c)).*1); simpl in *; [done|lia]).
    autorewrite with run. unfold r2. rewrite Hnil, run_updateDiffInfo. simpl.
    by rewrite app_nil_r.
Qed.

(** X12. After a full refresh the status cache holds exactly the non-CLEAN entries
    of the backend's answer, and [getDirectoryStatus] reports MODIFIED for a
    directory exactly when it is an ancestor directory of a path cached as
    MODIFIED. *)
Theorem refresh_rebuilds_the_index (c : Client) :
  let options := Some {| hgStatusOption := HgStatusOption.ONLY_NON_IGNORED |} in
  let statusMap := HgService.fetchStatuses (_service c) [getProjectDirectory] options in
  let r := _refreshStatusesOfAllFilesInCache c in
  NoDup statusMap.*1 →
  (∀ p st, _hgStatusCache (after r) !! p = Some st ↔
           (p, st) ∈ statusMap ∧ st ≠ StatusCodeId.CLEAN)
  ∧ (∀ directoryPath, directoryPath ≠ "" →
       getDirectoryStatus (after r) (Some directoryPath) = StatusCodeNumber.MODIFIED ↔
       ∃ p, _hgStatusCache (after r) !! p = Some StatusCodeId.MODIFIED
            ∧ normalizeDir directoryPath
              ∈ getAllParentDirectories p projectDirectory_getParent_getPath).
Proof.
  intros options statusMap r Hnd.
  set (emptied := set_hgDiffCache ∅ (set_modifiedDirectoryCache ∅ (set_hgStatusCache ∅ c))).
  set (r1 := _updateStatuses [getProjectDirectory] options emptied).
  assert (Hafter : _hgStatusCache (after r) = _hgStatusCache (after r1)
                   ∧ _modifiedDirectoryCache (after r) = _modifiedDirectoryCache (after r1)).
  { unfold r. rewrite run_refreshStatusesOfAllFilesInCache, after_run.
    apply updateDiffInfo_status. }
  destruct Hafter as [Hcache Hindex].
  assert (Hrel : filter (λ filePath, _isPathRelevant filePath = true) [getProjectDirectory]
                 = [getProjectDirectory]).
  { rewrite filter_cons_True by apply projectDirectory_relevant. done. }
  assert (Hr1 : after r1 = (updateStatusCaches [getProjectDirectory] options statusMap emptied).2).
  { unfold r1. rewrite run_updateStatuses, Hrel. done. }
  assert (Hstatus : ∀ p st, _hgStatusCache (after r1) !! p = Some st ↔
                            (p, st) ∈ statusMap ∧ st ≠ StatusCodeId.CLEAN).
  { intros p st. rewrite Hr1. split.
    - intros [Hst|?]%updateStatusCaches_lookup_Some; [|done].
      cbn in Hst. by rewrite lookup_empty in Hst.
    - intros [Hin Hst].
      rewrite (updateStatusCaches_lookup_listed _ _ _ _ p st) by done.
      cbn. rewrite lookup_empty. unfold statusAfter. by rewrite bool_decide_eq_true_2. }
  assert (Hdirs : ∀ d, is_Some (_modifiedDirectoryCache (after r1) !! d) ↔
                       ∃ p, (p, StatusCodeId.MODIFIED) ∈ statusMap
                            ∧ d ∈ getAllParentDirectories p projectDirectory_getParent_getPath).
  { intros d. rewrite Hr1, updateStatusCaches_unfold. cbn [snd].
    rewrite evictions_index_eq.
    - rewrite loop_index_uncached; [|done|by intros; cbn; rewrite lookup_empty].
      cbn. rewrite lookup_empty. split; [intros [[? ?]|?]; done|by right].
    - intros p [_ Hp]%elem_of_foldl_Set_delete.
      rewrite loop_lookup_other by done. cbn. by rewrite lookup_empty. }
  split_and!.
  - intros p st. rewrite Hcache. apply Hstatus.
  - intros directoryPath Hne. unfold getDirectoryStatus.
    assert (truthy (Some directoryPath) = Some directoryPath) as -> by (by destruct directoryPath).
    rewrite Hindex, Hcache. case_bool_decide as Hd.
    + split; [intros _|done]. apply Hdirs in Hd as (p & Hin & Hd).
      exists p. split; [|done]. by apply Hstatus.
    + split; [done|]. intros (p & [Hin _]%Hstatus & Hp). exfalso. apply Hd, Hdirs.
      by exists p.
Qed.

End FullRefresh.

(** ** Teardown and the editors *)

Section TeardownMore.
Context `{PathLib}.

Lemma disposed_app (l1 l2 : list Effect) : disposed (l1 ++ l2) = disposed l1 ++ disposed l2.
Proof. apply omap_app. Qed.

Lemma disposed_disposals (paths : list string) :
  disposed ((λ filePath, Dispose (EditorSubscription filePath)) <$> paths)
  = EditorSubscription <$> paths.
Proof. induction paths as [|p paths IH]; [done|]. simpl. f_equal. exact IH. Qed.

Lemma emitted_disposals (paths : list string) :
  emitted ((λ filePath, Dispose (EditorSubscription filePath)) <$> paths) = [].
Proof. induction paths as [|p paths IH]; [done|]. simpl. exact IH. Qed.

(** X13. The first [destroy] disposes every editor subscription, emits
    'did-destroy' and then disposes the client's subscriptions; it leaves the
    status, directory and diff caches as they are and empties both revision
    caches, so that the next lookup of any revision goes to the backend. *)
Theorem destroy_tears_down (c : Client) :
  isDestroyed c = false →
  let r := destroy c in
  effects r =
    ((λ filePath, Dispose (EditorSubscription filePath)) <$> _editorSubscriptions c)
    ++ [Emit DidDestroy (caches c); Dispose Subscriptions]
  ∧ disposed (effects r) = (EditorSubscription <$> _editorSubscriptions c) ++ [Subscriptions]
  ∧ emitted (effects r) = [DidDestroy]
  ∧ _editorSubscriptions (after r) = []
  ∧ caches (after r) = caches c
  ∧ (∀ revision,
       effects (fetchFilesChangedAtRevision revision (after r))
       = [Backend (FetchFilesChangedAtRevision revision)])
  ∧ (∀ filePath revision,
       effects (fetchFileContentAtRevision filePath revision (after r))
       = [Backend (FetchFileContentAtRevision filePath revision)]).
Proof.
  intros Hd r. unfold isDestroyed in Hd. unfold r. rewrite run_destroy, Hd.
  cbv zeta. rewrite effects_run, after_run. split_and!.
  - done.
  - rewrite disposed_app, disposed_disposals. done.
  - rewrite emitted_app, emitted_disposals. done.
  - done.
  - done.
  - intros revision. rewrite run_fetchFilesChangedAtRevision. done.
  - intros filePath revision. rewrite run_fetchFileContentAtRevision. done.
Qed.

(** X14. An editor is subscribed to once per path: observing an editor adds its
    path to the subscriptions only if the path is non-empty, relevant and not
    yet subscribed, and observing it again changes nothing. *)
Theorem observeTextEditor_once (c : Client) (filePath : option string) :
  let r := observeTextEditor filePath c in
  effects r = []
  ∧ (∀ p, p ∈ _editorSubscriptions (after r) ↔
          p ∈ _editorSubscriptions c
          ∨ (truthy filePath = Some p ∧ _isPathRelevant p = true))
  ∧ (NoDup (_editorSubscriptions c) → NoDup (_editorSubscriptions (after r)))
  ∧ observeTextEditor filePath (after r) = (tt, after r, []).
Proof.
  intros r. unfold r, observeTextEditor.
  destruct (truthy filePath) as [p0|] eqn:Hp0.
  2:{ rewrite run_ret, effects_run, !after_run. split_and!; [done| |done|done].
      intros p. split; [by left|]. by intros [?|[? _]]. }
  destruct (_isPathRelevant p0) eqn:Hrel; cbn [negb].
  2:{ rewrite run_ret, effects_run, !after_run. split_and!; [done| |done|done].
      intros p. split; [by left|]. intros [?|[[= ->] ?]]; [done|congruence]. }
  rewrite run_bind, run_gets, result_run, after_run, effects_run.
  case_bool_decide as Hin.
  - rewrite run_ret, effects_run, !after_run. split_and!; [done| |done|].
    + intros p. split; [by left|]. intros [?|[[= ->] ?]]; done.
    + rewrite run_bind, run_gets, result_run, after_run, effects_run.
      by rewrite bool_decide_eq_true_2.
  - rewrite run_modify, effects_run, !after_run.
    cbn [_editorSubscriptions set_editorSubscriptions]. split_and!; [done| | |].
    + intros p. rewrite elem_of_app, list_elem_of_singleton. split.
      * intros [?|Heq]; [by left|]. subst p. by right.
      * intros [?|[[= ->] _]]; [by left|by right].
    + intros Hnd. apply NoDup_app. split_and!; [done| |apply NoDup_singleton].
      intros p Hp ->%list_elem_of_singleton. done.
    + rewrite run_bind, run_gets, result_run, after_run, effects_run.
      cbn [_editorSubscriptions set_editorSubscriptions].
      rewrite bool_decide_eq_true_2 by set_solver. done.
Qed.

(** What a completed diff fetch does to the files queued for removal. *)
Lemma updateDiffInfo_clears_queued (c : Client) (filePaths : list string) (p : string) :
  (markPathsToFetch filePaths c).1 ≠ [] →
  p ∈ _hgDiffCacheFilesToClear c →
  _hgDiffCache (after (_updateDiffInfo filePaths c)) !! p = None.
Proof.
  intros Hne Hp. rewrite run_updateDiffInfo.
  rewrite bool_decide_eq_false_2 by (by destruct (markPathsToFetch filePaths c).1).
  rewrite after_run. unfold mergeDiffInfo.
  destruct (HgService.fetchDiffInfo _ _); cbn; rewrite lookup_foldl_delete;
    rewrite bool_decide_eq_true_2; done || set_solver.
Qed.

(** [editorDidDestroy], run. *)
Lemma run_editorDidDestroy (filePath : string) (c : Client) :
  let queued :=
    set_hgDiffCacheFilesToClear ({[filePath]} ∪ _hgDiffCacheFilesToClear c) c in
  editorDidDestroy filePath c =
  if bool_decide (filePath ∈ _editorSubscriptions c) then
    (tt,
     set_editorSubscriptions
       (filter (λ other, other ≠ filePath) (_editorSubscriptions c)) queued,
     [Dispose (EditorSubscription filePath)])
  else (tt, queued, []).
Proof.
  intros queued. unfold editorDidDestroy, mbind, M_bind. cbn.
  case_bool_decide; reflexivity.
Qed.

(** X15. Closing an editor defers the removal of its diff info: the callback
    leaves the diff cache as it is, queues the path and disposes the editor's
    subscription; the next diff fetch that completes removes the path from
    the diff cache, even when it fetched diff info for it. *)
Theorem editorDidDestroy_defers_removal (c : Client) (filePath : string) :
  let r := editorDidDestroy filePath c in
  _hgDiffCache (after r) = _hgDiffCache c
  ∧ _hgDiffCacheFilesToClear (after r) = ({[filePath]} ∪ _hgDiffCacheFilesToClear c)
  ∧ (filePath ∉ _editorSubscriptions (after r))
  ∧ disposed (effects r) =
      (if bool_decide (filePath ∈ _editorSubscriptions c)
       then [EditorSubscription filePath] else [])
  ∧ ∀ (filePaths : list string) (text : option string),
      (markPathsToFetch filePaths (after r)).1 ≠ [] →
      let fetch := _updateDiffInfo filePaths (after r) in
      _hgDiffCache (after fetch) !! filePath = None
      ∧ getDiffStats (after fetch) (Some filePath) = {| stats_added := 0; stats_deleted := 0 |}
      ∧ getLineDiffs (after fetch) (Some filePath) text = [].
Proof.
  intros r.
  assert (Hr : _hgDiffCache (after r) = _hgDiffCache c
               ∧ _hgDiffCacheFilesToClear (after r) = ({[filePath]} ∪ _hgDiffCacheFilesToClear c)
               ∧ (filePath ∉ _editorSubscriptions (after r))
               ∧ disposed (effects r) =
                   (if bool_decide (filePath ∈ _editorSubscriptions c)
                    then [EditorSubscription filePath] else [])).
  { unfold r. rewrite run_editorDidDestroy. case_bool_decide as Hin.
    - rewrite after_run, effects_run. split_and!; [done|done| |done].
      cbn. rewrite list_elem_of_filter. tauto.
    - rewrite after_run, effects_run. done. }
  destruct Hr as (Hdiff & Hclear & Hsubs & Hdisp). split_and!; try done.
  intros filePaths text Hne fetch.
  assert (Hnone : _hgDiffCache (after fetch) !! filePath = None).
  { apply updateDiffInfo_clears_queued; [done|]. rewrite Hclear. set_solver. }
  split; [done|]. unfold getDiffStats, getLineDiffs.
  destruct (truthy (Some filePath)) as [p|] eqn:Hp; [|done].
  assert (p = filePath) as -> by (destruct filePath; simpl in Hp; congruence).
  by rewrite Hnone.
Qed.

End TeardownMore.

Section ContentsMore.

(** X16. Storing the content of one file at a revision keeps the contents cached
    for the other files of that revision. *)
Theorem fetchFileContentAtRevision_keeps_siblings
    (c : Client) (filePath otherPath revision contents : string) :
  cachedContents c otherPath revision = Some contents →
  cachedContents (after (fetchFileContentAtRevision filePath revision c)) otherPath revision
  = Some contents.
Proof.
  intros Hcached. unfold cachedContents in *. rewrite run_fetchFileContentAtRevision.
  destruct (LRU.peek revision _) as [contentsOfRevision|] eqn:Hpeek; [|done].
  simpl in Hcached.
  destruct (contentsOfRevision !! filePath) as [committed|] eqn:Hfile.
  - rewrite after_run. cbn [_fileContentsAtRevisionIds set_fileContentsAtRevisionIds].
    by rewrite (peek_get _ _ _ Hpeek).
  - rewrite after_run. cbn [_fileContentsAtRevisionIds set_fileContentsAtRevisionIds].
    rewrite peek_mutate, (peek_get _ _ _ Hpeek). simpl.
    rewrite lookup_insert_ne; [done|]. congruence.
Qed.

End ContentsMore.

(** ** How long a revision stays cached *)

Section Recency.
Context {V : Type}.
Implicit Types (l front back : list (string * V)) (T : gset string).

Lemma find_app_fresh key l1 l2 :
  key ∉ l1.*1 → LRU.find key (l1 ++ l2) = LRU.find key l2.
Proof.
  induction l1 as [|[k v] l1 IH]; [done|]. rewrite fmap_cons. cbn [fst]. intros Hk.
  simpl. rewrite decide_False by set_solver. apply IH. set_solver.
Qed.

Lemma heldBehind_find key v T l : heldBehind key v T l → LRU.find key l = Some v.
Proof.
  intros (front & back & -> & Hk & _ & _). rewrite find_app_fresh by done.
  simpl. by rewrite decide_True.
Qed.

Lemma without_keys key l : (LRU.without key l).*1 = filter (λ k, k ≠ key) l.*1.
Proof.
  unfold LRU.without. induction l as [|[k v] l IH]; [done|].
  rewrite fmap_cons. cbn [fst]. destruct (decide (k = key)) as [->|Hne].
  - rewrite !filter_cons_False by (cbn; auto). exact IH.
  - rewrite !filter_cons_True by done. rewrite fmap_cons. cbn [fst]. by rewrite IH.
Qed.

Lemma heldBehind_length key v T l front back :
  l = front ++ (key, v) :: back → NoDup front.*1 → list_to_set front.*1 ⊆ T →
  length front ≤ size T.
Proof.
  intros _ Hnd Hsub. rewrite <- (length_fmap fst front).
  rewrite <- (size_list_to_set (C := gset string)) by done. by apply subseteq_size.
Qed.

(** Touching another key puts it in front. *)
Lemma heldBehind_touch key v T l other (w : V) :
  other ≠ key → heldBehind key v T l →
  heldBehind key v (T ∪ {[other]}) ((other, w) :: LRU.without other l).
Proof.
  intros Hne (front & back & -> & Hk & Hnd & Hsub).
  exists ((other, w) :: LRU.without other front), (LRU.without other back).
  split_and!.
  - unfold LRU.without. rewrite filter_app, filter_cons_True by (cbn; congruence). done.
  - rewrite fmap_cons, without_keys. cbn [fst]. rewrite not_elem_of_cons.
    split; [congruence|]. rewrite list_elem_of_filter. tauto.
  - rewrite fmap_cons, without_keys. cbn [fst]. constructor.
    + rewrite list_elem_of_filter. tauto.
    + by apply NoDup_filter.
  - rewrite fmap_cons, without_keys. cbn [fst list_to_set].
    intros k. rewrite elem_of_union, elem_of_singleton, elem_of_list_to_set,
      list_elem_of_filter. intros [->|[_ Hin]]; [set_solver|].
    apply elem_of_union_l, Hsub. by apply elem_of_list_to_set.
Qed.

(** Trimming to a capacity above the number of keys in front keeps the key. *)
Lemma heldBehind_take key v T l (max : nat) :
  size T < max → heldBehind key v T l → heldBehind key v T (take max l).
Proof.
  intros Hsize (front & back & -> & Hk & Hnd & Hsub).
  pose proof (heldBehind_length key v T _ front back eq_refl Hnd Hsub) as Hlen.
  exists front, (take (max - length front - 1) back). split_and!; try done.
  rewrite take_app_ge by lia.
  destruct (max - length front) as [|n] eqn:Hn; [lia|].
  simpl. by rewrite Nat.sub_0_r.
Qed.

(** Touching the key itself puts it in front. *)
Lemma heldBehind_touch_self key v T T' l :
  heldBehind key v T l → heldBehind key v T' ((key, v) :: LRU.without key l).
Proof.
  intros _. exists [], (LRU.without key l). split_and!; [done|set_solver|constructor|set_solver].
Qed.

End Recency.

Section ChangesStayCached.

Lemma run_lookupsOfChanges_cons (revision : string) (rest : list string) (c : Client) :
  after (lookupsOfChanges (revision :: rest) c) =
  after (lookupsOfChanges rest (after (fetchFilesChangedAtRevision revision c))).
Proof.
  unfold lookupsOfChanges. cbn [forEach]. rewrite !run_bind. rewrite !after_run.
  by rewrite run_ret, after_run.
Qed.

(** Right after its lookup a revision is the most recently used. *)
Lemma revision_lookup_first (revision : string) (c : Client) :
  0 < LRU.max (_revisionIdToFileChanges c) →
  let r := fetchFilesChangedAtRevision revision c in
  ∃ back, LRU.entries (_revisionIdToFileChanges (after r)) = (revision, result r) :: back.
Proof.
  intros Hmax r. unfold r. rewrite run_fetchFilesChangedAtRevision.
  unfold LRU.peek, LRU.get. destruct (LRU.find revision _) as [v|] eqn:Hfind;
    rewrite after_run, result_run; cbn.
  - by eexists.
  - destruct (LRU.max (_revisionIdToFileChanges c)) as [|n]; [lia|]. simpl. by eexists.
Qed.

(** One more lookup, of any revision. *)
Lemma heldBehind_lookup (revision other : string) (v : RevisionFileChanges)
    (T : gset string) (c : Client) :
  heldBehind revision v T (LRU.entries (_revisionIdToFileChanges c)) →
  LRU.max (_revisionIdToFileChanges c) = 100 →
  size (T ∪ ({[other]} ∖ {[revision]})) < 100 →
  let c' := after (fetchFilesChangedAtRevision other c) in
  heldBehind revision v (T ∪ ({[other]} ∖ {[revision]}))
    (LRU.entries (_revisionIdToFileChanges c'))
  ∧ LRU.max (_revisionIdToFileChanges c') = 100.
Proof.
  intros Hheld Hmax Hsize c'. unfold c'. rewrite run_fetchFilesChangedAtRevision.
  pose proof (heldBehind_find _ _ _ _ Hheld) as Hfind.
  destruct (decide (other = revision)) as [->|Hne].
  - unfold LRU.peek, LRU.get. rewrite Hfind. rewrite after_run. cbn. split; [|done].
    by eapply heldBehind_touch_self.
  - assert (T ∪ ({[other]} ∖ {[revision]}) = T ∪ {[other]}) as Hset by set_solver.
    rewrite Hset in *.
    unfold LRU.peek, LRU.get.
    destruct (LRU.find other _) as [w|] eqn:Hother; rewrite after_run; cbn.
    + split; [|done]. by apply heldBehind_touch.
    + split; [|done]. rewrite Hmax. apply heldBehind_take; [done|].
      by apply heldBehind_touch.
Qed.

Lemma heldBehind_lookups (revision : string) (others : list string) (v : RevisionFileChanges)
    (T : gset string) (c : Client) :
  heldBehind revision v T (LRU.entries (_revisionIdToFileChanges c)) →
  LRU.max (_revisionIdToFileChanges c) = 100 →
  size (T ∪ (list_to_set others ∖ {[revision]})) < 100 →
  LRU.find revision
    (LRU.entries (_revisionIdToFileChanges (after (lookupsOfChanges others c)))) = Some v.
Proof.
  induction others as [|other rest IH] in T, c |- *; intros Hheld Hmax Hsize.
  - by eapply heldBehind_find.
  - rewrite run_lookupsOfChanges_cons.
    assert (Hsub : T ∪ ({[other]} ∖ {[revision]})
                   ⊆ T ∪ (list_to_set (other :: rest) ∖ {[revision]})) by set_solver.
    destruct (heldBehind_lookup revision other v T c Hheld Hmax) as [Hheld' Hmax'].
    { eapply Nat.le_lt_trans; [by apply subseteq_size|done]. }
    apply (IH _ _ Hheld' Hmax').
    assert (T ∪ ({[other]} ∖ {[revision]}) ∪ (list_to_set rest ∖ {[revision]})
            = T ∪ (list_to_set (other :: rest) ∖ {[revision]})) as -> by set_solver.
    done.
Qed.

(** X17. The change list of a revision that was looked up stays cached while
    fewer than 100 other revisions are looked up: whatever the order and the
    repetitions of these lookups, the next lookup of the revision returns the
    same change list and sends no request. *)
Theorem changes_stay_cached (c : Client) (revision : string) (others : list string) :
  afterRevisionFetches c →
  size (list_to_set others ∖ {[revision]} : gset string) < 100 →
  let r := fetchFilesChangedAtRevision revision c in
  let later := after (lookupsOfChanges others (after r)) in
  result (fetchFilesChangedAtRevision revision later) = result r
  ∧ effects (fetchFilesChangedAtRevision revision later) = [].
Proof.
  intros Hc Hsize r later.
  destruct (afterRevisionFetches_bounded c Hc) as (Hmax & _ & _ & _).
  assert (Hstart : heldBehind revision (result r) ∅
                     (LRU.entries (_revisionIdToFileChanges (after r)))
                   ∧ LRU.max (_revisionIdToFileChanges (after r)) = 100).
  { split.
    - destruct (revision_lookup_first revision c) as (back & Hentries); [lia|].
      fold r in Hentries. rewrite Hentries.
      exists [], back. split_and!; [done|set_solver|constructor|set_solver].
    - by destruct (revisionCachesBounded_changes revision c
                     (afterRevisionFetches_bounded c Hc)) as (? & _). }
  destruct Hstart as [Hheld Hmax'].
  assert (Hfind : LRU.peek revision (_revisionIdToFileChanges later) = Some (result r)).
  { unfold LRU.peek, later. apply (heldBehind_lookups revision others _ ∅); [done|done|].
    by rewrite (left_id_L ∅ (∪)). }
  by destruct (fetchFilesChangedAtRevision_hit revision later _ Hfind) as (? & ? & _).
Qed.

End ChangesStayCached.

Section Eviction.
Context {V : Type}.
Implicit Types (l front back : list (string * V)) (T : gset string).

Lemma goneOrBehind_touch key T l other (w : V) :
  other ≠ key → goneOrBehind key T l →
  goneOrBehind key (T ∪ {[other]}) ((other, w) :: LRU.without other l).
Proof.
  intros Hne [Hgone|(front & back & v & -> & Hk & Hnd & Hset)].
  - left. rewrite fmap_cons, without_keys. cbn [fst]. rewrite not_elem_of_cons.
    split; [congruence|]. rewrite list_elem_of_filter. tauto.
  - right. exists ((other, w) :: LRU.without other front), (LRU.without other back), v.
    split_and!.
    + unfold LRU.without. rewrite filter_app, filter_cons_True by (cbn; congruence). done.
    + rewrite fmap_cons, without_keys. cbn [fst]. rewrite not_elem_of_cons.
      split; [congruence|]. rewrite list_elem_of_filter. tauto.
    + rewrite fmap_cons, without_keys. cbn [fst]. constructor.
      * rewrite list_elem_of_filter. tauto.
      * by apply NoDup_filter.
    + rewrite fmap_cons, without_keys. cbn [fst list_to_set]. subst T.
      apply set_eq. intros k.
      rewrite !elem_of_union, !elem_of_singleton, !elem_of_list_to_set, list_elem_of_filter.
      destruct (decide (k = other)); naive_solver.
Qed.

Lemma goneOrBehind_take key T l (max : nat) :
  goneOrBehind key T l → goneOrBehind key T (take max l).
Proof.
  intros [Hgone|(front & back & v & -> & Hk & Hnd & Hset)].
  - left. intros Hin. apply Hgone.
    apply list_elem_of_fmap in Hin as (kv & -> & Hin).
    apply list_elem_of_fmap. exists kv. split; [done|].
    by eapply subseteq_take.
  - destruct (decide (max ≤ length front)) as [Hle|Hgt].
    + left. rewrite take_app_le by done. intros Hin. apply Hk.
      apply list_elem_of_fmap in Hin as (kv & -> & Hin).
      apply list_elem_of_fmap. exists kv. split; [done|].
      by eapply subseteq_take.
    + right. exists front, (take (max - length front - 1) back), v. split_and!; try done.
      rewrite take_app_ge by lia.
      destruct (max - length front) as [|n] eqn:Hn; [lia|].
      simpl. by rewrite Nat.sub_0_r.
Qed.

(** A cache within its capacity does not hold the key behind as many keys
    as the capacity. *)
Lemma goneOrBehind_full key T l (max : nat) :
  goneOrBehind key T l → length l ≤ max → max ≤ size T → LRU.find key l = None.
Proof.
  intros [Hgone|(front & back & v & -> & Hk & Hnd & Hset)] Hlen Hsize.
  - induction l as [|[k v] l IH]; [done|]. rewrite fmap_cons in Hgone. cbn [fst] in Hgone.
    simpl. rewrite decide_False by set_solver. apply IH; [set_solver|simpl in Hlen; lia].
  - exfalso. subst T. rewrite size_list_to_set in Hsize by done.
    rewrite length_fmap in Hsize. rewrite length_app in Hlen. simpl in Hlen. lia.
Qed.

End Eviction.

Section ChangesEvicted.

Lemma goneOrBehind_lookup (revision other : string) (T : gset string) (c : Client) :
  other ≠ revision →
  goneOrBehind revision T (LRU.entries (_revisionIdToFileChanges c)) →
  goneOrBehind revision (T ∪ {[other]})
    (LRU.entries (_revisionIdToFileChanges (after (fetchFilesChangedAtRevision other c)))).
Proof.
  intros Hne Hstate. rewrite run_fetchFilesChangedAtRevision.
  unfold LRU.peek, LRU.get.
  destruct (LRU.find other _) as [w|] eqn:Hother; rewrite after_run; cbn.
  - by apply goneOrBehind_touch.
  - apply goneOrBehind_take. by apply goneOrBehind_touch.
Qed.

Lemma goneOrBehind_lookups (revision : string) (others : list string)
    (T : gset string) (c : Client) :
  revision ∉ others →
  goneOrBehind revision T (LRU.entries (_revisionIdToFileChanges c)) →
  goneOrBehind revision (T ∪ list_to_set others)
    (LRU.entries (_revisionIdToFileChanges (after (lookupsOfChanges others c)))).
Proof.
  induction others as [|other rest IH] in T, c |- *; intros Hfresh Hstate.
  - cbn [list_to_set]. by rewrite (right_id_L ∅ (∪)).
  - rewrite run_lookupsOfChanges_cons.
    assert (T ∪ list_to_set (other :: rest) = T ∪ {[other]} ∪ list_to_set rest) as ->
      by set_solver.
    apply IH; [set_solver|]. apply goneOrBehind_lookup; [set_solver|done].
Qed.

Lemma lookupsOfChanges_bounded (others : list string) (c : Client) :
  revisionCachesBounded c → revisionCachesBounded (after (lookupsOfChanges others c)).
Proof.
  induction others as [|other rest IH] in c |- *; intros Hb; [done|].
  rewrite run_lookupsOfChanges_cons. by apply IH, revisionCachesBounded_changes.
Qed.

(** X18. The change-list cache holds 100 revisions: once 100 other revisions have
    been looked up since a revision was, the revision is no longer cached and
    its next lookup is sent to the backend. *)
Theorem changes_evicted (c : Client) (revision : string) (others : list string) :
  afterRevisionFetches c →
  revision ∉ others →
  100 ≤ size (list_to_set others : gset string) →
  let r := fetchFilesChangedAtRevision revision c in
  let later := after (lookupsOfChanges others (after r)) in
  LRU.peek revision (_revisionIdToFileChanges later) = None
  ∧ effects (fetchFilesChangedAtRevision revision later)
    = [Backend (FetchFilesChangedAtRevision revision)].
Proof.
  intros Hc Hfresh Hsize r later.
  pose proof (afterRevisionFetches_bounded c Hc) as Hb.
  assert (Hb1 : revisionCachesBounded (after r)) by by apply revisionCachesBounded_changes.
  destruct (lookupsOfChanges_bounded others _ Hb1) as (Hmax & Hlen & _ & _).
  fold later in Hmax, Hlen.
  assert (Hstart : goneOrBehind revision ∅ (LRU.entries (_revisionIdToFileChanges (after r)))).
  { destruct (revision_lookup_first revision c) as (back & Hentries).
    { destruct Hb as (-> & _). lia. }
    fold r in Hentries. rewrite Hentries.
    right. exists [], back, (result r). split_and!; [done|set_solver|constructor|set_solver]. }
  pose proof (goneOrBehind_lookups revision others ∅ (after r) Hfresh Hstart) as Hend.
  fold later in Hend. rewrite (left_id_L ∅ (∪)) in Hend.
  assert (Hnone : LRU.peek revision (_revisionIdToFileChanges later) = None).
  { unfold LRU.peek. eapply goneOrBehind_full; [done| |].
    - unfold LRU.length in Hlen. exact Hlen.
    - done. }
  split; [done|].
  rewrite run_fetchFilesChangedAtRevision, Hnone. done.
Qed.

End ChangesEvicted.

(** ** Recency in the cache of file contents *)

Section Mutation.
Context {V : Type}.
Implicit Types (l front back : list (string * V)) (T : gset string).

Lemma mutate_keys other (f : V → V) l :
  (LRU.entries (LRU.mutate other f (LRU.mk 0 l))).*1 = l.*1.
Proof.
  unfold LRU.mutate. cbn [LRU.entries].
  induction l as [|[k v] l IH]; [done|]. cbn [List.map]. rewrite !fmap_cons, IH.
  by destruct (decide _).
Qed.

Lemma mutate_app other (f : V → V) (max : nat) l1 l2 :
  LRU.entries (LRU.mutate other f (LRU.mk max (l1 ++ l2)))
  = LRU.entries (LRU.mutate other f (LRU.mk 0 l1))
    ++ LRU.entries (LRU.mutate other f (LRU.mk 0 l2)).
Proof. unfold LRU.mutate. cbn [LRU.entries]. apply map_app. Qed.

(** Mutating the value stored under a key keeps every key where it is. *)
Lemma heldBehind_mutate key v T l other (f : V → V) (max : nat) :
  heldBehind key v T l →
  heldBehind key (if decide (key = other) then f v else v) T
    (LRU.entries (LRU.mutate other f (LRU.mk max l))).
Proof.
  intros (front & back & -> & Hk & Hnd & Hsub).
  exists (LRU.entries (LRU.mutate other f (LRU.mk 0 front))),
         (LRU.entries (LRU.mutate other f (LRU.mk 0 back))).
  rewrite mutate_keys. split_and!; try done.
  rewrite mutate_app. f_equal. unfold LRU.mutate. cbn [LRU.entries List.map fst snd].
  by destruct (decide _).
Qed.

Lemma goneOrBehind_mutate key T l other (f : V → V) (max : nat) :
  goneOrBehind key T l →
  goneOrBehind key T (LRU.entries (LRU.mutate other f (LRU.mk max l))).
Proof.
  intros [Hgone|(front & back & v & -> & Hk & Hnd & Hset)].
  - left. unfold LRU.mutate. cbn [LRU.entries].
    pose proof (mutate_keys other f l) as Hkeys. unfold LRU.mutate in Hkeys.
    cbn [LRU.entries] in Hkeys. by rewrite Hkeys.
  - right.
    exists (LRU.entries (LRU.mutate other f (LRU.mk 0 front))),
           (LRU.entries (LRU.mutate other f (LRU.mk 0 back))),
           (if decide (key = other) then f v else v).
    rewrite mutate_keys. split_and!; try done.
    rewrite mutate_app. f_equal. unfold LRU.mutate. cbn [LRU.entries List.map fst snd].
    by destruct (decide _).
Qed.

End Mutation.

Section ContentsRecency.

Lemma run_lookupsOfContents_cons (lookup : string * string) (rest : list (string * string))
    (c : Client) :
  after (lookupsOfContents (lookup :: rest) c) =
  after (lookupsOfContents rest (after (fetchFileContentAtRevision lookup.1 lookup.2 c))).
Proof.
  unfold lookupsOfContents. cbn [forEach]. rewrite !run_bind. rewrite !after_run.
  by rewrite run_ret, after_run.
Qed.

(** Right after its lookup a revision is the most recently used, and its
    map holds the path. *)
Lemma content_lookup_first (filePath revision : string) (c : Client) :
  0 < LRU.max (_fileContentsAtRevisionIds c) →
  let r := fetchFileContentAtRevision filePath revision c in
  ∃ contentsOfRevision back,
    LRU.entries (_fileContentsAtRevisionIds (after r)) = (revision, contentsOfRevision) :: back
    ∧ contentsOfRevision !! filePath = Some (result r).
Proof.
  intros Hmax r. unfold r. rewrite run_fetchFileContentAtRevision. cbv zeta.
  unfold LRU.peek, LRU.get, LRU.set, LRU.mutate.
  destruct (LRU.find revision _) as [v|] eqn:Hfind.
  - destruct (v !! filePath) as [contents|] eqn:Hv; rewrite after_run, result_run;
      cbn [_fileContentsAtRevisionIds set_fileContentsAtRevisionIds snd LRU.entries LRU.max
           List.map fst].
    + by eexists _, _.
    + rewrite decide_True by done. eexists _, _. split; [done|]. cbn [snd].
      apply lookup_insert_eq.
  - rewrite after_run, result_run.
    cbn [_fileContentsAtRevisionIds set_fileContentsAtRevisionIds snd LRU.entries LRU.max].
    destruct (LRU.max (_fileContentsAtRevisionIds c)) as [|n]; [lia|].
    cbn [take List.map fst]. rewrite decide_True by done. eexists _, _. split; [done|].
    cbn [snd]. apply lookup_insert_eq.
Qed.

(** One more content lookup, of any path at any revision. *)
Lemma heldContents_lookup (filePath revision contents : string) (lookup : string * string)
    (T : gset string) (c : Client) :
  (∃ v, heldBehind revision v T (LRU.entries (_fileContentsAtRevisionIds c))
        ∧ v !! filePath = Some contents) →
  LRU.max (_fileContentsAtRevisionIds c) = 20 →
  size (T ∪ ({[lookup.2]} ∖ {[revision]})) < 20 →
  let c' := after (fetchFileContentAtRevision lookup.1 lookup.2 c) in
  (∃ v, heldBehind revision v (T ∪ ({[lookup.2]} ∖ {[revision]}))
          (LRU.entries (_fileContentsAtRevisionIds c'))
        ∧ v !! filePath = Some contents)
  ∧ LRU.max (_fileContentsAtRevisionIds c') = 20.
Proof.
  destruct lookup as [path other]. cbn [fst snd].
  intros (v & Hheld & Hv) Hmax Hsize.
  rewrite run_fetchFileContentAtRevision. cbv zeta.
  pose proof (heldBehind_find _ _ _ _ Hheld) as Hfind.
  unfold LRU.peek, LRU.get, LRU.set.
  destruct (decide (other = revision)) as [->|Hne].
  - rewrite Hfind.
    destruct (v !! path) as [cached|] eqn:Hpath; rewrite after_run;
      cbn [_fileContentsAtRevisionIds set_fileContentsAtRevisionIds snd]; (split; [|done]).
    + exists v. split; [|done]. by eapply heldBehind_touch_self.
    + eexists. split.
      * pose proof (heldBehind_mutate revision v (T ∪ ({[revision]} ∖ {[revision]})) _ revision
                      (λ contentsOfRevision : gmap string string,
                         <[path := HgService.fetchFileContentAtRevision (_service c) path revision]>
                           contentsOfRevision)
                      (LRU.max (_fileContentsAtRevisionIds c))
                      (heldBehind_touch_self revision v T _ _ Hheld)) as Hm.
        rewrite decide_True in Hm by done. exact Hm.
      * cbn beta. rewrite lookup_insert_ne; [done|]. intros ->. congruence.
  - assert (T ∪ ({[other]} ∖ {[revision]}) = T ∪ {[other]}) as Hset by set_solver.
    rewrite Hset in *.
    destruct (LRU.find other _) as [w|] eqn:Hother.
    + destruct (w !! path) as [cached|] eqn:Hpath; rewrite after_run;
        cbn [_fileContentsAtRevisionIds set_fileContentsAtRevisionIds snd]; (split; [|done]);
        exists v; (split; [|done]).
      * by apply heldBehind_touch.
      * pose proof (heldBehind_mutate revision v (T ∪ {[other]}) _ other
                      (λ contentsOfRevision : gmap string string,
                         <[path := HgService.fetchFileContentAtRevision (_service c) path other]>
                           contentsOfRevision)
                      (LRU.max (_fileContentsAtRevisionIds c))
                      (heldBehind_touch revision v T _ other w Hne Hheld)) as Hm.
        rewrite decide_False in Hm by done. exact Hm.
    + rewrite after_run.
      cbn [_fileContentsAtRevisionIds set_fileContentsAtRevisionIds snd]. (split; [|done]).
      exists v. split; [|done].
      pose proof (heldBehind_mutate revision v (T ∪ {[other]}) _ other
                    (λ contentsOfRevision : gmap string string,
                       <[path := HgService.fetchFileContentAtRevision (_service c) path other]>
                         contentsOfRevision)
                    (LRU.max (_fileContentsAtRevisionIds c))
                    (heldBehind_take revision v (T ∪ {[other]}) _
                       (LRU.max (_fileContentsAtRevisionIds c))
                       ltac:(by rewrite Hmax)
                       (heldBehind_touch revision v T _ other ∅ Hne Hheld))) as Hm.
      rewrite decide_False in Hm by done. exact Hm.
Qed.

Lemma heldContents_lookups (filePath revision contents : string)
    (others : list (string * string)) (T : gset string) (c : Client) :
  (∃ v, heldBehind revision v T (LRU.entries (_fileContentsAtRevisionIds c))
        ∧ v !! filePath = Some contents) →
  LRU.max (_fileContentsAtRevisionIds c) = 20 →
  size (T ∪ (list_to_set others.*2 ∖ {[revision]})) < 20 →
  cachedContents (after (lookupsOfContents others c)) filePath revision = Some contents.
Proof.
  induction others as [|lookup rest IH] in T, c |- *; intros Hheld Hmax Hsize.
  - destruct Hheld as (v & Hheld & Hv). unfold cachedContents, LRU.peek.
    change (after (lookupsOfContents [] c)) with c.
    by rewrite (heldBehind_find _ _ _ _ Hheld).
  - rewrite run_lookupsOfContents_cons.
    rewrite fmap_cons in Hsize.
    assert (Hsub : T ∪ ({[lookup.2]} ∖ {[revision]})
                   ⊆ T ∪ (list_to_set (lookup.2 :: rest.*2) ∖ {[revision]})) by set_solver.
    destruct (heldContents_lookup filePath revision contents lookup T c Hheld Hmax)
      as [Hheld' Hmax'].
    { eapply Nat.le_lt_trans; [by apply subseteq_size|done]. }
    apply (IH _ _ Hheld' Hmax').
    assert (T ∪ ({[lookup.2]} ∖ {[revision]}) ∪ (list_to_set rest.*2 ∖ {[revision]})
            = T ∪ (list_to_set (lookup.2 :: rest.*2) ∖ {[revision]})) as -> by set_solver.
    done.
Qed.

Lemma goneOrBehind_content_lookup (revision : string) (lookup : string * string)
    (T : gset string) (c : Client) :
  lookup.2 ≠ revision →
  goneOrBehind revision T (LRU.entries (_fileContentsAtRevisionIds c)) →
  goneOrBehind revision (T ∪ {[lookup.2]})
    (LRU.entries (_fileContentsAtRevisionIds
                    (after (fetchFileContentAtRevision lookup.1 lookup.2 c)))).
Proof.
  destruct lookup as [path other]. cbn [fst snd]. intros Hne Hstate.
  rewrite run_fetchFileContentAtRevision. cbv zeta.
  unfold LRU.peek, LRU.get, LRU.set.
  destruct (LRU.find other _) as [w|] eqn:Hother.
  - destruct (w !! path) as [cached|] eqn:Hpath; rewrite after_run;
      cbn [_fileContentsAtRevisionIds set_fileContentsAtRevisionIds snd].
    + by apply goneOrBehind_touch.
    + by apply goneOrBehind_mutate, goneOrBehind_touch.
  - rewrite after_run. cbn [_fileContentsAtRevisionIds set_fileContentsAtRevisionIds snd].
    by apply goneOrBehind_mutate, goneOrBehind_take, goneOrBehind_touch.
Qed.

Lemma goneOrBehind_content_lookups (revision : string) (others : list (string * string))
    (T : gset string) (c : Client) :
  revision ∉ others.*2 →
  goneOrBehind revision T (LRU.entries (_fileContentsAtRevisionIds c)) →
  goneOrBehind revision (T ∪ list_to_set others.*2)
    (LRU.entries (_fileContentsAtRevisionIds (after (lookupsOfContents others c)))).
Proof.
  induction others as [|lookup rest IH] in T, c |- *; intros Hfresh Hstate.
  - cbn [fmap list_fmap list_to_set]. by rewrite (right_id_L ∅ (∪)).
  - rewrite run_lookupsOfContents_cons. rewrite fmap_cons in *.
    assert (T ∪ list_to_set (lookup.2 :: rest.*2) = T ∪ {[lookup.2]} ∪ list_to_set rest.*2) as ->
      by set_solver.
    apply IH; [set_solver|]. apply goneOrBehind_content_lookup; [set_solver|done].
Qed.

Lemma lookupsOfContents_bounded (others : list (string * string)) (c : Client) :
  revisionCachesBounded c → revisionCachesBounded (after (lookupsOfContents others c)).
Proof.
  induction others as [|lookup rest IH] in c |- *; intros Hb; [done|].
  rewrite run_lookupsOfContents_cons. by apply IH, revisionCachesBounded_content.
Qed.

End ContentsRecency.

Section RevisionCachesLRU.

Lemma changes_retained (c : Client) (revision : string) (others : list string) :
  afterRevisionFetches c →
  size (list_to_set others ∖ {[revision]} : gset string) < 100 →
  let r := fetchFilesChangedAtRevision revision c in
  let later := after (lookupsOfChanges others (after r)) in
  LRU.peek revision (_revisionIdToFileChanges later) = Some (result r).
Proof.
  intros Hc Hsize r later.
  pose proof (afterRevisionFetches_bounded c Hc) as Hb.
  destruct (revisionCachesBounded_changes revision c Hb) as (Hmax' & _).
  destruct Hb as (Hmax & _).
  destruct (revision_lookup_first revision c) as (back & Hentries); [lia|].
  fold r in Hentries, Hmax'.
  unfold LRU.peek, later. apply (heldBehind_lookups revision others _ ∅); [|done|].
  - rewrite Hentries. exists [], back. split_and!; [done|set_solver|constructor|set_solver].
  - by rewrite (left_id_L ∅ (∪)).
Qed.

Lemma changes_dropped (c : Client) (revision : string) (others : list string) :
  afterRevisionFetches c →
  revision ∉ others →
  100 ≤ size (list_to_set others : gset string) →
  let r := fetchFilesChangedAtRevision revision c in
  let later := after (lookupsOfChanges others (after r)) in
  LRU.peek revision (_revisionIdToFileChanges later) = None.
Proof.
  intros Hc Hfresh Hsize r later.
  pose proof (afterRevisionFetches_bounded c Hc) as Hb.
  assert (Hb1 : revisionCachesBounded (after r)) by by apply revisionCachesBounded_changes.
  destruct (lookupsOfChanges_bounded others _ Hb1) as (Hmax & Hlen & _ & _).
  fold later in Hmax, Hlen.
  destruct (revision_lookup_first revision c) as (back & Hentries).
  { destruct Hb as (-> & _). lia. }
  fold r in Hentries.
  assert (Hstart : goneOrBehind revision ∅ (LRU.entries (_revisionIdToFileChanges (after r)))).
  { rewrite Hentries. right. exists [], back, (result r).
    split_and!; [done|set_solver|constructor|set_solver]. }
  pose proof (goneOrBehind_lookups revision others ∅ (after r) Hfresh Hstart) as Hend.
  fold later in Hend. rewrite (left_id_L ∅ (∪)) in Hend.
  unfold LRU.peek. eapply goneOrBehind_full; [done| |done].
  unfold LRU.length in Hlen. exact Hlen.
Qed.

Lemma contents_retained (c : Client) (filePath revision : string)
    (others : list (string * string)) :
  afterRevisionFetches c →
  size (list_to_set others.*2 ∖ {[revision]} : gset string) < 20 →
  let r := fetchFileContentAtRevision filePath revision c in
  let later := after (lookupsOfContents others (after r)) in
  cachedContents later filePath revision = Some (result r).
Proof.
  intros Hc Hsize r later.
  pose proof (afterRevisionFetches_bounded c Hc) as Hb.
  destruct (revisionCachesBounded_content filePath revision c Hb) as (_ & _ & Hmax' & _).
  destruct Hb as (_ & _ & Hmax & _).
  destruct (content_lookup_first filePath revision c) as (v & back & Hentries & Hv); [lia|].
  fold r in Hentries, Hv, Hmax'.
  unfold later. apply (heldContents_lookups filePath revision _ others ∅); [|done|].
  - exists v. split; [|done]. rewrite Hentries.
    exists [], back. split_and!; [done|set_solver|constructor|set_solver].
  - by rewrite (left_id_L ∅ (∪)).
Qed.

Lemma contents_dropped (c : Client) (filePath revision : string)
    (others : list (string * string)) :
  afterRevisionFetches c →
  revision ∉ others.*2 →
  20 ≤ size (list_to_set others.*2 : gset string) →
  let r := fetchFileContentAtRevision filePath revision c in
  let later := after (lookupsOfContents others (after r)) in
  LRU.peek revision (_fileContentsAtRevisionIds later) = None.
Proof.
  intros Hc Hfresh Hsize r later.
  pose proof (afterRevisionFetches_bounded c Hc) as Hb.
  assert (Hb1 : revisionCachesBounded (after r)) by by apply revisionCachesBounded_content.
  destruct (lookupsOfContents_bounded others _ Hb1) as (_ & _ & Hmax & Hlen).
  fold later in Hmax, Hlen.
  destruct (content_lookup_first filePath revision c) as (v & back & Hentries & _).
  { destruct Hb as (_ & _ & -> & _). lia. }
  fold r in Hentries.
  assert (Hstart : goneOrBehind revision ∅ (LRU.entries (_fileContentsAtRevisionIds (after r)))).
  { rewrite Hentries. right. exists [], back, v.
    split_and!; [done|set_solver|constructor|set_solver]. }
  pose proof (goneOrBehind_content_lookups revision others ∅ (after r) Hfresh Hstart) as Hend.
  fold later in Hend. rewrite (left_id_L ∅ (∪)) in Hend.
  unfold LRU.peek. eapply goneOrBehind_full; [done| |done].
  unfold LRU.length in Hlen. exact Hlen.
Qed.

(** C9.  [fetchFilesChangedAtRevision] and [fetchFileContentAtRevision] are
    read-through memoizations over two LRU maps of capacity 100 (change lists)
    and 20 (file contents), which the maps never exceed.  A lookup whose key
    (the revision, or the path within the revision) is cached returns the
    cached value and sends no request; a lookup whose key is not cached sends
    one request, returns its answer and stores it under the key; either way
    any number of further lookups of the same key are served from the cache:
    they return the same value and send no request.  The maps are least
    recently used ones of exactly these capacities: a key that was looked up
    is still served from the cache after lookups of fewer than 100 (20) other
    revisions, whatever their order and repetitions, and is no longer cached,
    and fetched again, after lookups of 100 (20) other revisions or more. *)
Theorem revision_caches_read_through (c : Client) :
  afterRevisionFetches c →
  revisionCachesBounded c
  ∧ (∀ revision,
       let r := fetchFilesChangedAtRevision revision c in
       match LRU.peek revision (_revisionIdToFileChanges c) with
       | Some changes => result r = changes ∧ effects r = []
       | None =>
           result r = HgService.fetchFilesChangedAtRevision (_service c) revision
           ∧ effects r = [Backend (FetchFilesChangedAtRevision revision)]
       end
       ∧ LRU.peek revision (_revisionIdToFileChanges (after r)) = Some (result r)
       ∧ ∀ n, let later := Nat.iter n (λ s, after (fetchFilesChangedAtRevision revision s))
                             (after r) in
              result (fetchFilesChangedAtRevision revision later) = result r
              ∧ effects (fetchFilesChangedAtRevision revision later) = [])
  ∧ (∀ filePath revision,
       let r := fetchFileContentAtRevision filePath revision c in
       match cachedContents c filePath revision with
       | Some contents => result r = contents ∧ effects r = []
       | None =>
           result r = HgService.fetchFileContentAtRevision (_service c) filePath revision
           ∧ effects r = [Backend (FetchFileContentAtRevision filePath revision)]
       end
       ∧ cachedContents (after r) filePath revision = Some (result r)
       ∧ ∀ n, let later := Nat.iter n (λ s, after (fetchFileContentAtRevision filePath revision s))
                             (after r) in
              result (fetchFileContentAtRevision filePath revision later) = result r
              ∧ effects (fetchFileContentAtRevision filePath revision later) = [])
  ∧ (∀ revision (others : list string),
       let r := fetchFilesChangedAtRevision revision c in
       let later := after (lookupsOfChanges others (after r)) in
       (size (list_to_set others ∖ {[revision]} : gset string) < 100 →
        result (fetchFilesChangedAtRevision revision later) = result r
        ∧ effects (fetchFilesChangedAtRevision revision later) = [])
       ∧ (revision ∉ others → 100 ≤ size (list_to_set others : gset string) →
          LRU.peek revision (_revisionIdToFileChanges later) = None
          ∧ effects (fetchFilesChangedAtRevision revision later)
            = [Backend (FetchFilesChangedAtRevision revision)]))
  ∧ (∀ filePath revision (others : list (string * string)),
       let r := fetchFileContentAtRevision filePath revision c in
       let later := after (lookupsOfContents others (after r)) in
       (size (list_to_set others.*2 ∖ {[revision]} : gset string) < 20 →
        result (fetchFileContentAtRevision filePath revision later) = result r
        ∧ effects (fetchFileContentAtRevision filePath revision later) = [])
       ∧ (revision ∉ others.*2 → 20 ≤ size (list_to_set others.*2 : gset string) →
          LRU.peek revision (_fileContentsAtRevisionIds later) = None
          ∧ effects (fetchFileContentAtRevision filePath revision later)
            = [Backend (FetchFileContentAtRevision filePath revision)])).
Proof.
  intros Hc. assert (Hb := afterRevisionFetches_bounded c Hc).
  destruct Hb as (Hm1 & Hl1 & Hm2 & Hl2). split_and!; [done| | | |].
  - intros revision r.
    assert (Hstored : LRU.peek revision (_revisionIdToFileChanges (after r)) = Some (result r)
                      ∧ match LRU.peek revision (_revisionIdToFileChanges c) with
                        | Some changes => result r = changes ∧ effects r = []
                        | None =>
                            result r = HgService.fetchFilesChangedAtRevision (_service c) revision
                            ∧ effects r = [Backend (FetchFilesChangedAtRevision revision)]
                        end).
    { destruct (LRU.peek revision (_revisionIdToFileChanges c)) as [changes|] eqn:Hpeek.
      - destruct (fetchFilesChangedAtRevision_hit revision c changes Hpeek) as (Hr & He & Hp).
        fold r in Hr, He, Hp. by rewrite Hr.
      - destruct (fetchFilesChangedAtRevision_miss revision c Hpeek) as (Hr & He & Hp); [lia|].
        by fold r in Hr, He, Hp. }
    destruct Hstored as [Hstored Hfirst]. split_and!; [done|done|].
    intros n later.
    assert (Hlater : LRU.peek revision (_revisionIdToFileChanges later) = Some (result r)).
    { unfold later. induction n as [|n IH]; [done|]. simpl.
      by destruct (fetchFilesChangedAtRevision_hit revision _ _ IH) as (_ & _ & ?). }
    by destruct (fetchFilesChangedAtRevision_hit revision _ _ Hlater) as (? & ? & _).
  - intros filePath revision r.
    assert (Hstored : cachedContents (after r) filePath revision = Some (result r)
                      ∧ match cachedContents c filePath revision with
                        | Some contents => result r = contents ∧ effects r = []
                        | None =>
                            result r = HgService.fetchFileContentAtRevision (_service c)
                                         filePath revision
                            ∧ effects r = [Backend (FetchFileContentAtRevision filePath revision)]
                        end).
    { destruct (cachedContents c filePath revision) as [contents|] eqn:Hcached.
      - destruct (fetchFileContentAtRevision_hit filePath revision c contents Hcached)
          as (Hr & He & Hp).
        fold r in Hr, He, Hp. by rewrite Hr.
      - destruct (fetchFileContentAtRevision_miss filePath revision c Hcached)
          as (Hr & He & Hp); [lia|].
        by fold r in Hr, He, Hp. }
    destruct Hstored as [Hstored Hfirst]. split_and!; [done|done|].
    intros n later.
    assert (Hlater : cachedContents later filePath revision = Some (result r)).
    { unfold later. induction n as [|n IH]; [done|]. simpl.
      by destruct (fetchFileContentAtRevision_hit filePath revision _ _ IH) as (_ & _ & ?). }
    by destruct (fetchFileContentAtRevision_hit filePath revision _ _ Hlater) as (? & ? & _).
  - intros revision others r later. split.
    + intros Hsize.
      pose proof (changes_retained c revision others Hc Hsize) as Hpeek.
      by destruct (fetchFilesChangedAtRevision_hit revision _ _ Hpeek) as (? & ? & _).
    + intros Hfresh Hsize.
      pose proof (changes_dropped c revision others Hc Hfresh Hsize) as Hpeek.
      split; [done|]. unfold later, r.
      by rewrite run_fetchFilesChangedAtRevision, Hpeek.
  - intros filePath revision others r later. split.
    + intros Hsize.
      pose proof (contents_retained c filePath revision others Hc Hsize) as Hcached.
      by destruct (fetchFileContentAtRevision_hit filePath revision _ _ Hcached) as (? & ? & _).
    + intros Hfresh Hsize.
      pose proof (contents_dropped c filePath revision others Hc Hfresh Hsize) as Hpeek.
      split; [done|]. unfold later, r.
      rewrite run_fetchFileContentAtRevision. cbv zeta. by rewrite Hpeek.
Qed.

End RevisionCachesLRU.

(** ** What the two updates leave alone *)

Section Frames.
Context `{PathLib}.

(** X20. A status update touches the status cache and the modified-directory
    index only, and in the status cache only the paths it asked about or the
    answer lists: every other cached status, the diff cache with its two
    sets, the revision caches and the editor subscriptions are as before. *)
Theorem updateStatuses_frame
    (c : Client) (filePaths : list string) (options : option HgStatusCommandOptions) :
  let pathsInRepo := filter (λ filePath, _isPathRelevant filePath = true) filePaths in
  let r := _updateStatuses filePaths options c in
  (∀ k, k ∉ pathsInRepo → k ∉ (result r).*1 →
        _hgStatusCache (after r) !! k = _hgStatusCache c !! k)
  ∧ _hgDiffCache (after r) = _hgDiffCache c
  ∧ _hgDiffCacheFilesUpdating (after r) = _hgDiffCacheFilesUpdating c
  ∧ _hgDiffCacheFilesToClear (after r) = _hgDiffCacheFilesToClear c
  ∧ _revisionIdToFileChanges (after r) = _revisionIdToFileChanges c
  ∧ _fileContentsAtRevisionIds (after r) = _fileContentsAtRevisionIds c
  ∧ _editorSubscriptions (after r) = _editorSubscriptions c
  ∧ isDestroyed (after r) = isDestroyed c.
Proof.
  intros pathsInRepo r.
  assert (Hout := updateStatuses_outside filePaths options c). fold r in Hout.
  unfold outsideStatus, isDestroyed in *.
  split; [|by simplify_eq].
  intros k Hasked Hlisted.
  apply (updateStatuses_lookup_unlisted filePaths options c k); [done|].
  intros Hin. by destruct Hasked.
Qed.

(** X21. A diff update touches the diff cache and its two sets only, and in the
    diff cache only the paths fetched or queued for removal: the status
    cache, the modified-directory index, the revision caches and the editor
    subscriptions are as before, and so is the diff info of every other
    path. *)
Theorem updateDiffInfo_frame (c : Client) (filePaths : list string) :
  let pathsToFetch := (markPathsToFetch filePaths c).1 in
  let r := _updateDiffInfo filePaths c in
  (∀ p, p ∉ _hgDiffCacheFilesToClear c →
        (∀ fetched, HgService.fetchDiffInfo (_service c) pathsToFetch = Some fetched →
                    p ∉ fetched.*1) →
        _hgDiffCache (after r) !! p = _hgDiffCache c !! p)
  ∧ _hgStatusCache (after r) = _hgStatusCache c
  ∧ _modifiedDirectoryCache (after r) = _modifiedDirectoryCache c
  ∧ _revisionIdToFileChanges (after r) = _revisionIdToFileChanges c
  ∧ _fileContentsAtRevisionIds (after r) = _fileContentsAtRevisionIds c
  ∧ _editorSubscriptions (after r) = _editorSubscriptions c
  ∧ isDestroyed (after r) = isDestroyed c.
Proof.
  intros pathsToFetch r. split.
  { intros p Hclear Hfetched. by apply updateDiffInfo_lookup_other. }
  unfold r. rewrite run_updateDiffInfo. fold pathsToFetch.
  case_bool_decide; [by rewrite after_run|].
  rewrite after_run. unfold isDestroyed.
  destruct (HgService.fetchDiffInfo (_service c) pathsToFetch); cbn; done.
Qed.

End Frames.


(** ** The active bookmark *)

Lemma default_truthy (s : string) : default "" (truthy (Some s)) = s.
Proof. by destruct s. Qed.

(** X19. Fetching the active bookmark returns and stores the fetched bookmark, the
    empty string when the fetch fails; the two events are emitted exactly
    when the stored bookmark changes, so a second fetch with the same answer
    emits nothing; [getShortHead] then returns the stored bookmark and kicks
    off a new fetch exactly when it is empty. *)
Theorem getShortHeadAsync_settles (answer : option string) (activeBookmark : option string) :
  let r := _getShortHeadAsync answer activeBookmark in
  r.1.1 = default "" answer
  ∧ r.1.2 = Some (default "" answer)
  ∧ r.2 = (if bool_decide (activeBookmark = Some (default "" answer)) then []
           else ["did-change-statuses"; "did-change-short-head"])
  ∧ _getShortHeadAsync answer r.1.2 = (default "" answer, Some (default "" answer), [])
  ∧ getShortHead r.1.2 = (default "" answer, bool_decide (default "" answer = "")).
Proof.
  intros r. unfold r, _getShortHeadAsync. clear r.
  generalize (default "" answer). intros b.
  assert (Hsame : bool_decide (Some b ≠ Some b) = false).
  { apply bool_decide_eq_false_2. intros Hn. by apply Hn. }
  assert (Hhead : getShortHead (Some b) = (b, bool_decide (b = ""))).
  { unfold getShortHead. by destruct b. }
  destruct (decide (Some b = activeBookmark)) as [<-|Hne].
  - rewrite Hsame. cbn [fst snd]. rewrite Hsame, !default_truthy.
    rewrite bool_decide_eq_true_2 by done. done.
  - rewrite (bool_decide_eq_true_2 (Some b ≠ activeBookmark)) by done.
    cbn [fst snd]. rewrite Hsame, !default_truthy.
    rewrite bool_decide_eq_false_2 by congruence. done.
Qed.

(** * Examples on the concrete project *)

Section Examples.
Import Fixture.


(** C2, as stated, fails twice.  The cached status of [/p/a] differs before
    and after the update that drops it, and no 'did-change-status' event is
    emitted for it; and a run with no relevant path emits no
    'did-change-statuses' event. *)
Lemma updateStatuses_silent_eviction :
  _hgStatusCache vanishedFile !! "/p/a" = Some StatusCodeId.MODIFIED
  ∧ _hgStatusCache (after (_updateStatuses ["/p/a"] ALL_STATUSES vanishedFile)) !! "/p/a" = None
  ∧ emitted (effects (_updateStatuses ["/p/a"] ALL_STATUSES vanishedFile)) = [DidChangeStatuses]
  ∧ emitted (effects (_updateStatuses ["/elsewhere/x"] ALL_STATUSES vanishedFile)) = [].
Proof. split_and!; vm_compute; reflexivity. Qed.

(** C3, as stated, fails: a clean file is not cached, and the second call
    asks the backend again. *)
Lemma getStatuses_clean_path_fetched_again :
  requests (effects (getStatuses ["/p/c"] None (client [("/p/c", StatusCodeId.CLEAN)])))
  = [FetchStatuses ["/p/c"] None]
  ∧ requests (effects (getStatuses ["/p/c"] None
                         (after (getStatuses ["/p/c"] None
                                   (client [("/p/c", StatusCodeId.CLEAN)])))))
    = [FetchStatuses ["/p/c"] None].
Proof. split_and!; vm_compute; reflexivity. Qed.

(** C5 at its failing inputs.  An added file that becomes clean takes the
    count of its directories down with it: [/p/d/b] is still cached as
    MODIFIED and [/p/d] reads CLEAN.  A modified file that becomes removed
    leaves its count behind: nothing is cached as MODIFIED and [/p/d] reads
    MODIFIED. *)
Theorem directory_index_out_of_step :
  (_hgStatusCache (after (_updateStatuses ["/p/d/a"] ALL_STATUSES addedBecomesClean)) !! "/p/d/b"
   = Some StatusCodeId.MODIFIED
   ∧ getDirectoryStatus (after (_updateStatuses ["/p/d/a"] ALL_STATUSES addedBecomesClean))
       (Some "/p/d")
     = StatusCodeNumber.CLEAN)
  ∧ (map_to_list
       (_hgStatusCache (after (_updateStatuses ["/p/d/b"] ALL_STATUSES modifiedBecomesRemoved)))
     = [("/p/d/b", StatusCodeId.REMOVED)]
     ∧ getDirectoryStatus (after (_updateStatuses ["/p/d/b"] ALL_STATUSES modifiedBecomesRemoved))
         (Some "/p/d")
       = StatusCodeNumber.MODIFIED).
Proof. split_and!; vm_compute; reflexivity. Qed.

(** C7 at its failing input.  After a commit (and after an amend) the status
    cache and the diff cache are empty and one 'did-change-statuses' event was
    emitted, but the modified-directory index still counts the file that was
    modified: [/p/d] reads MODIFIED.  The full refresh empties the index. *)
Theorem commit_keeps_modified_directories :
  (_hgStatusCache (after (commit "message" modifiedInDirectory)) = ∅
   ∧ _hgDiffCache (after (commit "message" modifiedInDirectory)) = ∅
   ∧ emitted (effects (commit "message" modifiedInDirectory)) = [DidChangeStatuses]
   ∧ _modifiedDirectoryCache (after (commit "message" modifiedInDirectory)) !! "/p/d/" = Some 1
   ∧ getDirectoryStatus (after (commit "message" modifiedInDirectory)) (Some "/p/d")
     = StatusCodeNumber.MODIFIED)
  ∧ (_modifiedDirectoryCache (after (amend None "Clean" modifiedInDirectory)) !! "/p/d/" = Some 1
     ∧ getDirectoryStatus (after (amend None "Clean" modifiedInDirectory)) (Some "/p/d")
       = StatusCodeNumber.MODIFIED)
  ∧ _modifiedDirectoryCache
      (after (_refreshStatusesOfAllFilesInCache (workingCopyBecomes [] modifiedInDirectory)))
    = ∅.
Proof. split_and!; vm_compute; reflexivity. Qed.

(** ** The theorems at concrete inputs *)


Lemma updateStatuses_change_events_witness :
  NoDup (HgService.fetchStatuses (_service staleClient)
           (filter (λ filePath, _isPathRelevant filePath = true) ["/p/a"; "/p/b"])
           ALL_STATUSES).*1
  ∧ filter (λ filePath, _isPathRelevant filePath = true) ["/p/a"; "/p/b"] ≠ []
  ∧ ((∃ st, DidChangeStatus "/p/a" st
              ∈ emitted (effects (_updateStatuses ["/p/a"; "/p/b"] ALL_STATUSES staleClient)))
     ↔ "/p/a" ∈ (HgService.fetchStatuses (_service staleClient)
                   (filter (λ filePath, _isPathRelevant filePath = true) ["/p/a"; "/p/b"])
                   ALL_STATUSES).*1
       ∧ _hgStatusCache staleClient !! "/p/a"
         ≠ _hgStatusCache (after (_updateStatuses ["/p/a"; "/p/b"] ALL_STATUSES staleClient))
             !! "/p/a").
Proof.
  assert (Hnd : NoDup (HgService.fetchStatuses (_service staleClient)
                         (filter (λ filePath, _isPathRelevant filePath = true) ["/p/a"; "/p/b"])
                         ALL_STATUSES).*1).
  { vm_compute. apply NoDup_singleton. }
  assert (Hne : filter (λ filePath, _isPathRelevant filePath = true) ["/p/a"; "/p/b"] ≠ [])
    by (vm_compute; discriminate).
  split_and!; [done|done|].
  destruct (updateStatuses_change_events staleClient ["/p/a"; "/p/b"] ALL_STATUSES Hnd)
    as [_ Hrun].
  destruct (Hrun Hne) as (Hiff & _). apply Hiff.
Defined.

Lemma getStatuses_again_witness :
  (∀ p, p ∈ ["/p/a"] → _isPathRelevant p = true →
        is_Some (_hgStatusCache (after (getStatuses ["/p/a"] None staleClient)) !! p))
  ∧ effects (getStatuses ["/p/a"] None (after (getStatuses ["/p/a"] None staleClient))) = []
  ∧ result (getStatuses ["/p/a"] None (after (getStatuses ["/p/a"] None staleClient)))
    = result (getStatuses ["/p/a"] None staleClient).
Proof.
  assert (Hall : ∀ p, p ∈ ["/p/a"] → _isPathRelevant p = true →
                      is_Some (_hgStatusCache (after (getStatuses ["/p/a"] None staleClient)) !! p)).
  { intros p ->%list_elem_of_singleton _. vm_compute. by eexists. }
  split; [done|].
  destruct (getStatuses_again staleClient ["/p/a"] None) as [_ Hagain].
  destruct Hagain as (He & _ & Hr).
  - exact Hall.
  - vm_compute. apply NoDup_singleton.
  - intros p st Hin.
    assert (Hans : result (_updateStatuses
                             (filter (λ p, _hgStatusCache staleClient !! p = None) ["/p/a"])
                             None staleClient)
                   = [("/p/a", StatusCodeId.MODIFIED)]) by (vm_compute; reflexivity).
    rewrite Hans in Hin. apply list_elem_of_singleton in Hin. injection Hin as -> ->.
    split; [|done]. vm_compute. apply list_elem_of_here.
  - done.
Defined.

Lemma clean_never_cached_witness :
  afterStatusUpdates addedBecomesClean
  ∧ (("/p/d/a", StatusCodeId.CLEAN)
       ∈ HgService.fetchStatuses (_service addedBecomesClean)
           (filter (λ filePath, _isPathRelevant filePath = true) ["/p/d/a"]) ALL_STATUSES)
  ∧ _hgStatusCache (after (_updateStatuses ["/p/d/a"] ALL_STATUSES addedBecomesClean)) !! "/p/d/a"
    = None.
Proof.
  assert (Hreach : afterStatusUpdates addedBecomesClean).
  { apply afterBackendChange, afterUpdateStatuses, afterConstructor. }
  assert (Hin : ("/p/d/a", StatusCodeId.CLEAN)
                  ∈ HgService.fetchStatuses (_service addedBecomesClean)
                      (filter (λ filePath, _isPathRelevant filePath = true) ["/p/d/a"])
                      ALL_STATUSES).
  { vm_compute. apply list_elem_of_here. }
  split_and!; [done|done|].
  destruct (clean_never_cached addedBecomesClean Hreach) as [_ Hrun].
  apply (Hrun ["/p/d/a"] ALL_STATUSES "/p/d/a").
  - vm_compute. discriminate.
  - vm_compute. apply NoDup_singleton.
  - exact Hin.
Defined.

Lemma updateDiffInfo_failure_witness :
  (markPathsToFetch ["/p/a"; "/elsewhere/x"; "/p/a"]
     (constructor (service [] hgDiffFails))).1 ≠ []
  ∧ result (_updateDiffInfo ["/p/a"; "/elsewhere/x"; "/p/a"]
              (constructor (service [] hgDiffFails))) = None
  ∧ _hgDiffCacheFilesUpdating
      (after (_updateDiffInfo ["/p/a"; "/elsewhere/x"; "/p/a"]
                (constructor (service [] hgDiffFails)))) = ∅.
Proof.
  assert (Hne : (markPathsToFetch ["/p/a"; "/elsewhere/x"; "/p/a"]
                   (constructor (service [] hgDiffFails))).1 ≠ [])
    by (vm_compute; discriminate).
  split; [done|].
  destruct (updateDiffInfo_failure (constructor (service [] hgDiffFails))
              ["/p/a"; "/elsewhere/x"; "/p/a"] Hne eq_refl) as (Hr & _ & _ & _ & Hu & _).
  split; [exact Hr|exact Hu].
Defined.

(** C6 at its failing input.  The fetch of the diff of [/p/a] rejects; from
    then on [/p/a] is marked as being fetched, a request for it returns an
    empty map without reaching the backend, and of two later batches that
    the backend answers only [/p/b] is asked for. *)
Lemma updateDiffInfo_rejection_blocks_witness :
  let r := _updateDiffInfo_await (λ _, true) ["/p/a"] (client []) in
  "/p/a" ∈ (markPathsToFetch ["/p/a"] (client [])).1
  ∧ result r = Rejected
  ∧ "/p/a" ∈ _hgDiffCacheFilesUpdating (after r)
  ∧ _updateDiffInfo ["/p/a"] (after r) = (Some [], after r, [])
  ∧ requests (effects (diffFetches (λ _, false) [["/p/a"]; ["/p/a"; "/p/b"]] (after r)))
    = [FetchDiffInfo ["/p/b"]]
  ∧ "/p/a" ∈ _hgDiffCacheFilesUpdating
               (after (diffFetches (λ _, false) [["/p/a"]; ["/p/a"; "/p/b"]] (after r))).
Proof.
  intros r.
  assert (Hin : "/p/a" ∈ (markPathsToFetch ["/p/a"] (client [])).1).
  { vm_compute. apply list_elem_of_here. }
  pose proof (updateDiffInfo_rejection_blocks (client []) ["/p/a"] (λ _, true) "/p/a")
    as Hblocks.
  cbv zeta in Hblocks.
  destruct (Hblocks Hin eq_refl) as (Hresult & _ & _ & _ & _ & Hmarked & Hagain & Hlater).
  destruct (Hlater (λ _, false) [["/p/a"]; ["/p/a"; "/p/b"]]) as (Hstill & _).
  split_and!; [exact Hin|exact Hresult|exact Hmarked|exact Hagain| |exact Hstill].
  vm_compute. reflexivity.
Defined.

Lemma revision_caches_read_through_witness :
  afterRevisionFetches (after (fetchFilesChangedAtRevision "r1" (client [])))
  ∧ revisionCachesBounded (after (fetchFilesChangedAtRevision "r1" (client [])))
  ∧ effects (fetchFilesChangedAtRevision "r1"
               (after (fetchFilesChangedAtRevision "r1" (client [])))) = []
  ∧ LRU.peek "base"
      (_fileContentsAtRevisionIds
         (after (lookupsOfContents ((λ revision, ("/p/a", revision)) <$> revisions 20)
                   (after (fetchFileContentAtRevision "/p/a" "base"
                             (after (fetchFilesChangedAtRevision "r1" (client []))))))))
    = None.
Proof.
  assert (Hreach : afterRevisionFetches (after (fetchFilesChangedAtRevision "r1" (client [])))).
  { apply revisionsAfterChanges, revisionsAfterConstructor. }
  split; [done|].
  destruct (revision_caches_read_through _ Hreach) as (Hb & Hchanges & _ & _ & Hcontents).
  split; [exact Hb|].
  destruct (Hchanges "r1") as (Hfirst & _ & _).
  split; [vm_compute in Hfirst; apply Hfirst|].
  destruct (Hcontents "/p/a" "base" ((λ revision, ("/p/a", revision)) <$> revisions 20))
    as (_ & Hevicted).
  destruct Hevicted as (Hgone & _).
  - apply (bool_decide_unpack _). vm_compute. exact I.
  - vm_compute. lia.
  - exact Hgone.
Defined.

End Examples.

(** * Further examples *)

Section MoreExamples.
Import Fixture.

(** A path outside the project is not fetched. *)
Lemma updateDiffInfo_batch_witness :
  _isPathRelevant "/elsewhere/x" = false
  ∧ _updateDiffInfo ["/elsewhere/x"] (client []) = (Some [], client [], []).
Proof.
  split; [reflexivity|].
  pose proof (updateDiffInfo_batch (client []) ["/elsewhere/x"]) as Hbatch.
  cbv zeta in Hbatch. destruct Hbatch as (_ & _ & _ & Hnone).
  apply Hnone. intros p Hp Hrel.
  apply list_elem_of_singleton in Hp as ->. vm_compute in Hrel. discriminate.
Defined.

Lemma updateDiffInfo_settles_witness :
  (markPathsToFetch ["/p/a"] (client [])).1 ≠ []
  ∧ emitted (effects (_updateDiffInfo ["/p/a"] (client []))) = [DidChangeStatuses].
Proof.
  assert (Hne : (markPathsToFetch ["/p/a"] (client [])).1 ≠ []).
  { vm_compute. discriminate. }
  split; [exact Hne|].
  pose proof (updateDiffInfo_settles (client []) ["/p/a"]) as Hsettles.
  cbv zeta in Hsettles. destruct (Hsettles Hne) as (_ & Hemitted & _).
  exact Hemitted.
Defined.

Lemma updateDiffInfo_read_back_witness :
  HgService.fetchDiffInfo (_service (client [])) (markPathsToFetch ["/p/a"] (client [])).1
  = Some [("/p/a", oneLineAdded)]
  ∧ getDiffStats (after (_updateDiffInfo ["/p/a"] (client []))) (Some "/p/a")
    = {| stats_added := 1; stats_deleted := 0 |}.
Proof.
  assert (Hfetched :
    HgService.fetchDiffInfo (_service (client [])) (markPathsToFetch ["/p/a"] (client [])).1
    = Some [("/p/a", oneLineAdded)]).
  { vm_compute. reflexivity. }
  split; [exact Hfetched|].
  pose proof (updateDiffInfo_read_back (client []) ["/p/a"] [("/p/a", oneLineAdded)]
                "/p/a" oneLineAdded None) as Hback.
  cbv zeta in Hback. destruct Hback as (_ & Hstats & _).
  - vm_compute. discriminate.
  - exact Hfetched.
  - apply NoDup_singleton.
  - apply list_elem_of_here.
  - apply not_elem_of_empty.
  - discriminate.
  - exact Hstats.
Defined.

(** [/p/a] is cached as modified and has vanished: the answer does not list
    it and it leaves the cache. *)
Lemma updateStatuses_eviction_witness :
  _hgStatusCache vanishedFile !! "/p/a" = Some StatusCodeId.MODIFIED
  ∧ _hgStatusCache (after (_updateStatuses ["/p/a"] ALL_STATUSES vanishedFile)) !! "/p/a" = None.
Proof.
  split; [vm_compute; reflexivity|].
  pose proof (updateStatuses_eviction vanishedFile ["/p/a"] ALL_STATUSES "/p/a") as Hgone.
  cbv zeta in Hgone. apply Hgone.
  - vm_compute. apply list_elem_of_here.
  - vm_compute. inversion 1.
Defined.

Lemma updateStatuses_event_order_witness :
  emitted (effects (_updateStatuses ["/p/a"] ALL_STATUSES (client [("/p/a", StatusCodeId.MODIFIED)])))
  = [DidChangeStatus "/p/a" StatusCodeNumber.MODIFIED; DidChangeStatuses].
Proof.
  pose proof (updateStatuses_event_order (client [("/p/a", StatusCodeId.MODIFIED)])
                ["/p/a"] ALL_STATUSES) as Horder.
  cbv zeta in Horder. etrans; [apply Horder|].
  - vm_compute. discriminate.
  - vm_compute. apply NoDup_singleton.
  - vm_compute. reflexivity.
Defined.

Lemma updateStatuses_idempotent_witness :
  let c := client [("/p/a", StatusCodeId.MODIFIED)] in
  let r1 := _updateStatuses ["/p/a"] ALL_STATUSES c in
  let r2 := _updateStatuses ["/p/a"] ALL_STATUSES (after r1) in
  after r2 = after r1 ∧ emitted (effects r2) = [DidChangeStatuses].
Proof.
  intros c r1 r2.
  pose proof (updateStatuses_idempotent c ["/p/a"] ALL_STATUSES) as Hagain.
  cbv zeta in Hagain. destruct Hagain as (Hafter & _ & Hemitted).
  - vm_compute. apply NoDup_singleton.
  - split; [exact Hafter|exact Hemitted].
Defined.

(** The empty list of paths reaches no backend. *)
Lemma getStatuses_batch_witness :
  effects (getStatuses [] ALL_STATUSES modifiedInDirectory) = []
  ∧ after (getStatuses [] ALL_STATUSES modifiedInDirectory) = modifiedInDirectory.
Proof.
  pose proof (getStatuses_batch modifiedInDirectory [] ALL_STATUSES) as Hbatch.
  cbv zeta in Hbatch. destruct Hbatch as (_ & Hnone).
  destruct Hnone as (Heffects & Hafter & _); [reflexivity|].
  split; [exact Heffects|exact Hafter].
Defined.

Lemma getAllPathStatuses_agrees_witness :
  afterStatusUpdates modifiedInDirectory
  ∧ getCachedPathStatus modifiedInDirectory (Some "/p/d/b")
    = default StatusCodeNumber.CLEAN (getAllPathStatuses modifiedInDirectory !! "/p/d/b")
  ∧ getAllPathStatuses modifiedInDirectory !! "/p/d/b" ≠ Some StatusCodeNumber.CLEAN.
Proof.
  assert (Hreach : afterStatusUpdates modifiedInDirectory).
  { apply afterUpdateStatuses, afterConstructor. }
  split; [exact Hreach|].
  destruct (getAllPathStatuses_agrees modifiedInDirectory "/p/d/b") as (Hsame & Hclean).
  - discriminate.
  - split; [exact Hsame|exact (Hclean Hreach)].
Defined.

(** After a full refresh of a working copy where [/p/d/b] is modified, the
    directory [/p/d] reads as modified. *)
Lemma refresh_rebuilds_the_index_witness :
  getDirectoryStatus
    (after (_refreshStatusesOfAllFilesInCache (client [("/p/d/b", StatusCodeId.MODIFIED)])))
    (Some "/p/d")
  = StatusCodeNumber.MODIFIED.
Proof.
  pose proof (refresh_rebuilds_the_index (client [("/p/d/b", StatusCodeId.MODIFIED)])) as Hindex.
  cbv zeta in Hindex. destruct Hindex as (Hcache & Hdirectory).
  - vm_compute. apply NoDup_singleton.
  - apply Hdirectory; [discriminate|].
    exists "/p/d/b". split.
    + apply Hcache. split; [|discriminate]. vm_compute. apply list_elem_of_here.
    + vm_compute. apply list_elem_of_here.
Defined.

Lemma destroy_tears_down_witness :
  let c := after (observeTextEditor (Some "/p/a") (client [])) in
  isDestroyed c = false
  ∧ disposed (effects (destroy c)) = [EditorSubscription "/p/a"; Subscriptions].
Proof.
  intros c.
  assert (Halive : isDestroyed c = false) by reflexivity.
  split; [exact Halive|].
  destruct (destroy_tears_down c Halive) as (_ & Hdisposed & _).
  exact Hdisposed.
Defined.

Lemma observeTextEditor_once_witness :
  NoDup (_editorSubscriptions (client []))
  ∧ NoDup (_editorSubscriptions (after (observeTextEditor (Some "/p/a") (client [])))).
Proof.
  assert (Hnone : NoDup (_editorSubscriptions (client []))) by apply NoDup_nil_2.
  split; [exact Hnone|].
  pose proof (observeTextEditor_once (client []) (Some "/p/a")) as Honce.
  cbv zeta in Honce. destruct Honce as (_ & _ & Hnodup & _).
  exact (Hnodup Hnone).
Defined.

(** The diff info of [/p/a] is cached; its editor is destroyed; the next
    fetch, for [/p/b], drops it. *)
Lemma editorDidDestroy_defers_removal_witness :
  let c := after (_updateDiffInfo ["/p/a"] (client [])) in
  let r := editorDidDestroy "/p/a" c in
  _hgDiffCache (after r) !! "/p/a" = Some oneLineAdded
  ∧ _hgDiffCache (after (_updateDiffInfo ["/p/b"] (after r))) !! "/p/a" = None.
Proof.
  intros c r.
  pose proof (editorDidDestroy_defers_removal c "/p/a") as Hdefers.
  cbv zeta in Hdefers. destruct Hdefers as (Hkept & _ & _ & _ & Hnext).
  split.
  - unfold r. rewrite Hkept. vm_compute. reflexivity.
  - destruct (Hnext ["/p/b"] None) as (Hgone & _).
    + vm_compute. discriminate.
    + exact Hgone.
Defined.

Lemma fetchFileContentAtRevision_keeps_siblings_witness :
  let c := after (fetchFileContentAtRevision "/p/a" "r1" (client [])) in
  cachedContents c "/p/a" "r1" = Some "/p/a@r1"
  ∧ cachedContents (after (fetchFileContentAtRevision "/p/b" "r1" c)) "/p/a" "r1"
    = Some "/p/a@r1".
Proof.
  intros c.
  assert (Hcached : cachedContents c "/p/a" "r1" = Some "/p/a@r1").
  { vm_compute. reflexivity. }
  split; [exact Hcached|].
  exact (fetchFileContentAtRevision_keeps_siblings c "/p/b" "/p/a" "r1" "/p/a@r1" Hcached).
Defined.

(** Looking up [r2], [r3] and [r2] again leaves [r1] cached. *)
Lemma changes_stay_cached_witness :
  let r := fetchFilesChangedAtRevision "r1" (client []) in
  let later := after (lookupsOfChanges ["r2"; "r3"; "r2"] (after r)) in
  effects (fetchFilesChangedAtRevision "r1" later) = [].
Proof.
  intros r later.
  pose proof (changes_stay_cached (client []) "r1" ["r2"; "r3"; "r2"]) as Hstay.
  cbv zeta in Hstay. destruct Hstay as (_ & Heffects).
  - apply revisionsAfterConstructor.
  - vm_compute. lia.
  - exact Heffects.
Defined.

(** Looking up the hundred revisions [r0] to [r99] evicts [base]. *)
Lemma changes_evicted_witness :
  let r := fetchFilesChangedAtRevision "base" (client []) in
  let later := after (lookupsOfChanges (revisions 100) (after r)) in
  LRU.peek "base" (_revisionIdToFileChanges later) = None.
Proof.
  intros r later.
  pose proof (changes_evicted (client []) "base" (revisions 100)) as Hevicted.
  cbv zeta in Hevicted. destruct Hevicted as (Hgone & _).
  - apply revisionsAfterConstructor.
  - apply (bool_decide_unpack _). vm_compute. exact I.
  - vm_compute. lia.
  - exact Hgone.
Defined.

(** [/p/b] stays cached as modified while the status of [/p/a] is fetched. *)
Lemma updateStatuses_frame_witness :
  _hgStatusCache (after (_updateStatuses ["/p/a"] ALL_STATUSES staleClient)) !! "/p/b"
  = _hgStatusCache staleClient !! "/p/b".
Proof.
  pose proof (updateStatuses_frame staleClient ["/p/a"] ALL_STATUSES) as Hframe.
  cbv zeta in Hframe. destruct Hframe as (Hother & _).
  apply Hother.
  - vm_compute. intros Hin. apply list_elem_of_singleton in Hin. discriminate.
  - vm_compute. intros Hin. apply list_elem_of_singleton in Hin. discriminate.
Defined.

Lemma updateDiffInfo_frame_witness :
  let c := after (_updateDiffInfo ["/p/a"] (client [])) in
  _hgDiffCache (after (_updateDiffInfo ["/p/b"] c)) !! "/p/a" = _hgDiffCache c !! "/p/a".
Proof.
  intros c.
  pose proof (updateDiffInfo_frame c ["/p/b"]) as Hframe.
  cbv zeta in Hframe. destruct Hframe as (Hother & _).
  apply Hother.
  - apply not_elem_of_empty.
  - intros fetched Hfetched. vm_compute in Hfetched. injection Hfetched as <-.
    intros Hin. apply list_elem_of_singleton in Hin. discriminate.
Defined.

End MoreExamples.
